(** * Buddy allocator: a shallow embedding of buddy.c and its properties

    The allocator manages the static buffer [g_memory] of [2^MAX_ORDER]
    bytes with one page descriptor per [2^MIN_ORDER]-byte page and one
    free list per order.

    Modelling conventions.
    - An address is represented by its byte offset from [g_memory]
      (the macros of the source all subtract [g_memory] first); the
      null pointer returned by [buddy_alloc] is [None].
    - A [page_t *] is represented by its index into [g_pages], so a
      pointer comparison is a comparison of indices.
    - [int] and [unsigned long] values are in [Z]; no value computed on
      the paths studied here leaves the 32-bit range.
    - The three global arrays form one explicit [state] that is
      threaded through the operations. *)

From Stdlib Require Import ZArith Lia.
From stdpp Require Import base numbers relations list.

Local Open Scope Z_scope.

(** ** Constants and address macros *)

Definition MIN_ORDER : Z := 12.
Definition MAX_ORDER : Z := 20.

Definition PAGE_SIZE : Z := Z.shiftl 1 MIN_ORDER.

(** [(1<<MAX_ORDER)/PAGE_SIZE], the length of [g_pages]. *)
Definition n_pages : Z := Z.shiftl 1 MAX_ORDER / PAGE_SIZE.

(** [PAGE_TO_ADDR(page_idx)]: page index to address. *)
Definition PAGE_TO_ADDR (page_idx : Z) : Z := page_idx * PAGE_SIZE.

(** [ADDR_TO_PAGE(addr)]: address to page index. *)
Definition ADDR_TO_PAGE (addr : Z) : Z := addr / PAGE_SIZE.

(** [BUDDY_ADDR(addr, o)]: flip bit [o] of the offset.  The shift
    [1<<o] is defined in C for [0 <= o < 31] only; the loops reach this
    macro with an order between 0 and [MAX_ORDER - 1] or fault in the
    same iteration. *)
Definition BUDDY_ADDR (addr o : Z) : Z := Z.lxor addr (Z.shiftl 1 o).

(** ** Data *)

(** [page_t] without its [list] member: the links are represented by
    the free lists below. *)
Record page_t : Type := mk_page { blockOrder : Z; blockAddress : Z }.

(** Modelled from the spec: list.h (the intrusive circular doubly-linked
    list) is not part of the sources.  Following the collaborator
    contract, the list anchored at a [struct list_head] is the sequence
    of the page descriptors linked into it, first element first, and a
    descriptor is identified by its page index.  A head that
    [INIT_LIST_HEAD] never touched is [Zeroed]: it is static storage,
    both of its pointers are null, and it is outside the contract. *)
Inductive list_head : Type :=
| Zeroed
| Linked (l : list Z).

Record state : Type := mk_state {
  free_area : list list_head;   (* MAX_ORDER+1 heads *)
  g_pages : list page_t         (* n_pages descriptors *)
}.

Global Instance page_t_eq_dec : EqDecision page_t.
Proof. solve_decision. Defined.

Global Instance list_head_eq_dec : EqDecision list_head.
Proof. solve_decision. Defined.

Global Instance state_eq_dec : EqDecision state.
Proof. solve_decision. Defined.

(** The result of running an operation: a normal return with the new
    state, a fault (undefined behaviour in C: a null or out-of-bounds
    access, a conversion of a non-finite double), or a loop that was
    cut after the allowed number of iterations. *)
Inductive outcome (A : Type) : Type :=
| Done (a : A) (st : state)
| Fault
| OutOfFuel.
Arguments Done {A} a st.
Arguments Fault {A}.
Arguments OutOfFuel {A}.

(** Array accesses; an index outside the array gives [None]. *)
Definition head_at (st : state) (i : Z) : option list_head :=
  if i <? 0 then None else free_area st !! Z.to_nat i.

Definition page_at (st : state) (k : Z) : option page_t :=
  if k <? 0 then None else g_pages st !! Z.to_nat k.

Definition set_head (st : state) (i : Z) (h : list_head) : state :=
  mk_state (<[Z.to_nat i := h]> (free_area st)) (g_pages st).

(** [g_pages[k].blockOrder = o] *)
Definition set_blockOrder (st : state) (k o : Z) : state :=
  mk_state (free_area st)
           (alter (fun p => mk_page o (blockAddress p)) (Z.to_nat k) (g_pages st)).

(** ** The list operations

    list.h is not part of the sources; the operations follow the
    collaborator contract of the specification: initialisation,
    insertion at the head, removal given the node, emptiness test,
    recovery of the owning record and iteration from the head. *)

(** Modelled from the spec: [INIT_LIST_HEAD] of list.h; the list
    becomes empty. *)
Definition INIT_LIST_HEAD : list_head := Linked [].

(** Modelled from the spec: [list_empty] of list.h, the test
    [head->next == head]; the [next] of a zeroed head is null, which is
    not the head. *)
Definition list_empty (h : list_head) : bool :=
  match h with
  | Linked [] => true
  | _ => false
  end.

(** Modelled from the spec: [list_entry(head->next, page_t, list)] of
    list.h, as a page index.  For a zeroed head the pointer is null; for
    an empty list it is the head itself, which is no page descriptor. *)
Definition list_first (h : list_head) : option Z :=
  match h with
  | Linked (k :: _) => Some k
  | _ => None
  end.

(** Modelled from the spec: [list_add(&g_pages[k].list, &free_area[i])]
    of list.h, insertion right after the head.  Through a zeroed head
    the insertion writes through a null pointer. *)
Definition list_add (k i : Z) (st : state) : option state :=
  match head_at st i with
  | Some (Linked l) => Some (set_head st i (Linked (k :: l)))
  | _ => None
  end.

(** Modelled from the spec: what [list_del] of list.h does to one
    list. *)
Definition unlink (k : Z) (h : list_head) : list_head :=
  match h with
  | Zeroed => Zeroed
  | Linked l => Linked (filter (fun x => x ≠ k) l)
  end.

(** Modelled from the spec: [list_del(&g_pages[k].list)] of list.h; the
    node is unlinked from the list it is on, and the call does not name
    that list. *)
Definition list_del (k : Z) (st : state) : state :=
  mk_state (unlink k <$> free_area st) (g_pages st).

(** ** buddy_init *)

(** The static storage before [buddy_init]: all zero (the null
    [blockAddress] fields are overwritten before they are read). *)
Definition static_storage : state :=
  mk_state (replicate (Z.to_nat (MAX_ORDER + 1)) Zeroed)
           (replicate (Z.to_nat n_pages) (mk_page 0 0)).

Definition buddy_init (st : state) : state :=
  (* for (i = 0; i < n_pages; i++) *)
  let pages := imap (fun i _ => mk_page (-1) (PAGE_TO_ADDR (Z.of_nat i))) (g_pages st) in
  (* for (i = MIN_ORDER; i <= MAX_ORDER; i++) INIT_LIST_HEAD(&free_area[i]) *)
  let heads := imap (fun i h => if (MIN_ORDER <=? Z.of_nat i) && (Z.of_nat i <=? MAX_ORDER)
                                then INIT_LIST_HEAD else h) (free_area st) in
  (* list_add(&g_pages[0].list, &free_area[MAX_ORDER]) *)
  match list_add 0 MAX_ORDER (mk_state heads pages) with
  | Some st' => st'
  | None => mk_state heads pages
  end.

(** The state right after [buddy_init()] at program start. *)
Definition init_state : state := buddy_init static_storage.

(** ** buddy_alloc *)

(** [ceil(log2(size))] for [size >= 1].  The double computation is exact
    on the 32-bit integers: the rounded [log2] of a power of two is the
    exponent itself, and for any other [size] the logarithm is further
    from an integer than the rounding error. *)
Definition block_order (size : Z) : Z := Z.log2_up size.

(** The inner loop [for (int j = i; j != block_order; j--)]: the right
    half at order [j-1] gets its order recorded and goes on the free
    list of order [j-1]. *)
Fixpoint split (fuel : nat) (st : state) (left_ j border : Z) : outcome unit :=
  if j =? border then Done tt st
  else
    match fuel with
    | O => OutOfFuel
    | S fuel' =>
        match page_at st left_ with
        | None => Fault
        | Some lp =>
            let right_ := ADDR_TO_PAGE (BUDDY_ADDR (blockAddress lp) (j - 1)) in
            match page_at st right_ with
            | None => Fault
            | Some _ =>
                match list_add right_ (j - 1) (set_blockOrder st right_ (j - 1)) with
                | None => Fault
                | Some st' => split fuel' st' left_ (j - 1) border
                end
            end
        end
    end.

(** The outer loop [for (int i = block_order; i <= MAX_ORDER; i++)].
    On a zeroed head [list_empty] answers "not empty", [list_entry]
    yields a null [page_t *] (the [list] member comes first) and the
    store to [left->blockOrder] faults.  [cap] is the allowance of the
    inner loop, [fuel] what is left for this one. *)
Fixpoint alloc_scan (cap fuel : nat) (st : state) (border i : Z) : outcome (option Z) :=
  if i <=? MAX_ORDER then
    match fuel with
    | O => OutOfFuel
    | S fuel' =>
        match head_at st i with
        | None => Fault
        | Some h =>
            if negb (list_empty h) then
              match list_first h with
              | None => Fault
              | Some left_ =>
                  match page_at st left_ with
                  | None => Fault
                  | Some _ =>
                      let st1 := set_blockOrder st left_ border in
                      let st2 := list_del left_ st1 in
                      match split cap st2 left_ i border with
                      | Done _ st3 =>
                          match page_at st3 left_ with
                          | Some lp => Done (Some (blockAddress lp)) st3
                          | None => Fault
                          end
                      | Fault => Fault
                      | OutOfFuel => OutOfFuel
                      end
                  end
              end
            else alloc_scan cap fuel' st border (i + 1)
        end
    end
  else Done None st.

(** [buddy_alloc] where every loop may run at most [fuel] iterations.
    For [size <= 0] the logarithm is not finite and its conversion to
    [int] is undefined. *)
Definition buddy_alloc_fuel (fuel : nat) (size : Z) (st : state) : outcome (option Z) :=
  if size <=? 0 then Fault
  else
    let border := block_order size in
    if border >? MAX_ORDER then Done None st
    else alloc_scan fuel fuel st border border.

(** ** buddy_free *)

(** The body of [list_for_each(pos, &free_area[i])]: the whole list is
    walked from the head on and the flag is raised at the buddy. *)
Fixpoint scan (l : list Z) (buddy : Z) (isFree : bool) : bool :=
  match l with
  | [] => isFree
  | pos :: rest => scan rest buddy (if pos =? buddy then true else isFree)
  end.

(** [while (i < MAX_ORDER && isFree)] *)
Fixpoint free_loop (fuel : nat) (st : state) (freePage i : Z) (isFree : bool)
  : outcome (Z * Z) :=
  if (i <? MAX_ORDER) && isFree then
    match fuel with
    | O => OutOfFuel
    | S fuel' =>
        match page_at st freePage with
        | None => Fault
        | Some fp =>
            let buddy := ADDR_TO_PAGE (BUDDY_ADDR (blockAddress fp) i) in
            match head_at st i with
            | Some (Linked l) =>
                if scan l buddy false then
                  free_loop fuel' (list_del buddy st)
                            (if freePage >? buddy then buddy else freePage) (i + 1) true
                else free_loop fuel' st freePage i false
            | _ => Fault
            end
        end
    end
  else Done (freePage, i) st.

(** After the loop: [freePage->blockOrder = i] and
    [list_add(&freePage->list, &free_area[i])]. *)
Definition insert_block (r : outcome (Z * Z)) : outcome unit :=
  match r with
  | Done (freePage, i) st =>
      match page_at st freePage with
      | None => Fault
      | Some _ =>
          match list_add freePage i (set_blockOrder st freePage i) with
          | Some st' => Done tt st'
          | None => Fault
          end
      end
  | Fault => Fault
  | OutOfFuel => OutOfFuel
  end.

Definition buddy_free_fuel (fuel : nat) (addr : Z) (st : state) : outcome unit :=
  let freePage := ADDR_TO_PAGE addr in
  match page_at st freePage with
  | None => Fault
  | Some p => insert_block (free_loop fuel st freePage (blockOrder p) true)
  end.

(** The operations as called.  No loop of either function takes more
    iterations than [free_area] has heads, so this supply never runs
    out ([buddy_alloc_finished] and [buddy_free_finished] below). *)
Definition loop_fuel : nat := Z.to_nat (MAX_ORDER + 2).

Definition buddy_alloc (size : Z) (st : state) : outcome (option Z) :=
  buddy_alloc_fuel loop_fuel size st.

Definition buddy_free (addr : Z) (st : state) : outcome unit :=
  buddy_free_fuel loop_fuel addr st.

(** ** buddy_dump *)

(** [list_for_each(pos, &free_area[o]) cnt++] *)
Definition count_nodes (l : list Z) : Z := fold_left (fun cnt _ => cnt + 1) l 0.

(** One pair [(cnt, (1<<o)/1024)] per [printf("%d:%dK ", ...)], in the
    order printed. *)
Fixpoint dump_from (n : nat) (st : state) (o : Z) : option (list (Z * Z)) :=
  match n with
  | O => Some []
  | S n' =>
      match head_at st o with
      | Some (Linked l) =>
          match dump_from n' st (o + 1) with
          | Some rest => Some ((count_nodes l, Z.shiftl 1 o / 1024) :: rest)
          | None => None
          end
      | _ => None
      end
  end.

Definition buddy_dump (st : state) : option (list (Z * Z)) :=
  dump_from (Z.to_nat (MAX_ORDER - MIN_ORDER + 1)) st MIN_ORDER.

(** The free list of order [o] as a sequence (empty when there is none). *)
Definition free_at (st : state) (o : Z) : list Z :=
  match head_at st o with
  | Some (Linked l) => l
  | _ => []
  end.


(** * Notions used to state the properties *)

(** An iteration of a loop costs one unit of fuel; a run that ends
    with less ends the same way with more. *)
Definition finished {A} (r : outcome A) : Prop := r ≠ OutOfFuel.

(** The number of orders, [MAX_ORDER - MIN_ORDER + 1]. *)
Definition n_orders : nat := Z.to_nat (MAX_ORDER - MIN_ORDER + 1).

(** The states the examples run through. *)
Definition after_alloc (s : Z) (st : state) : state :=
  match buddy_alloc s st with Done _ st' => st' | _ => st end.

Definition after_free (a : Z) (st : state) : state :=
  match buddy_free a st with Done _ st' => st' | _ => st end.

(** ** Blocks, free and allocated *)

(** A block: its base address and its order. *)
Abbreviation block := (Z * Z)%type (only parsing).

(** All the indices of [free_area]. *)
Definition orders : list Z := seqZ 0 (MAX_ORDER + 1).

Definition blocks_at (st : state) (o : Z) : list block :=
  (λ k, (PAGE_TO_ADDR k, o)) <$> free_at st o.

(** The free blocks: one per descriptor linked into a free list. *)
Definition free_blocks (st : state) : list block := orders ≫= blocks_at st.

(** Byte [x] lies in block [b]. *)
Definition covers (x : Z) (b : block) : Prop := b.1 ≤ x < b.1 + 2 ^ b.2.

Global Instance covers_dec x b : Decision (covers x b).
Proof. unfold covers. apply _. Defined.

(** The number of blocks of [bs] that contain byte [x]. *)
Definition count (x : Z) (bs : list block) : nat := length (filter (covers x) bs).

(** A block of a valid order, inside the region, aligned to its size. *)
Definition good_block (b : block) : Prop :=
  MIN_ORDER ≤ b.2 ≤ MAX_ORDER ∧ 0 ≤ b.1 ∧ b.1 + 2 ^ b.2 ≤ 2 ^ MAX_ORDER ∧ (2 ^ b.2 | b.1).

(** The arrays as [buddy_init] lays them out. *)
Record shape (st : state) : Prop := mk_shape {
  shape_heads : length (free_area st) = Z.to_nat (MAX_ORDER + 1);
  shape_zeroed : ∀ i, 0 ≤ i < MIN_ORDER → head_at st i = Some Zeroed;
  shape_linked : ∀ i, MIN_ORDER ≤ i ≤ MAX_ORDER → ∃ l, head_at st i = Some (Linked l);
  shape_pages : length (g_pages st) = Z.to_nat n_pages;
  shape_addr : ∀ k p, page_at st k = Some p → blockAddress p = PAGE_TO_ADDR k
}.

(** A list of blocks tiles the region: every block is good and every
    byte of the region lies in exactly one of them. *)
Definition tiles (bs : list block) : Prop :=
  Forall good_block bs ∧ ∀ x, 0 ≤ x < 2 ^ MAX_ORDER → count x bs = 1%nat.

(** The free blocks together with the blocks [held] outside the free
    lists tile the region. *)
Record partition (st : state) (held : list block) : Prop := mk_partition {
  part_shape : shape st;
  part_tiles : tiles (free_blocks st ++ held)
}.

(** The head descriptor of every allocated block carries its order. *)
Definition recorded (st : state) (live : list block) : Prop :=
  ∀ a o, (a, o) ∈ live →
         ∃ p, page_at st (ADDR_TO_PAGE a) = Some p ∧ blockOrder p = o.

(** The invariant of the allocator; [live] lists the allocated blocks. *)
Definition Inv (st : state) (live : list block) : Prop :=
  partition st live ∧ recorded st live.

(** ** Sequences of operations *)

(** One completed operation.  The second component lists the allocated
    blocks: an address returned by [buddy_alloc] enters it with the
    order of the request, and leaves it when it is passed to
    [buddy_free]; only listed addresses may be freed. *)
Inductive step : state * list block → state * list block → Prop :=
| step_alloc st live s a st' :
    buddy_alloc s st = Done (Some a) st' →
    step (st, live) (st', (a, block_order s) :: live)
| step_alloc_null st live s st' :
    buddy_alloc s st = Done None st' →
    step (st, live) (st', live)
| step_free st live1 live2 a o st' :
    buddy_free a st = Done tt st' →
    step (st, live1 ++ (a, o) :: live2) (st', live1 ++ live2).

(** What a sequence of operations reaches from the state after
    [buddy_init]. *)
Definition reachable (c : state * list block) : Prop := rtc step (init_state, []) c.

(** ** Release, in the words of the specification *)

(** Descriptor [k] is the descriptor of the page at address [addr]. *)
Definition descriptor_at (st : state) (k addr : Z) : Prop :=
  ∃ d, page_at st k = Some d ∧ blockAddress d = addr.

(** The merge loop as the specification words it, on addresses.
    [spec_merge n st base i st' base' i']: from the block at [base] of
    order [i] in [st], [n] merges lead to the block at [base'] of order
    [i'] in [st'].  While [i < MAX_ORDER] the buddy address is [base]
    XOR [2^i] and only the free list of order [i] is searched for a
    descriptor with that address; if there is one it is removed, the
    lower of the two addresses is the merged base and [i] advances;
    otherwise the loop stops. *)
Inductive spec_merge : nat → state → Z → Z → state → Z → Z → Prop :=
| spec_merge_top st base i :
    MAX_ORDER ≤ i → spec_merge 0 st base i st base i
| spec_merge_stop st base i :
    i < MAX_ORDER →
    (∀ k, k ∈ free_at st i → ¬ descriptor_at st k (Z.lxor base (2 ^ i))) →
    spec_merge 0 st base i st base i
| spec_merge_step n st base i k st' base' i' :
    i < MAX_ORDER →
    k ∈ free_at st i →
    descriptor_at st k (Z.lxor base (2 ^ i)) →
    spec_merge n (list_del k st) (Z.min base (Z.lxor base (2 ^ i))) (i + 1) st' base' i' →
    spec_merge (S n) st base i st' base' i'.

(** Release of the block at [addr] allocated at order [i0]: the merge
    loop, then the order of the resulting block is set to the final [i]
    and the block is inserted into the free list of order [i]. *)
Definition spec_free (addr i0 : Z) (st st' : state) : Prop :=
  ∃ n st1 base i k,
    spec_merge n st addr i0 st1 base i
    ∧ descriptor_at st1 k base
    ∧ list_add k i (set_blockOrder st1 k i) = Some st'.

(** ** The sibling claim as worded *)

(** The two siblings [a] and [b] of order [o] lie in one free block of
    order [o+1]. *)
Definition merged_at_next_order (st : state) (a b o : Z) : Prop :=
  ∃ k, k ∈ free_at st (o + 1)
       ∧ covers a (PAGE_TO_ADDR k, o + 1) ∧ covers b (PAGE_TO_ADDR k, o + 1).

(** ** Coalescing and accounting *)

(** No block of [bs] has its buddy in [bs]. *)
Definition coalesced (bs : list block) : Prop :=
  ∀ a o, (a, o) ∈ bs → (BUDDY_ADDR a o, o) ∉ bs.

(** The bytes of a list of blocks. *)
Definition block_bytes (bs : list block) : Z := foldr (λ b n, 2 ^ b.2 + n) 0 bs.

(** The bytes [buddy_dump] accounts for: [cnt] blocks of [K] kibibytes
    per pair printed. *)
Definition dump_bytes (out : list (Z * Z)) : Z := foldr (λ e n, e.1 * (e.2 * 1024) + n) 0 out.

(** The number of pairs of a byte below [n] and a block of [bs] that
    contains it. *)
Fixpoint covered (n : nat) (bs : list block) : nat :=
  match n with
  | O => O
  | S n' => (count (Z.of_nat n') bs + covered n' bs)%nat
  end.

(** * Properties *)

(** ** Small tools *)

Lemma forall_seqZ (P : Z → Prop) (m n : Z) :
  Forall P (seqZ m n) → ∀ z, m ≤ z < m + n → P z.
Proof.
  intros HF z Hz. rewrite Forall_forall in HF. apply HF, elem_of_seqZ. exact Hz.
Qed.

(** What is read from the free lists depends on [free_area] alone. *)
Lemma head_at_ext st st' i : free_area st = free_area st' → head_at st i = head_at st' i.
Proof. unfold head_at. by intros ->. Qed.

Lemma free_at_ext st st' o : free_area st = free_area st' → free_at st o = free_at st' o.
Proof. intros H. unfold free_at. by rewrite (head_at_ext st st' o H). Qed.

Lemma dump_from_ext st st' n o :
  free_area st = free_area st' → dump_from n st o = dump_from n st' o.
Proof.
  intros H. revert o. induction n as [|n IH]; intros o; simpl; [done|].
  by rewrite (head_at_ext st st' o H), IH.
Qed.

Lemma buddy_dump_ext st st' : free_area st = free_area st' → buddy_dump st = buddy_dump st'.
Proof. apply dump_from_ext. Qed.

(** ** The state after initialisation *)

Lemma init_lower_lists_empty o :
  MIN_ORDER ≤ o < MAX_ORDER → free_at init_state o = [].
Proof.
  intros Ho. apply (forall_seqZ (λ o, free_at init_state o = []) 12 8);
    [|unfold MIN_ORDER, MAX_ORDER in Ho; lia].
  apply (bool_decide_unpack _). vm_compute. exact I.
Qed.

(** C3: right after [buddy_init] there is exactly one free block, the
    block at the base of the region on the free list of order
    [MAX_ORDER]; the free lists of the orders [MIN_ORDER] to
    [MAX_ORDER-1] are empty, and [buddy_dump] prints count 1 for
    [MAX_ORDER] and count 0 for every other order. *)
Theorem init_single_block :
  free_at init_state MAX_ORDER = [ADDR_TO_PAGE 0]
  ∧ (∀ o, MIN_ORDER ≤ o < MAX_ORDER → free_at init_state o = [])
  ∧ (∀ o, MIN_ORDER ≤ o ≤ MAX_ORDER →
       head_at init_state o = Some (Linked (if o =? MAX_ORDER then [0] else [])))
  ∧ buddy_dump init_state =
      Some [(0, 4); (0, 8); (0, 16); (0, 32); (0, 64); (0, 128); (0, 256);
            (0, 512); (1, 1024)].
Proof.
  split; [reflexivity|]. split; [|split; [|reflexivity]].
  - apply init_lower_lists_empty.
  - intros o Ho.
    apply (forall_seqZ (λ o, head_at init_state o =
                             Some (Linked (if o =? MAX_ORDER then [0] else []))) 12 9);
      [|unfold MIN_ORDER, MAX_ORDER in Ho; lia].
    apply (bool_decide_unpack _). vm_compute. exact I.
Qed.

(** ** One minimum-size allocation after initialisation *)

Lemma alloc_min_block :
  buddy_alloc (2 ^ MIN_ORDER) init_state
  = Done (Some 0) (after_alloc (2 ^ MIN_ORDER) init_state).
Proof. vm_compute. reflexivity. Qed.

(** C4: from the state after [buddy_init], [buddy_alloc(1<<MIN_ORDER)]
    returns the base of the region and leaves one free block on each
    free list of order [MIN_ORDER] to [MAX_ORDER-1] and none at
    [MAX_ORDER]: the split at order [j] put the upper half, at
    [base + 2^(j-1)], on the list of order [j-1] with that order
    recorded, and kept the lower half, whose descriptor ends with the
    requested order. *)
Theorem alloc_min_block_cascade :
  ∃ st,
    buddy_alloc (2 ^ MIN_ORDER) init_state = Done (Some 0) st
    ∧ (∀ j, MIN_ORDER < j ≤ MAX_ORDER →
         free_at st (j - 1) = [ADDR_TO_PAGE (0 + 2 ^ (j - 1))]
         ∧ page_at st (ADDR_TO_PAGE (0 + 2 ^ (j - 1)))
           = Some (mk_page (j - 1) (0 + 2 ^ (j - 1))))
    ∧ free_at st MAX_ORDER = []
    ∧ page_at st (ADDR_TO_PAGE 0) = Some (mk_page MIN_ORDER 0)
    ∧ buddy_dump st =
        Some [(1, 4); (1, 8); (1, 16); (1, 32); (1, 64); (1, 128); (1, 256);
              (1, 512); (0, 1024)].
Proof.
  exists (after_alloc (2 ^ MIN_ORDER) init_state).
  split; [exact alloc_min_block|].
  split; [|split_and!; vm_compute; reflexivity].
  intros j Hj.
  apply (forall_seqZ
           (λ j, free_at (after_alloc (2 ^ MIN_ORDER) init_state) (j - 1)
                 = [ADDR_TO_PAGE (0 + 2 ^ (j - 1))]
                 ∧ page_at (after_alloc (2 ^ MIN_ORDER) init_state)
                           (ADDR_TO_PAGE (0 + 2 ^ (j - 1)))
                   = Some (mk_page (j - 1) (0 + 2 ^ (j - 1)))) 13 8);
    [|unfold MIN_ORDER, MAX_ORDER in Hj; lia].
  apply (bool_decide_unpack _). vm_compute. exact I.
Qed.

(** ** Allocation followed by release *)

(** C5: from the state after [buddy_init], allocating one minimum-size
    block and freeing the returned address gives back the free lists of
    the initial state: one free block at [MAX_ORDER], none at any other
    order. *)
Theorem alloc_free_round_trip :
  ∃ a st1 st2,
    buddy_alloc (2 ^ MIN_ORDER) init_state = Done (Some a) st1
    ∧ buddy_free a st1 = Done tt st2
    ∧ free_area st2 = free_area init_state
    ∧ free_at st2 MAX_ORDER = [ADDR_TO_PAGE 0]
    ∧ (∀ o, MIN_ORDER ≤ o < MAX_ORDER → free_at st2 o = [])
    ∧ buddy_dump st2 = buddy_dump init_state.
Proof.
  exists 0, (after_alloc (2 ^ MIN_ORDER) init_state),
         (after_free 0 (after_alloc (2 ^ MIN_ORDER) init_state)).
  assert (Hfa : free_area (after_free 0 (after_alloc (2 ^ MIN_ORDER) init_state))
                = free_area init_state) by (vm_compute; reflexivity).
  split; [exact alloc_min_block|].
  split; [vm_compute; reflexivity|].
  split; [exact Hfa|].
  split; [by rewrite (free_at_ext _ _ _ Hfa)|].
  split; [|by apply buddy_dump_ext].
  intros o Ho. rewrite (free_at_ext _ _ _ Hfa). by apply init_lower_lists_empty.
Qed.

(** ** Requests below the page size *)

Lemma block_order_nonneg s : 0 ≤ block_order s.
Proof. apply Z.log2_up_nonneg. Qed.

(** [block_order s] is the least [r >= 0] with [s <= 2^r]. *)
Lemma block_order_least s :
  1 ≤ s → s ≤ 2 ^ block_order s ∧ ∀ r, 0 ≤ r < block_order s → 2 ^ r < s.
Proof.
  intros Hs. unfold block_order. split.
  - destruct (Z.eq_dec s 1) as [->|Hne]; [done|].
    apply Z.log2_up_spec. lia.
  - intros r Hr. destruct (Z.le_gt_cases s (2 ^ r)) as [Hle|Hgt]; [|lia].
    apply Z.log2_up_le_pow2 in Hle; lia.
Qed.

Lemma init_low_heads_zeroed o : 0 ≤ o < MIN_ORDER → head_at init_state o = Some Zeroed.
Proof.
  intros Ho. apply (forall_seqZ (λ o, head_at init_state o = Some Zeroed) 0 12);
    [|unfold MIN_ORDER in Ho; lia].
  apply (bool_decide_unpack _). vm_compute. exact I.
Qed.

Lemma alloc_scan_zeroed cap fuel st border i :
  i ≤ MAX_ORDER → head_at st i = Some Zeroed → alloc_scan cap (S fuel) st border i = Fault.
Proof.
  intros Hi Hh. simpl. rewrite Hh. simpl.
  destruct (i <=? MAX_ORDER) eqn:E; [done | lia].
Qed.

(** C1 (the code at the failing input): for a request of one byte the
    computed order is 0, not [MIN_ORDER]; [buddy_alloc] starts its walk
    at [free_area[0]], a head that [buddy_init] never initialised, and
    faults instead of returning a page-aligned block.  The same happens
    for every request of at most half a page. *)
Theorem alloc_sub_page_no_clamp :
  block_order 1 = 0
  ∧ head_at init_state (block_order 1) = Some Zeroed
  ∧ buddy_alloc 1 init_state = Fault
  ∧ (∀ s, 1 ≤ s ≤ 2 ^ (MIN_ORDER - 1) →
       block_order s < MIN_ORDER ∧ buddy_alloc s init_state = Fault).
Proof.
  split; [reflexivity|]. split; [reflexivity|]. split; [reflexivity|].
  intros s Hs.
  assert (Hr : block_order s ≤ MIN_ORDER - 1).
  { unfold block_order. apply Z.log2_up_le_pow2; lia. }
  split; [lia|].
  unfold buddy_alloc, buddy_alloc_fuel.
  destruct (s <=? 0) eqn:E0; [lia|].
  destruct (block_order s >? MAX_ORDER) eqn:E1; [unfold MIN_ORDER, MAX_ORDER in *; lia|].
  apply alloc_scan_zeroed; [unfold MIN_ORDER, MAX_ORDER in *; lia|].
  apply init_low_heads_zeroed. pose proof (block_order_nonneg s). lia.
Qed.

(** ** When allocation fails *)

Lemma alloc_scan_null cap fuel st st' border i :
  alloc_scan cap fuel st border i = Done None st' →
  st' = st ∧ ∀ j, i ≤ j ≤ MAX_ORDER → option_map list_empty (head_at st j) = Some true.
Proof.
  revert i. induction fuel as [|fuel IH]; intros i; cbn [alloc_scan].
  - destruct (i <=? MAX_ORDER) eqn:E; [done|].
    intros [= <-]. split; [done|]. intros j Hj. lia.
  - destruct (i <=? MAX_ORDER) eqn:E.
    + destruct (head_at st i) as [h|] eqn:Hh; [|done].
      destruct (list_empty h) eqn:He; cbn [negb].
      * intros H. apply IH in H as [-> H]. split; [done|].
        intros j Hj. destruct (decide (j = i)) as [->|Hne].
        -- by rewrite Hh; simpl; rewrite He.
        -- apply H. lia.
      * destruct (list_first h) as [left_|]; [|done].
        destruct (page_at st left_); [|done].
        destruct (split _ _ _ _ _); [|done..].
        destruct (page_at _ left_); done.
    + intros [= <-]. split; [done|]. intros j Hj. lia.
Qed.

Lemma alloc_scan_all_empty cap fuel st border i :
  0 ≤ i → (Z.to_nat (MAX_ORDER + 1 - i) ≤ fuel)%nat →
  (∀ j, i ≤ j ≤ MAX_ORDER → option_map list_empty (head_at st j) = Some true) →
  alloc_scan cap fuel st border i = Done None st.
Proof.
  revert i. induction fuel as [|fuel IH]; intros i Hi Hf Hall; simpl.
  - destruct (i <=? MAX_ORDER) eqn:E; [lia|done].
  - destruct (i <=? MAX_ORDER) eqn:E; [|done].
    specialize (Hall i ltac:(lia)) as Hi'.
    destruct (head_at st i) as [h|]; [|done]. simpl in Hi'. injection Hi' as ->. simpl.
    apply IH; [lia | lia |]. intros j Hj. apply Hall. lia.
Qed.

(** ** Arithmetic of addresses *)

Lemma pow2_pos o : 0 ≤ o → 0 < 2 ^ o.
Proof. intros. by apply Z.pow_pos_nonneg. Qed.

Lemma pow2_double j : 1 ≤ j → 2 ^ j = 2 * 2 ^ (j - 1).
Proof. intros Hj. rewrite <- Z.pow_succ_r by lia. f_equal. lia. Qed.

Lemma PAGE_SIZE_eq : PAGE_SIZE = 2 ^ MIN_ORDER.
Proof. reflexivity. Qed.

Lemma ADDR_TO_PAGE_TO_ADDR k : ADDR_TO_PAGE (PAGE_TO_ADDR k) = k.
Proof. unfold ADDR_TO_PAGE, PAGE_TO_ADDR. by rewrite Z.div_mul. Qed.

Lemma PAGE_TO_ADDR_TO_PAGE x : (PAGE_SIZE | x) → PAGE_TO_ADDR (ADDR_TO_PAGE x) = x.
Proof.
  intros [c ->]. unfold ADDR_TO_PAGE, PAGE_TO_ADDR. by rewrite Z.div_mul.
Qed.

Global Instance PAGE_TO_ADDR_inj : Inj (=) (=) PAGE_TO_ADDR.
Proof. intros k1 k2 H. unfold PAGE_TO_ADDR in H. change PAGE_SIZE with 4096 in H. lia. Qed.

Lemma divide_pow2_le a o o' : 0 ≤ o' ≤ o → (2 ^ o | a) → (2 ^ o' | a).
Proof.
  intros Ho [c ->]. exists (c * 2 ^ (o - o')).
  rewrite <- Z.mul_assoc, <- Z.pow_add_r by lia. do 2 f_equal. lia.
Qed.

Lemma divide_page a o : MIN_ORDER ≤ o → (2 ^ o | a) → (PAGE_SIZE | a).
Proof. intros Ho. rewrite PAGE_SIZE_eq. apply divide_pow2_le. unfold MIN_ORDER in *. lia. Qed.

Lemma BUDDY_ADDR_pow a o : BUDDY_ADDR a o = Z.lxor a (2 ^ o).
Proof. unfold BUDDY_ADDR. by rewrite Z.shiftl_1_l. Qed.

Lemma BUDDY_ADDR_involutive a o : BUDDY_ADDR (BUDDY_ADDR a o) o = a.
Proof.
  unfold BUDDY_ADDR. by rewrite Z.lxor_assoc, Z.lxor_nilpotent, Z.lxor_0_r.
Qed.

(** Flipping a bit that is clear adds the bit. *)
Lemma BUDDY_ADDR_low a o : 0 ≤ o → (2 ^ (o + 1) | a) → BUDDY_ADDR a o = a + 2 ^ o.
Proof.
  intros Ho [c ->]. rewrite BUDDY_ADDR_pow. symmetry. apply Z.add_nocarry_lxor.
  apply Z.bits_inj'. intros n Hn.
  rewrite Z.land_spec, Z.bits_0, Z.pow2_bits_eqb by lia.
  destruct (o =? n) eqn:E; [|by rewrite andb_false_r].
  apply Z.eqb_eq in E as <-. rewrite Z.mul_pow2_bits_low by lia. done.
Qed.

(** The buddy of a block aligned to its size sits right above it when
    the block is the lower half of its parent, right below otherwise;
    the lower of the two is aligned to the size of the parent. *)
Lemma BUDDY_ADDR_cases a o :
  0 ≤ o → (2 ^ o | a) →
  ((2 ^ (o + 1) | a) ∧ BUDDY_ADDR a o = a + 2 ^ o)
  ∨ ((2 ^ (o + 1) | a - 2 ^ o) ∧ BUDDY_ADDR a o = a - 2 ^ o).
Proof.
  intros Ho [c ->].
  assert (H2 : 2 ^ (o + 1) = 2 * 2 ^ o) by (rewrite Z.pow_add_r by lia; simpl; lia).
  destruct (Z.Even_or_Odd c) as [[d ->]|[d ->]].
  - left. assert (Hd : (2 ^ (o + 1) | 2 * d * 2 ^ o)) by (exists d; lia).
    split; [done|]. by apply BUDDY_ADDR_low.
  - right. assert (Hd : (2 ^ (o + 1) | (2 * d + 1) * 2 ^ o - 2 ^ o)) by (exists d; lia).
    split; [done|]. set (a' := (2 * d + 1) * 2 ^ o - 2 ^ o) in *.
    assert (E : (2 * d + 1) * 2 ^ o = BUDDY_ADDR a' o)
      by (rewrite BUDDY_ADDR_low by done; unfold a'; lia).
    rewrite E. apply BUDDY_ADDR_involutive.
Qed.

(** ** Reading the arrays after an update *)

Lemma head_at_Some st i h : head_at st i = Some h → 0 ≤ i ∧ (Z.to_nat i < length (free_area st))%nat.
Proof.
  unfold head_at. destruct (i <? 0) eqn:E; [done|]. intros H%lookup_lt_Some. lia.
Qed.

Lemma page_at_Some st k p : page_at st k = Some p → 0 ≤ k ∧ (Z.to_nat k < length (g_pages st))%nat.
Proof.
  unfold page_at. destruct (k <? 0) eqn:E; [done|]. intros H%lookup_lt_Some. lia.
Qed.

Lemma page_at_is_Some st k :
  0 ≤ k → (Z.to_nat k < length (g_pages st))%nat → is_Some (page_at st k).
Proof.
  intros Hk Hl. unfold page_at. destruct (k <? 0) eqn:E; [lia|]. by apply lookup_lt_is_Some.
Qed.

Lemma head_at_set_head st i h j :
  0 ≤ i → (Z.to_nat i < length (free_area st))%nat →
  head_at (set_head st i h) j = if decide (j = i) then Some h else head_at st j.
Proof.
  intros Hi Hl. unfold head_at, set_head; simpl.
  destruct (decide (j = i)) as [->|Hne].
  - destruct (i <? 0) eqn:E; [lia|]. by apply list_lookup_insert_eq.
  - destruct (j <? 0) eqn:E; [done|]. apply list_lookup_insert_ne. lia.
Qed.

Lemma head_at_list_del st k i : head_at (list_del k st) i = unlink k <$> head_at st i.
Proof.
  unfold head_at, list_del; simpl. destruct (i <? 0); [done|]. apply list_lookup_fmap.
Qed.

Lemma page_at_set_blockOrder st k o k' :
  0 ≤ k →
  page_at (set_blockOrder st k o) k'
  = if decide (k' = k) then (λ p, mk_page o (blockAddress p)) <$> page_at st k
    else page_at st k'.
Proof.
  intros Hk. unfold page_at, set_blockOrder; simpl.
  destruct (decide (k' = k)) as [->|Hne].
  - destruct (k <? 0) eqn:E; [lia|]. apply list_lookup_alter_eq.
  - destruct (k' <? 0) eqn:E; [done|]. apply list_lookup_alter_ne. lia.
Qed.

Lemma list_add_Some k i st st' :
  list_add k i st = Some st' →
  ∃ l, head_at st i = Some (Linked l) ∧ st' = set_head st i (Linked (k :: l)).
Proof.
  unfold list_add. destruct (head_at st i) as [[|l]|]; [done| |done].
  intros [= <-]. by exists l.
Qed.

Lemma free_at_list_add k i st st' o :
  list_add k i st = Some st' →
  free_at st' o = if decide (o = i) then k :: free_at st i else free_at st o.
Proof.
  intros (l & Hl & ->)%list_add_Some. unfold free_at.
  destruct (head_at_Some _ _ _ Hl) as [Hi Hlen].
  rewrite head_at_set_head by done. destruct (decide (o = i)) as [->|]; [|done].
  by rewrite Hl.
Qed.

Lemma free_at_list_del k st o :
  free_at (list_del k st) o = filter (λ x, x ≠ k) (free_at st o).
Proof.
  unfold free_at. rewrite head_at_list_del. by destruct (head_at st o) as [[|l]|].
Qed.

Lemma free_at_set_blockOrder st k o i : free_at (set_blockOrder st k o) i = free_at st i.
Proof. done. Qed.

Lemma free_at_elem st o k : k ∈ free_at st o → ∃ l, head_at st o = Some (Linked l) ∧ k ∈ l.
Proof.
  unfold free_at. destruct (head_at st o) as [[|l]|]; [by intros ?%elem_of_nil| |by intros ?%elem_of_nil].
  intros H. by exists l.
Qed.

(** ** The list of free blocks after an update *)

Lemma filter_fmap {A B} (f : A → B) (P : B → Prop) `{∀ y, Decision (P y)} (l : list A) :
  filter P (f <$> l) = f <$> filter (λ x, P (f x)) l.
Proof.
  induction l as [|x l IH]; [done|]. csimpl. rewrite !filter_cons.
  destruct (decide (P (f x))); csimpl; by rewrite IH.
Qed.

Lemma filter_bind {A B} (f : A → list B) (P : B → Prop) `{∀ y, Decision (P y)} (l : list A) :
  filter P (l ≫= f) = l ≫= (λ x, filter P (f x)).
Proof.
  induction l as [|x l IH]; [done|]. csimpl. by rewrite filter_app, IH.
Qed.

Lemma bind_ext_in {A B} (f g : A → list B) (l : list A) :
  (∀ x, x ∈ l → f x = g x) → l ≫= f = l ≫= g.
Proof.
  induction l as [|x l IH]; intros H; [done|]. csimpl.
  rewrite (H x) by left. rewrite IH; [done|]. intros y Hy. apply H. by right.
Qed.

Lemma bind_update_one {A B} (f g : A → list B) (l : list A) (i : A) (e : B) :
  NoDup l → i ∈ l → g i = e :: f i → (∀ o, o ≠ i → g o = f o) →
  l ≫= g ≡ₚ e :: (l ≫= f).
Proof.
  intros Hnd Hi Hgi Hne. induction Hnd as [|x l Hx Hnd IH]; [by apply elem_of_nil in Hi|].
  csimpl. apply elem_of_cons in Hi as [<-|Hi].
  - rewrite Hgi. simpl. rewrite (bind_ext_in g f l); [done|].
    intros o Ho. apply Hne. by intros ->.
  - rewrite (Hne x) by (intros ->; done). rewrite (IH Hi).
    by rewrite Permutation_middle.
Qed.

Lemma free_blocks_ext st st' : free_area st = free_area st' → free_blocks st = free_blocks st'.
Proof.
  intros H. unfold free_blocks. apply list_bind_ext; [|done].
  intros o. unfold blocks_at. by rewrite (free_at_ext st st' o H).
Qed.

Lemma free_blocks_list_add k i st st' :
  list_add k i st = Some st' → i ≤ MAX_ORDER →
  free_blocks st' ≡ₚ (PAGE_TO_ADDR k, i) :: free_blocks st.
Proof.
  intros Hadd Hi. unfold free_blocks.
  destruct (list_add_Some _ _ _ _ Hadd) as (l & Hl & _).
  destruct (head_at_Some _ _ _ Hl) as [Hi0 _].
  apply (bind_update_one _ _ _ i).
  - apply NoDup_seqZ.
  - apply elem_of_seqZ. lia.
  - unfold blocks_at. rewrite (free_at_list_add _ _ _ _ i Hadd).
    by rewrite decide_True.
  - intros o Ho. unfold blocks_at. rewrite (free_at_list_add _ _ _ _ o Hadd).
    by rewrite decide_False.
Qed.

Lemma free_blocks_list_del k st :
  free_blocks (list_del k st) = filter (λ b, b.1 ≠ PAGE_TO_ADDR k) (free_blocks st).
Proof.
  unfold free_blocks. rewrite filter_bind. apply list_bind_ext; [|done].
  intros o. unfold blocks_at. rewrite free_at_list_del, filter_fmap. simpl.
  f_equal. apply list_filter_iff. intros x. split.
  - intros Hx Heq. by apply (inj PAGE_TO_ADDR) in Heq.
  - intros Hx ->. done.
Qed.

Lemma elem_of_free_blocks st a o :
  (a, o) ∈ free_blocks st ↔ 0 ≤ o ≤ MAX_ORDER ∧ ∃ k, a = PAGE_TO_ADDR k ∧ k ∈ free_at st o.
Proof.
  unfold free_blocks, blocks_at. rewrite list_elem_of_bind. split.
  - intros (o' & H & Ho'). apply list_elem_of_fmap in H as (k & [= -> ->] & Hk).
    apply elem_of_seqZ in Ho'. split; [lia|]. by exists k.
  - intros (Ho & k & -> & Hk). exists o. split.
    + apply list_elem_of_fmap. by exists k.
    + apply elem_of_seqZ. lia.
Qed.

(** ** Counting the blocks over a byte *)

Global Instance count_Permutation x : Proper ((≡ₚ) ==> (=)) (count x).
Proof. intros l1 l2 H. unfold count. by rewrite H. Qed.

Global Instance tiles_Permutation : Proper ((≡ₚ) ==> iff) tiles.
Proof.
  intros l1 l2 H. unfold tiles. rewrite H.
  split; intros [HF Hc]; (split; [done|]); intros x Hx;
    [rewrite <- H | rewrite H]; by apply Hc.
Qed.

Lemma count_cons x b l :
  count x (b :: l) = ((if decide (covers x b) then 1 else 0) + count x l)%nat.
Proof. unfold count. rewrite filter_cons. by destruct (decide (covers x b)). Qed.

Lemma count_app x l1 l2 : count x (l1 ++ l2) = (count x l1 + count x l2)%nat.
Proof. unfold count. by rewrite filter_app, length_app. Qed.

(** A block of order [j] is the union of its two halves of order [j-1]. *)
Lemma count_split x a j l :
  1 ≤ j → count x ((a, j) :: l) = count x ((a, j - 1) :: (a + 2 ^ (j - 1), j - 1) :: l).
Proof.
  intros Hj. rewrite !count_cons. pose proof (pow2_double j Hj) as Hd.
  pose proof (pow2_pos (j - 1) ltac:(lia)) as Hp.
  unfold covers; simpl. repeat case_decide; lia.
Qed.

Lemma good_block_pos b : good_block b → 0 < 2 ^ b.2.
Proof. intros (Ho & _). apply pow2_pos. unfold MIN_ORDER in Ho. lia. Qed.

Lemma good_block_covers_base b : good_block b → covers b.1 b ∧ 0 ≤ b.1 < 2 ^ MAX_ORDER.
Proof.
  intros Hg. pose proof (good_block_pos b Hg). destruct Hg as (_ & H0 & Hle & _).
  unfold covers. lia.
Qed.

Lemma good_block_split a j :
  good_block (a, j) → MIN_ORDER < j →
  good_block (a, j - 1) ∧ good_block (a + 2 ^ (j - 1), j - 1).
Proof.
  intros (Ho & H0 & Hle & Hdiv) Hj; simpl in *.
  assert (Hj1 : 1 ≤ j) by (unfold MIN_ORDER in Hj; lia).
  pose proof (pow2_double j Hj1) as Hd.
  pose proof (pow2_pos (j - 1) ltac:(lia)) as Hp.
  assert (Hdiv' : (2 ^ (j - 1) | a)) by (apply (divide_pow2_le a j); [lia|done]).
  unfold good_block; simpl. split_and!; try lia; [done|].
  apply Z.divide_add_r; [done|]. apply Z.divide_refl.
Qed.

Lemma tiles_split a j bs :
  tiles ((a, j) :: bs) → MIN_ORDER < j →
  tiles ((a, j - 1) :: (a + 2 ^ (j - 1), j - 1) :: bs).
Proof.
  intros [HF Hc] Hj. apply Forall_cons in HF as [Hg HF].
  destruct (good_block_split a j Hg Hj) as [Hg1 Hg2].
  split; [by apply Forall_cons_2; [|apply Forall_cons_2]|].
  intros x Hx. rewrite <- count_split; [by apply Hc|]. unfold MIN_ORDER in Hj. lia.
Qed.

Lemma tiles_merge a b i bs :
  tiles ((a, i) :: (b, i) :: bs) → b = BUDDY_ADDR a i → i < MAX_ORDER →
  tiles ((Z.min a b, i + 1) :: bs).
Proof.
  intros [HF Hc] Hb Hi.
  apply Forall_cons in HF as [Hga HF]. apply Forall_cons in HF as [Hgb HF].
  pose proof (good_block_pos _ Hga) as Hp; simpl in Hp.
  destruct Hga as (Hoa & H0a & Hlea & Hdiva); destruct Hgb as (Hob & H0b & Hleb & Hdivb);
    simpl in *.
  assert (Hi0 : 0 ≤ i) by (unfold MIN_ORDER in Hoa; lia).
  assert (Hd : 2 ^ (i + 1) = 2 * 2 ^ i) by (rewrite (pow2_double (i + 1)) by lia; do 2 f_equal; lia).
  destruct (BUDDY_ADDR_cases a i Hi0 Hdiva) as [[Hdiv Hba]|[Hdiv Hba]]; rewrite Hba in Hb.
  - rewrite Z.min_l by lia. split.
    + apply Forall_cons_2; [|done]. unfold good_block; simpl. split_and!; try lia; done.
    + intros x Hx. rewrite (count_split x a (i + 1)) by lia.
      replace (i + 1 - 1) with i by lia. rewrite <- Hb. by apply Hc.
  - rewrite Z.min_r by lia. split.
    + apply Forall_cons_2; [|done]. unfold good_block; simpl. rewrite Hb.
      split_and!; try lia; done.
    + intros x Hx. rewrite (count_split x b (i + 1)) by lia.
      replace (i + 1 - 1) with i by lia. replace (b + 2 ^ i) with a by lia.
      rewrite <- (Hc x Hx). apply count_Permutation. apply Permutation_swap.
Qed.

Lemma length_filter_mono {A} (P Q : A → Prop) `{∀ x, Decision (P x)} `{∀ x, Decision (Q x)}
      (l : list A) :
  (∀ x, x ∈ l → P x → Q x) → (length (filter P l) ≤ length (filter Q l))%nat.
Proof.
  induction l as [|x l IH]; intros HPQ; [done|].
  rewrite !filter_cons.
  assert (IH' : (length (filter P l) ≤ length (filter Q l))%nat)
    by (apply IH; intros y Hy; apply HPQ; by right).
  destruct (decide (P x)) as [HP|HP].
  - rewrite decide_True by (apply HPQ; [left|done]). simpl. lia.
  - destruct (decide (Q x)); simpl; lia.
Qed.

Lemma filter_unique {A} (P : A → Prop) `{∀ x, Decision (P x)} (l : list A) (e : A) :
  e ∈ l → P e → (length (filter P l) ≤ 1)%nat → filter P l = [e].
Proof.
  intros He HP Hlen.
  assert (Hin : e ∈ filter P l) by (by apply list_elem_of_filter).
  destruct (filter P l) as [|y [|z t]]; simpl in Hlen.
  - by apply elem_of_nil in Hin.
  - apply list_elem_of_singleton in Hin. by subst.
  - lia.
Qed.

(** In a tiling no two blocks share their base: the blocks with a
    given base are a single one. *)
Lemma tiles_base_unique bs b :
  tiles bs → b ∈ bs → filter (λ c, c.1 = b.1) bs = [b].
Proof.
  intros [HF Hc] Hb.
  assert (Hg : good_block b) by (rewrite Forall_forall in HF; by apply HF).
  destruct (good_block_covers_base b Hg) as [Hcov Hreg].
  apply filter_unique; [done|done|].
  specialize (Hc b.1 Hreg). unfold count in Hc. rewrite <- Hc.
  apply length_filter_mono. intros c Hcin Heq.
  assert (Hgc : good_block c) by (rewrite Forall_forall in HF; by apply HF).
  destruct (good_block_covers_base c Hgc) as [Hcc _]. by rewrite <- Heq.
Qed.

Lemma tiles_take_out l1 l2 b :
  tiles (l1 ++ l2) → b ∈ l1 → l1 ≡ₚ b :: filter (λ c, c.1 ≠ b.1) l1.
Proof.
  intros Ht Hb.
  assert (Hb' : b ∈ l1 ++ l2) by (apply elem_of_app; by left).
  pose proof (tiles_base_unique _ b Ht Hb') as Hu.
  assert (Hg : good_block b) by (destruct Ht as [HF _]; rewrite Forall_forall in HF; by apply HF).
  transitivity (filter (λ c, c.1 = b.1) l1 ++ filter (λ c, c.1 ≠ b.1) l1).
  - symmetry. apply (filter_app_complement (λ c : block, c.1 = b.1)).
  - rewrite (filter_unique (λ c : block, c.1 = b.1) l1 b); [done|done|done|].
    rewrite filter_app in Hu. apply (f_equal length) in Hu.
    rewrite length_app in Hu. simpl in Hu. lia.
Qed.

Lemma count_elem_pos x b bs : b ∈ bs → covers x b → (1 ≤ count x bs)%nat.
Proof.
  intros Hb Hc. unfold count.
  assert (Hin : b ∈ filter (covers x) bs) by (by apply list_elem_of_filter).
  destruct (filter (covers x) bs); [by apply elem_of_nil in Hin|simpl; lia].
Qed.

(** In a tiling the base of a block lies in no other block. *)
Lemma tiles_apart b1 b2 bs : tiles (b1 :: bs) → b2 ∈ bs → ¬ covers b2.1 b1.
Proof.
  intros [HF Hc] Hb2 Hcov. apply Forall_cons in HF as [_ HF].
  assert (Hg : good_block b2) by (rewrite Forall_forall in HF; by apply HF).
  destruct (good_block_covers_base b2 Hg) as [Hown Hreg].
  specialize (Hc b2.1 Hreg). rewrite count_cons, decide_True in Hc by done.
  pose proof (count_elem_pos b2.1 b2 bs Hb2 Hown). lia.
Qed.

(** ** The invariant under the elementary updates *)

Lemma shape_set_blockOrder st k o : shape st → 0 ≤ k → shape (set_blockOrder st k o).
Proof.
  intros [H1 H2 H3 H4 H5] Hk. split; try done.
  - unfold set_blockOrder; simpl. by rewrite length_alter.
  - intros k' p. rewrite page_at_set_blockOrder by done.
    destruct (decide (k' = k)) as [->|]; [|by apply H5].
    destruct (page_at st k) as [p0|] eqn:E; [|done]. intros [= <-]. simpl. by apply H5.
Qed.

Lemma shape_list_del st k : shape st → shape (list_del k st).
Proof.
  intros [H1 H2 H3 H4 H5]. split; try done.
  - unfold list_del; simpl. by rewrite length_fmap.
  - intros i Hi. by rewrite head_at_list_del, H2.
  - intros i Hi. rewrite head_at_list_del. destruct (H3 i Hi) as [l ->]. by eexists.
Qed.

Lemma shape_list_add st st' k i : shape st → list_add k i st = Some st' → shape st'.
Proof.
  intros [H1 H2 H3 H4 H5] (l & Hl & ->)%list_add_Some.
  destruct (head_at_Some _ _ _ Hl) as [Hi Hlen].
  split; try done.
  - unfold set_head; simpl. by rewrite length_insert.
  - intros j Hj. rewrite head_at_set_head by done.
    destruct (decide (j = i)) as [->|]; [|by apply H2]. rewrite H2 in Hl; done.
  - intros j Hj. rewrite head_at_set_head by done.
    destruct (decide (j = i)) as [->|]; [by eexists|by apply H3].
Qed.

Lemma shape_page_range st k p : shape st → page_at st k = Some p → 0 ≤ k < n_pages.
Proof.
  intros Hs Hp. destruct (page_at_Some _ _ _ Hp) as [H0 Hl].
  rewrite (shape_pages st Hs) in Hl. unfold n_pages in *. lia.
Qed.

Lemma shape_page_at st k : shape st → 0 ≤ k < n_pages → is_Some (page_at st k).
Proof.
  intros Hs Hk. apply page_at_is_Some; [lia|]. rewrite (shape_pages st Hs). lia.
Qed.

Lemma shape_head_range st i l : shape st → head_at st i = Some (Linked l) → MIN_ORDER ≤ i ≤ MAX_ORDER.
Proof.
  intros Hs Hh. destruct (head_at_Some _ _ _ Hh) as [H0 Hl].
  rewrite (shape_heads st Hs) in Hl.
  destruct (Z.lt_ge_cases i MIN_ORDER) as [Hlt|Hge].
  - rewrite (shape_zeroed st Hs i) in Hh by lia. done.
  - unfold MAX_ORDER in *. lia.
Qed.

Lemma partition_set_blockOrder st held k o :
  partition st held → 0 ≤ k → partition (set_blockOrder st k o) held.
Proof.
  intros [Hs Ht] Hk. split; [by apply shape_set_blockOrder|].
  by rewrite (free_blocks_ext (set_blockOrder st k o) st).
Qed.

Lemma partition_list_del st held k i :
  partition st held → k ∈ free_at st i →
  partition (list_del k st) ((PAGE_TO_ADDR k, i) :: held).
Proof.
  intros [Hs Ht] Hk. split; [by apply shape_list_del|].
  destruct (free_at_elem _ _ _ Hk) as (l & Hl & _).
  pose proof (shape_head_range _ _ _ Hs Hl) as Hi.
  assert (Hb : (PAGE_TO_ADDR k, i) ∈ free_blocks st).
  { apply elem_of_free_blocks. split; [unfold MIN_ORDER in Hi; lia|]. by exists k. }
  rewrite free_blocks_list_del. rewrite <- Permutation_middle.
  rewrite app_comm_cons.
  by rewrite <- (tiles_take_out (free_blocks st) held (PAGE_TO_ADDR k, i) Ht Hb).
Qed.

Lemma partition_list_add st st' held k i :
  partition st ((PAGE_TO_ADDR k, i) :: held) → list_add k i st = Some st' →
  partition st' held.
Proof.
  intros [Hs Ht] Hadd. split; [by eapply shape_list_add|].
  destruct (list_add_Some _ _ _ _ Hadd) as (l & Hl & _).
  pose proof (shape_head_range _ _ _ Hs Hl) as Hi.
  rewrite (free_blocks_list_add k i st st' Hadd) by lia.
  by rewrite <- Permutation_middle in Ht.
Qed.

Lemma page_at_list_add st st' k i k' :
  list_add k i st = Some st' → page_at st' k' = page_at st k'.
Proof. by intros (l & _ & ->)%list_add_Some. Qed.

Lemma partition_good st held b : partition st held → b ∈ held → good_block b.
Proof.
  intros [_ [HF _]] Hb. rewrite Forall_forall in HF. apply HF, elem_of_app. by right.
Qed.

Lemma partition_Permutation st held held' :
  held ≡ₚ held' → partition st held → partition st held'.
Proof. intros H [Hs Ht]. split; [done|]. by rewrite <- H. Qed.

Lemma partition_hold_split st a j held :
  partition st ((a, j) :: held) → MIN_ORDER < j →
  partition st ((a + 2 ^ (j - 1), j - 1) :: (a, j - 1) :: held).
Proof.
  intros [Hs Ht] Hj. split; [done|].
  rewrite <- Permutation_middle in Ht. apply tiles_split in Ht; [|done].
  rewrite <- !Permutation_middle. by rewrite Permutation_swap.
Qed.

Lemma partition_hold_merge st a b i held :
  partition st ((b, i) :: (a, i) :: held) → b = BUDDY_ADDR a i → i < MAX_ORDER →
  partition st ((Z.min a b, i + 1) :: held).
Proof.
  intros [Hs Ht] Hb Hi. split; [done|].
  rewrite <- !Permutation_middle in Ht. rewrite Permutation_swap in Ht.
  apply tiles_merge in Ht; [|done..]. by rewrite <- Permutation_middle.
Qed.

(** ** The split loop *)

(** One iteration: the upper half of the block in hand, at
    [base + 2^(j-1)], gets order [j-1] and goes on that free list; the
    lower half stays in hand. *)
Lemma split_step st left_ j border held :
  partition st ((PAGE_TO_ADDR left_, j) :: held) →
  MIN_ORDER ≤ border < j →
  ∃ st2,
    list_add (ADDR_TO_PAGE (PAGE_TO_ADDR left_ + 2 ^ (j - 1))) (j - 1)
             (set_blockOrder st (ADDR_TO_PAGE (PAGE_TO_ADDR left_ + 2 ^ (j - 1))) (j - 1))
    = Some st2
    ∧ (∀ fuel, split (S fuel) st left_ j border = split fuel st2 left_ (j - 1) border)
    ∧ partition st2 ((PAGE_TO_ADDR left_, j - 1) :: held)
    ∧ (∀ k, ¬ (PAGE_TO_ADDR left_ < PAGE_TO_ADDR k < PAGE_TO_ADDR left_ + 2 ^ j) →
            page_at st2 k = page_at st k).
Proof.
  intros Hp Hb. pose proof (part_shape _ _ Hp) as Hs.
  set (a := PAGE_TO_ADDR left_) in *.
  assert (Hg : good_block (a, j)) by (apply (partition_good _ _ _ Hp); by left).
  assert (Hj : MIN_ORDER < j) by lia.
  destruct (good_block_split a j Hg Hj) as [Hg1 Hg2].
  assert (Hbud : BUDDY_ADDR a (j - 1) = a + 2 ^ (j - 1)).
  { apply BUDDY_ADDR_low; [unfold MIN_ORDER in *; lia|].
    replace (j - 1 + 1) with j by lia. apply Hg. }
  assert (Hright : PAGE_TO_ADDR (ADDR_TO_PAGE (a + 2 ^ (j - 1))) = a + 2 ^ (j - 1)).
  { apply PAGE_TO_ADDR_TO_PAGE. apply (divide_page _ (j - 1)); [lia|]. apply Hg2. }
  set (right_ := ADDR_TO_PAGE (a + 2 ^ (j - 1))) in *.
  pose proof (good_block_pos _ Hg1) as Hpos; simpl in Hpos.
  pose proof (pow2_double j ltac:(unfold MIN_ORDER in *; lia)) as Hd.
  assert (Hleft : is_Some (page_at st left_)).
  { apply (shape_page_at st left_ Hs). destruct Hg as (_ & H0 & Hle & _); simpl in *.
    unfold a, PAGE_TO_ADDR, n_pages, MAX_ORDER in *. change PAGE_SIZE with 4096 in *.
    change (Z.shiftl 1 20 / 4096) with 256. change (2 ^ 20) with 1048576 in Hle. lia. }
  assert (Hrp : is_Some (page_at st right_)).
  { apply (shape_page_at st right_ Hs). destruct Hg2 as (_ & H0 & Hle & _); simpl in *.
    rewrite <- Hright in H0, Hle.
    unfold PAGE_TO_ADDR, n_pages, MAX_ORDER in *. change PAGE_SIZE with 4096 in *.
    change (Z.shiftl 1 20 / 4096) with 256. change (2 ^ 20) with 1048576 in Hle. lia. }
  destruct Hleft as [lp Hlp]. destruct Hrp as [rp Hrp].
  destruct (page_at_Some _ _ _ Hrp) as [Hr0 _].
  assert (Hp1 : partition (set_blockOrder st right_ (j - 1))
                          ((PAGE_TO_ADDR right_, j - 1) :: (a, j - 1) :: held)).
  { apply partition_set_blockOrder; [|done]. rewrite Hright. by apply partition_hold_split. }
  destruct (shape_linked _ (part_shape _ _ Hp1) (j - 1) ltac:(apply Hg1)) as [l Hl].
  assert (Hadd : list_add right_ (j - 1) (set_blockOrder st right_ (j - 1))
                 = Some (set_head (set_blockOrder st right_ (j - 1)) (j - 1)
                                  (Linked (right_ :: l))))
    by (unfold list_add; by rewrite Hl).
  eexists. split; [exact Hadd|]. split_and!.
  - intros fuel. cbn [split]. destruct (j =? border) eqn:E; [apply Z.eqb_eq in E; lia|].
    rewrite Hlp, (shape_addr st Hs left_ lp Hlp). fold a. rewrite Hbud. fold right_.
    by rewrite Hrp, Hadd.
  - by apply (partition_list_add (set_blockOrder st right_ (j - 1)) _ _ right_ (j - 1)).
  - intros k Hk. rewrite (page_at_list_add _ _ _ _ _ Hadd), page_at_set_blockOrder by done.
    rewrite decide_False; [done|]. intros ->. lia.
Qed.

Lemma split_partition fuel st left_ j border held st' :
  partition st ((PAGE_TO_ADDR left_, j) :: held) →
  MIN_ORDER ≤ border ≤ j →
  split fuel st left_ j border = Done tt st' →
  partition st' ((PAGE_TO_ADDR left_, border) :: held)
  ∧ (∀ k, ¬ (PAGE_TO_ADDR left_ < PAGE_TO_ADDR k < PAGE_TO_ADDR left_ + 2 ^ j) →
          page_at st' k = page_at st k).
Proof.
  revert st j. induction fuel as [|fuel IH]; intros st j Hp Hb.
  - cbn [split]. destruct (j =? border) eqn:E; [|done]. apply Z.eqb_eq in E as ->.
    intros [= <-]. by split.
  - destruct (decide (j = border)) as [->|Hne].
    { cbn [split]. rewrite Z.eqb_refl. intros [= <-]. by split. }
    destruct (split_step st left_ j border held Hp ltac:(lia))
      as (st2 & _ & Hstep & Hp2 & Hpages2).
    rewrite Hstep. intros Hsplit.
    destruct (IH st2 (j - 1) Hp2 ltac:(lia) Hsplit) as [Hp' Hpages].
    split; [done|]. intros k Hk.
    assert (Hg : good_block (PAGE_TO_ADDR left_, j - 1))
      by (apply (partition_good _ _ _ Hp2); by left).
    pose proof (good_block_pos _ Hg) as Hpos; simpl in Hpos.
    pose proof (pow2_double j ltac:(unfold MIN_ORDER in *; lia)) as Hd.
    rewrite Hpages by lia. by apply Hpages2.
Qed.

Lemma split_Done fuel st left_ j border held :
  partition st ((PAGE_TO_ADDR left_, j) :: held) →
  MIN_ORDER ≤ border ≤ j → (Z.to_nat (j - border) ≤ fuel)%nat →
  ∃ st', split fuel st left_ j border = Done tt st'.
Proof.
  revert st j. induction fuel as [|fuel IH]; intros st j Hp Hb Hf.
  - assert (j = border) as -> by lia. exists st. cbn [split]. by rewrite Z.eqb_refl.
  - destruct (decide (j = border)) as [->|Hne].
    { exists st. cbn [split]. by rewrite Z.eqb_refl. }
    destruct (split_step st left_ j border held Hp ltac:(lia))
      as (st2 & _ & Hstep & Hp2 & _).
    rewrite Hstep. apply (IH st2 (j - 1) Hp2); lia.
Qed.

Lemma alloc_scan_Some cap fuel st border i a st' :
  alloc_scan cap fuel st border i = Done (Some a) st' →
  ∃ i' left_ l lp fuel',
    i ≤ i' ≤ MAX_ORDER
    ∧ (∀ j, i ≤ j < i' → head_at st j = Some (Linked []))
    ∧ head_at st i' = Some (Linked (left_ :: l))
    ∧ is_Some (page_at st left_)
    ∧ split fuel' (list_del left_ (set_blockOrder st left_ border)) left_ i' border
      = Done tt st'
    ∧ page_at st' left_ = Some lp
    ∧ a = blockAddress lp.
Proof.
  revert i. induction fuel as [|fuel IH]; intros i; cbn [alloc_scan].
  - by destruct (i <=? MAX_ORDER).
  - destruct (i <=? MAX_ORDER) eqn:E; [|done]. apply Z.leb_le in E.
    destruct (head_at st i) as [h|] eqn:Hh; [|done].
    destruct (list_empty h) eqn:He; cbn [negb].
    + intros H. apply IH in H as (i' & left_ & l & lp & fuel' & Hi' & Hempty & Hrest).
      exists i', left_, l, lp, fuel'. split; [lia|]. split; [|done].
      intros j Hj. destruct (decide (j = i)) as [->|]; [|apply Hempty; lia].
      rewrite Hh. by destruct h as [|[|]].
    + destruct h as [|[|left_ l]]; try done. cbn [list_first].
      destruct (page_at st left_) as [p|] eqn:Hp; [|done].
      destruct (split _ _ _ _ _) as [[] st3| |] eqn:Hsplit; [|done..].
      destruct (page_at st3 left_) as [lp|] eqn:Hlp; [|done].
      intros [= <- <-]. exists i, left_, l, lp, cap.
      split; [lia|]. split; [intros j Hj; lia|]. by rewrite Hp.
Qed.

(** ** Allocation keeps the invariant *)

Lemma recorded_page_at st st' live :
  (∀ a o, (a, o) ∈ live → page_at st' (ADDR_TO_PAGE a) = page_at st (ADDR_TO_PAGE a)) →
  recorded st live → recorded st' live.
Proof. intros Heq Hr a o Hin. rewrite (Heq a o Hin). by apply Hr. Qed.

Lemma buddy_alloc_fuel_Inv fuel s st live a st' :
  Inv st live → buddy_alloc_fuel fuel s st = Done (Some a) st' →
  Inv st' ((a, block_order s) :: live) ∧ MIN_ORDER ≤ block_order s.
Proof.
  intros [Hp Hr]. unfold buddy_alloc_fuel.
  destruct (s <=? 0); [done|].
  destruct (block_order s >? MAX_ORDER) eqn:Emax; [done|].
  set (border := block_order s). assert (Hb0 : 0 ≤ border) by apply block_order_nonneg.
  intros (i' & left_ & l & lp & fuel' & Hi' & Hempty & Hhead & [p0 Hp0] & Hsplit & Hlp & ->)
    %alloc_scan_Some.
  pose proof (part_shape _ _ Hp) as Hs.
  assert (Hbmin : MIN_ORDER ≤ border).
  { destruct (Z.lt_ge_cases border MIN_ORDER) as [Hlt|]; [|done]. exfalso.
    destruct (decide (border = i')) as [Heq|Hne].
    - rewrite <- Heq, (shape_zeroed st Hs) in Hhead by lia. done.
    - specialize (Hempty border ltac:(lia)).
      rewrite (shape_zeroed st Hs) in Hempty by lia. done. }
  split; [|done].
  destruct (page_at_Some _ _ _ Hp0) as [Hl0 _].
  assert (Hin : left_ ∈ free_at st i') by (unfold free_at; rewrite Hhead; left).
  assert (Hp2 : partition (list_del left_ (set_blockOrder st left_ border))
                          ((PAGE_TO_ADDR left_, i') :: live)).
  { apply partition_list_del; [by apply partition_set_blockOrder|done]. }
  assert (Hbi : MIN_ORDER ≤ border ≤ i') by lia.
  destruct (split_partition _ _ _ _ _ _ _ Hp2 Hbi Hsplit) as [Hp3 Hpages].
  pose proof (part_shape _ _ Hp3) as Hs3.
  rewrite (shape_addr st' Hs3 left_ lp Hlp).
  split; [done|].
  assert (Hleft : page_at st' left_ = Some (mk_page border (blockAddress p0))).
  { rewrite Hpages by lia. change (page_at (list_del ?k ?s) ?x) with (page_at s x).
    rewrite page_at_set_blockOrder, decide_True by done. by rewrite Hp0. }
  intros a o [[= -> ->]|Hin']%elem_of_cons.
  - rewrite ADDR_TO_PAGE_TO_ADDR. eexists. split; [exact Hleft|done].
  - destruct (Hr a o Hin') as (p & Hpa & Hpo). exists p. split; [|done].
    rewrite <- Hpa.
    assert (Hga : good_block (a, o)) by (by apply (partition_good st live)).
    assert (Hpg : PAGE_TO_ADDR (ADDR_TO_PAGE a) = a).
    { apply PAGE_TO_ADDR_TO_PAGE, (divide_page a o); apply Hga. }
    destruct Hp2 as [_ Ht2]. rewrite <- Permutation_middle in Ht2.
    assert (Hnc : ¬ covers a (PAGE_TO_ADDR left_, i')).
    { apply (tiles_apart _ (a, o) _ Ht2). apply elem_of_app. by right. }
    unfold covers in Hnc; simpl in Hnc.
    rewrite Hpages by (rewrite Hpg; lia).
    change (page_at (list_del ?k ?s) ?x) with (page_at s x).
    rewrite page_at_set_blockOrder by done.
    rewrite decide_False; [done|]. intros Heq. rewrite <- Heq, Hpg in Hnc.
    assert (Hgl : good_block (a, i')).
    { rewrite <- Hpg, Heq. destruct Ht2 as [HF _]. by apply Forall_cons in HF as [? _]. }
    pose proof (good_block_pos _ Hgl); simpl in *. lia.
Qed.

(** ** The merge loop *)

Lemma scan_spec l buddy isFree : scan l buddy isFree = isFree || bool_decide (buddy ∈ l).
Proof.
  revert isFree. induction l as [|pos l IH]; intros isFree; cbn [scan].
  - rewrite bool_decide_false by apply not_elem_of_nil. by rewrite orb_false_r.
  - rewrite IH. destruct (pos =? buddy) eqn:E.
    + apply Z.eqb_eq in E as ->. rewrite (bool_decide_true (buddy ∈ buddy :: l)) by left.
      by rewrite orb_true_r.
    + apply Z.eqb_neq in E. destruct isFree; [done|]. simpl.
      apply bool_decide_ext. rewrite elem_of_cons. split; [by right|].
      by intros [->|?].
Qed.

Lemma scan_true l buddy : scan l buddy false = true ↔ buddy ∈ l.
Proof. rewrite scan_spec. simpl. apply bool_decide_eq_true. Qed.

Lemma free_loop_false fuel st f i : free_loop fuel st f i false = Done (f, i) st.
Proof. destruct fuel; simpl; by rewrite andb_false_r. Qed.

(** The buddy of a page-aligned block is again the address of a page. *)
Lemma buddy_page a i :
  good_block (a, i) → PAGE_TO_ADDR (ADDR_TO_PAGE (BUDDY_ADDR a i)) = BUDDY_ADDR a i.
Proof.
  intros (Ho & H0 & Hle & Hdiv); simpl in *.
  apply PAGE_TO_ADDR_TO_PAGE.
  assert (Hi0 : 0 ≤ i) by (unfold MIN_ORDER in Ho; lia).
  assert (Ha : (PAGE_SIZE | a)) by (apply (divide_page a i); [lia|done]).
  assert (Hp : (PAGE_SIZE | 2 ^ i)) by (apply (divide_page _ i); [lia|apply Z.divide_refl]).
  destruct (BUDDY_ADDR_cases a i Hi0 Hdiv) as [[_ ->]|[_ ->]].
  - by apply Z.divide_add_r.
  - by apply Z.divide_sub_r.
Qed.

Lemma lower_page f b :
  PAGE_TO_ADDR (if f >? b then b else f) = Z.min (PAGE_TO_ADDR f) (PAGE_TO_ADDR b).
Proof.
  unfold PAGE_TO_ADDR. change PAGE_SIZE with 4096.
  destruct (f >? b) eqn:E; [rewrite Z.min_r | rewrite Z.min_l]; lia.
Qed.

Lemma good_block_page_range k o : good_block (PAGE_TO_ADDR k, o) → 0 ≤ k < n_pages.
Proof.
  intros Hg. pose proof (good_block_pos _ Hg) as Hpos.
  destruct Hg as (_ & H0 & Hle & _); simpl in *.
  unfold PAGE_TO_ADDR, n_pages, MAX_ORDER in *. change PAGE_SIZE with 4096 in *.
  change (Z.shiftl 1 20 / 4096) with 256. change (2 ^ 20) with 1048576 in Hle. lia.
Qed.

(** One iteration: the free list of order [i] is searched for the buddy
    of the block in hand; when it is there it is unlinked and the lower
    of the two descriptors heads the merged block of order [i+1]. *)
Lemma free_loop_step st f i held :
  partition st ((PAGE_TO_ADDR f, i) :: held) → i < MAX_ORDER →
  ∃ l, head_at st i = Some (Linked l)
    ∧ (∀ fuel,
         free_loop (S fuel) st f i true
         = if scan l (ADDR_TO_PAGE (BUDDY_ADDR (PAGE_TO_ADDR f) i)) false
           then free_loop fuel (list_del (ADDR_TO_PAGE (BUDDY_ADDR (PAGE_TO_ADDR f) i)) st)
                          (if f >? ADDR_TO_PAGE (BUDDY_ADDR (PAGE_TO_ADDR f) i)
                           then ADDR_TO_PAGE (BUDDY_ADDR (PAGE_TO_ADDR f) i) else f)
                          (i + 1) true
           else Done (f, i) st)
    ∧ (ADDR_TO_PAGE (BUDDY_ADDR (PAGE_TO_ADDR f) i) ∈ l →
       partition (list_del (ADDR_TO_PAGE (BUDDY_ADDR (PAGE_TO_ADDR f) i)) st)
                 ((PAGE_TO_ADDR (if f >? ADDR_TO_PAGE (BUDDY_ADDR (PAGE_TO_ADDR f) i)
                                 then ADDR_TO_PAGE (BUDDY_ADDR (PAGE_TO_ADDR f) i) else f),
                   i + 1) :: held)).
Proof.
  intros Hp Hi. pose proof (part_shape _ _ Hp) as Hs.
  assert (Hg : good_block (PAGE_TO_ADDR f, i)) by (apply (partition_good _ _ _ Hp); by left).
  destruct (shape_page_at st f Hs (good_block_page_range _ _ Hg)) as [fp Hfp].
  destruct (shape_linked st Hs i ltac:(apply Hg)) as [l Hl].
  set (buddy := ADDR_TO_PAGE (BUDDY_ADDR (PAGE_TO_ADDR f) i)) in *.
  exists l. split; [done|]. split.
  - intros fuel. cbn [free_loop].
    destruct (i <? MAX_ORDER) eqn:E; [|apply Z.ltb_ge in E; lia]. cbn [andb].
    rewrite Hfp, (shape_addr st Hs f fp Hfp), Hl. fold buddy.
    destruct (scan l buddy false); [done|]. by rewrite free_loop_false.
  - intros Hin.
    assert (Hbud : PAGE_TO_ADDR buddy = BUDDY_ADDR (PAGE_TO_ADDR f) i) by (by apply buddy_page).
    assert (Hin' : buddy ∈ free_at st i) by (unfold free_at; by rewrite Hl).
    pose proof (partition_list_del _ _ _ _ Hp Hin') as Hp1.
    apply partition_hold_merge in Hp1; [|done..].
    by rewrite lower_page.
Qed.

Lemma free_loop_partition fuel st f i isFree held f' i' st' :
  partition st ((PAGE_TO_ADDR f, i) :: held) →
  free_loop fuel st f i isFree = Done (f', i') st' →
  partition st' ((PAGE_TO_ADDR f', i') :: held) ∧ g_pages st' = g_pages st ∧ i ≤ i'.
Proof.
  revert st f i isFree. induction fuel as [|fuel IH]; intros st f i isFree Hp.
  - cbn [free_loop]. destruct ((i <? MAX_ORDER) && isFree); [done|].
    intros [= <- <- <-]. by split_and!.
  - destruct isFree; [|rewrite free_loop_false; intros [= <- <- <-]; by split_and!].
    destruct (Z.lt_ge_cases i MAX_ORDER) as [Hi|Hi].
    + destruct (free_loop_step st f i held Hp Hi) as (l & Hl & Hstep & Hmerge).
      rewrite Hstep. destruct (scan l _ false) eqn:Hscan.
      * apply scan_true in Hscan. intros Hloop.
        destruct (IH _ _ _ _ (Hmerge Hscan) Hloop) as (Hp' & Hpages & Hle).
        split_and!; [done|done|lia].
      * intros [= <- <- <-]. by split_and!.
    + cbn [free_loop]. destruct (i <? MAX_ORDER) eqn:E; [apply Z.ltb_lt in E; lia|].
      intros [= <- <- <-]. by split_and!.
Qed.

Lemma free_loop_Done fuel st f i held :
  partition st ((PAGE_TO_ADDR f, i) :: held) → (Z.to_nat (MAX_ORDER - i) ≤ fuel)%nat →
  ∃ f' i' st', free_loop fuel st f i true = Done (f', i') st'.
Proof.
  revert st f i. induction fuel as [|fuel IH]; intros st f i Hp Hf.
  - exists f, i, st. cbn [free_loop].
    destruct (i <? MAX_ORDER) eqn:E; [apply Z.ltb_lt in E; lia|done].
  - destruct (Z.lt_ge_cases i MAX_ORDER) as [Hi|Hi].
    + destruct (free_loop_step st f i held Hp Hi) as (l & Hl & Hstep & Hmerge).
      rewrite Hstep. destruct (scan l _ false) eqn:Hscan; [|by eexists _, _, _].
      apply scan_true in Hscan. apply (IH _ _ _ (Hmerge Hscan)). lia.
    + exists f, i, st. cbn [free_loop].
      destruct (i <? MAX_ORDER) eqn:E; [apply Z.ltb_lt in E; lia|done].
Qed.

(** ** Release keeps the invariant *)

Lemma page_at_ext st st' k : g_pages st = g_pages st' → page_at st k = page_at st' k.
Proof. unfold page_at. by intros ->. Qed.

Lemma buddy_free_fuel_Inv fuel a o st live live' st' :
  Inv st live → live ≡ₚ (a, o) :: live' →
  buddy_free_fuel fuel a st = Done tt st' → Inv st' live'.
Proof.
  intros [Hp Hr] Hlive. unfold buddy_free_fuel, insert_block.
  assert (Hin : (a, o) ∈ live) by (rewrite Hlive; left).
  destruct (Hr a o Hin) as (p & Hpa & Hpo). rewrite Hpa, Hpo.
  assert (Hga : good_block (a, o)) by (by apply (partition_good st live)).
  assert (Hpg : PAGE_TO_ADDR (ADDR_TO_PAGE a) = a).
  { apply PAGE_TO_ADDR_TO_PAGE, (divide_page a o); apply Hga. }
  pose proof Hp as Hp0.
  apply (partition_Permutation _ _ _ Hlive) in Hp. rewrite <- Hpg in Hp.
  destruct (free_loop fuel st (ADDR_TO_PAGE a) o true) as [[f' i'] st1| |] eqn:Hloop; [|done..].
  destruct (free_loop_partition _ _ _ _ _ _ _ _ _ Hp Hloop) as (Hp1 & Hpages & Hle).
  destruct (page_at st1 f') as [fp|] eqn:Hfp; [|done].
  destruct (page_at_Some _ _ _ Hfp) as [Hf0 _].
  destruct (list_add f' i' (set_blockOrder st1 f' i')) as [st2|] eqn:Hadd; [|done].
  intros [= <-]. split.
  - apply (partition_list_add (set_blockOrder st1 f' i') st2 _ f' i'); [|done].
    by apply partition_set_blockOrder.
  - intros a' o' Hin'.
    assert (Hin2 : (a', o') ∈ live) by (rewrite Hlive; by right).
    destruct (Hr a' o' Hin2) as (p' & Hpa' & Hpo'). exists p'. split; [|done].
    rewrite <- Hpa'. rewrite (page_at_list_add _ _ _ _ _ Hadd).
    rewrite page_at_set_blockOrder by done.
    assert (Hga' : good_block (a', o')) by (by apply (partition_good st live)).
    assert (Hpg' : PAGE_TO_ADDR (ADDR_TO_PAGE a') = a').
    { apply PAGE_TO_ADDR_TO_PAGE, (divide_page a' o'); apply Hga'. }
    rewrite decide_False; [by apply page_at_ext|].
    intros Heq. destruct Hp1 as [_ Ht1]. rewrite <- Permutation_middle in Ht1.
    assert (Hnc : ¬ covers a' (PAGE_TO_ADDR f', i')).
    { apply (tiles_apart _ (a', o') _ Ht1). apply elem_of_app. by right. }
    apply Hnc. rewrite <- Heq, Hpg'.
    assert (Hgf : good_block (a', i')).
    { rewrite <- Hpg', Heq. destruct Ht1 as [HF _]. by apply Forall_cons in HF as [? _]. }
    apply (good_block_covers_base _ Hgf).
Qed.

(** ** Consequences of the tiling *)

Lemma unique_bases_NoDup (l : list block) :
  (∀ b, b ∈ l → filter (λ c, c.1 = b.1) l = [b]) → NoDup (l.*1).
Proof.
  induction l as [|b l IH]; intros Hu; [constructor|].
  csimpl. apply NoDup_cons. split.
  - intros (c & Hc1 & Hc)%list_elem_of_fmap.
    pose proof (Hu b ltac:(left)) as Hb. rewrite filter_cons_True in Hb by done.
    assert (Hin : c ∈ filter (λ c0 : block, c0.1 = b.1) l) by (by apply list_elem_of_filter).
    injection Hb as Hb. rewrite Hb in Hin. by apply elem_of_nil in Hin.
  - apply IH. intros c Hc. pose proof (Hu c ltac:(by right)) as Hcu.
    rewrite filter_cons in Hcu. destruct (decide (b.1 = c.1)) as [Heq|Hne]; [|done].
    injection Hcu as _ Hcu.
    assert (Hin : c ∈ filter (λ c0 : block, c0.1 = c.1) l) by (by apply list_elem_of_filter).
    rewrite Hcu in Hin. by apply elem_of_nil in Hin.
Qed.

Lemma tiles_NoDup_bases bs : tiles bs → NoDup (bs.*1).
Proof. intros Ht. apply unique_bases_NoDup. intros b Hb. by apply tiles_base_unique. Qed.

Lemma free_at_free_blocks st k o :
  shape st → k ∈ free_at st o → (PAGE_TO_ADDR k, o) ∈ free_blocks st ∧ MIN_ORDER ≤ o ≤ MAX_ORDER.
Proof.
  intros Hs Hk. destruct (free_at_elem _ _ _ Hk) as (l & Hl & _).
  pose proof (shape_head_range _ _ _ Hs Hl) as Ho. split; [|done].
  apply elem_of_free_blocks. split; [unfold MIN_ORDER in Ho; lia|]. by exists k.
Qed.

(** A descriptor is on at most one free list. *)
Lemma partition_linked_once st held k o1 o2 :
  partition st held → k ∈ free_at st o1 → k ∈ free_at st o2 → o1 = o2.
Proof.
  intros [Hs Ht] H1 H2.
  destruct (free_at_free_blocks _ _ _ Hs H1) as [Hb1 _].
  destruct (free_at_free_blocks _ _ _ Hs H2) as [Hb2 _].
  pose proof (tiles_base_unique _ (PAGE_TO_ADDR k, o1) Ht ltac:(apply elem_of_app; by left)) as Hu.
  assert (Hin : (PAGE_TO_ADDR k, o2) ∈ filter (λ c : block, c.1 = (PAGE_TO_ADDR k, o1).1)
                                              (free_blocks st ++ held)).
  { apply list_elem_of_filter. split; [done|]. apply elem_of_app. by left. }
  rewrite Hu in Hin. apply list_elem_of_singleton in Hin. congruence.
Qed.

(** A descriptor is on a free list at most once. *)
Lemma partition_NoDup_free_at st held o : partition st held → NoDup (free_at st o).
Proof.
  intros [Hs Ht].
  destruct (free_at st o) as [|k0 l0] eqn:E; [constructor|]. rewrite <- E.
  assert (Hk0 : k0 ∈ free_at st o) by (rewrite E; left).
  destruct (free_at_free_blocks _ _ _ Hs Hk0) as [_ Ho].
  pose proof (tiles_NoDup_bases _ Ht) as Hnd. rewrite fmap_app in Hnd.
  apply NoDup_app in Hnd as (Hnd & _ & _). apply NoDup_fmap_1 in Hnd.
  assert (Hin : o ∈ orders) by (apply elem_of_seqZ; unfold MIN_ORDER in Ho; lia).
  apply list_elem_of_split in Hin as (l1 & l2 & Hsplit).
  unfold free_blocks in Hnd. rewrite Hsplit, bind_app, bind_cons in Hnd.
  apply NoDup_app in Hnd as (_ & _ & Hnd). apply NoDup_app in Hnd as (Hnd & _ & _).
  by apply NoDup_fmap_1 in Hnd.
Qed.

(** An allocated block is on no free list. *)
Lemma partition_held_unlinked st held a o o' :
  partition st held → (a, o) ∈ held → ADDR_TO_PAGE a ∉ free_at st o'.
Proof.
  intros Hp Hin Hk. pose proof (partition_good _ _ _ Hp Hin) as Hg.
  destruct Hp as [Hs Ht].
  destruct (free_at_free_blocks _ _ _ Hs Hk) as [Hb _].
  rewrite PAGE_TO_ADDR_TO_PAGE in Hb by (apply (divide_page a o); apply Hg).
  pose proof (tiles_NoDup_bases _ Ht) as Hnd. rewrite fmap_app in Hnd.
  apply NoDup_app in Hnd as (_ & Hdisj & _).
  apply (Hdisj a).
  - apply list_elem_of_fmap. by exists (a, o').
  - apply list_elem_of_fmap. by exists (a, o).
Qed.

(** A block held outside the free lists has a base of its own. *)
Lemma partition_fresh st a o held : partition st ((a, o) :: held) → a ∉ held.*1.
Proof.
  intros [_ Ht]. pose proof (tiles_NoDup_bases _ Ht) as Hnd.
  rewrite fmap_app in Hnd. apply NoDup_app in Hnd as (_ & _ & Hnd).
  csimpl in Hnd. by apply NoDup_cons in Hnd as [? _].
Qed.

(** ** The state after initialisation satisfies the invariant *)

Lemma shape_init : shape init_state.
Proof.
  split.
  - reflexivity.
  - apply init_low_heads_zeroed.
  - intros i Hi.
    apply (forall_seqZ (λ i, ∃ l, head_at init_state i = Some (Linked l)) 12 9);
      [vm_compute; repeat constructor; by eexists | unfold MIN_ORDER, MAX_ORDER in Hi; lia].
  - reflexivity.
  - intros k p Hp. destruct (page_at_Some _ _ _ Hp) as [Hk0 Hlen].
    change (length (g_pages init_state)) with 256%nat in Hlen.
    assert (H : blockAddress <$> page_at init_state k = Some (PAGE_TO_ADDR k)).
    { apply (forall_seqZ (λ k, blockAddress <$> page_at init_state k = Some (PAGE_TO_ADDR k))
                         0 256); [|lia].
      apply (bool_decide_unpack _). vm_compute. exact I. }
    rewrite Hp in H. by injection H.
Qed.

Lemma Inv_init : Inv init_state [].
Proof.
  split; [|intros a o Hin; by apply elem_of_nil in Hin].
  split; [apply shape_init|].
  change (free_blocks init_state ++ []) with [(0, MAX_ORDER)].
  split.
  - apply Forall_singleton. unfold good_block, MIN_ORDER, MAX_ORDER; simpl.
    split_and!; try lia. apply Z.divide_0_r.
  - intros x Hx. rewrite count_cons, decide_True; [done|].
    unfold covers; simpl. lia.
Qed.

(** ** Fuel: how many iterations the loops take *)

Lemma split_finished fuel st left_ j border :
  border ≤ j → (Z.to_nat (j - border) ≤ fuel)%nat → finished (split fuel st left_ j border).
Proof.
  revert st j. induction fuel as [|fuel IH]; intros st j Hj Hf; cbn [split].
  - destruct (j =? border) eqn:E; [done|]. apply Z.eqb_neq in E. lia.
  - destruct (j =? border) eqn:E; [done|]. apply Z.eqb_neq in E.
    destruct (page_at st left_); [|done].
    destruct (page_at st _); [|done].
    destruct (list_add _ _ _); [|done].
    apply IH; lia.
Qed.

Lemma split_fuel_mono fuel fuel' st left_ j border :
  (fuel ≤ fuel')%nat → finished (split fuel st left_ j border) →
  split fuel' st left_ j border = split fuel st left_ j border.
Proof.
  revert fuel' st j. induction fuel as [|fuel IH]; intros fuel' st j Hle; cbn [split].
  - destruct (j =? border) eqn:E; [|done]. intros _. destruct fuel'; cbn [split]; by rewrite E.
  - destruct fuel' as [|fuel']; [lia|]. cbn [split].
    destruct (j =? border); [done|].
    destruct (page_at st left_); [|done].
    destruct (page_at st _); [|done].
    destruct (list_add _ _ _); [|done].
    apply IH. lia.
Qed.

Lemma alloc_scan_finished cap fuel st border i :
  border ≤ i → (Z.to_nat (MAX_ORDER - border) ≤ cap)%nat →
  (Z.to_nat (MAX_ORDER + 1 - i) ≤ fuel)%nat →
  finished (alloc_scan cap fuel st border i).
Proof.
  revert i. induction fuel as [|fuel IH]; intros i Hi Hc Hf; cbn [alloc_scan].
  - destruct (i <=? MAX_ORDER) eqn:E; [|done]. apply Z.leb_le in E. lia.
  - destruct (i <=? MAX_ORDER) eqn:E; [|done]. apply Z.leb_le in E.
    destruct (head_at st i) as [h|]; [|done].
    destruct (negb (list_empty h)); [|apply IH; lia].
    destruct (list_first h) as [left_|]; [|done].
    destruct (page_at st left_); [|done].
    pose proof (split_finished cap (list_del left_ (set_blockOrder st left_ border))
                               left_ i border Hi ltac:(lia)) as Hs.
    destruct (split cap _ left_ i border) as [[] st3| |]; [|done..].
    by destruct (page_at st3 left_).
Qed.

Lemma alloc_scan_fuel_mono cap cap' fuel fuel' st border i :
  (cap ≤ cap')%nat → (fuel ≤ fuel')%nat → finished (alloc_scan cap fuel st border i) →
  alloc_scan cap' fuel' st border i = alloc_scan cap fuel st border i.
Proof.
  intros Hc. revert fuel' i. induction fuel as [|fuel IH]; intros fuel' i Hle; cbn [alloc_scan].
  - destruct (i <=? MAX_ORDER) eqn:E; [done|]. intros _.
    destruct fuel'; cbn [alloc_scan]; by rewrite E.
  - destruct fuel' as [|fuel']; [lia|]. cbn [alloc_scan].
    destruct (i <=? MAX_ORDER); [|done].
    destruct (head_at st i) as [h|]; [|done].
    destruct (negb (list_empty h)); [|apply IH; lia].
    destruct (list_first h) as [left_|]; [|done].
    destruct (page_at st left_); [|done].
    destruct (split cap _ left_ i border) as [[] st3| |] eqn:Hs; [| |done].
    + intros _. rewrite (split_fuel_mono cap cap') by (by rewrite ?Hs). by rewrite Hs.
    + intros _. rewrite (split_fuel_mono cap cap') by (by rewrite ?Hs). by rewrite Hs.
Qed.

Lemma free_loop_finished fuel st f i isFree :
  0 ≤ i → (Z.to_nat (MAX_ORDER - i) ≤ fuel)%nat → finished (free_loop fuel st f i isFree).
Proof.
  revert st f i isFree. induction fuel as [|fuel IH]; intros st f i isFree Hi Hf; cbn [free_loop].
  - destruct (i <? MAX_ORDER) eqn:E; [|done]. apply Z.ltb_lt in E. lia.
  - destruct ((i <? MAX_ORDER) && isFree); [|done].
    destruct (page_at st f); [|done].
    destruct (head_at st i) as [[|l]|]; [done| |done].
    destruct (scan l _ false); [apply IH; lia|by rewrite free_loop_false].
Qed.

Lemma free_loop_negative fuel st f i isFree :
  i < 0 → finished (free_loop (S fuel) st f i isFree).
Proof.
  intros Hi. cbn [free_loop]. destruct ((i <? MAX_ORDER) && isFree); [|done].
  destruct (page_at st f); [|done]. unfold head_at.
  destruct (i <? 0) eqn:E; [done|]. apply Z.ltb_ge in E. lia.
Qed.

Lemma free_loop_fuel_mono fuel fuel' st f i isFree :
  (fuel ≤ fuel')%nat → finished (free_loop fuel st f i isFree) →
  free_loop fuel' st f i isFree = free_loop fuel st f i isFree.
Proof.
  revert fuel' st f i isFree.
  induction fuel as [|fuel IH]; intros fuel' st f i isFree Hle; cbn [free_loop].
  - destruct ((i <? MAX_ORDER) && isFree) eqn:E; [done|]. intros _.
    destruct fuel'; cbn [free_loop]; by rewrite E.
  - destruct fuel' as [|fuel']; [lia|]. cbn [free_loop].
    destruct ((i <? MAX_ORDER) && isFree); [|done].
    destruct (page_at st f); [|done].
    destruct (head_at st i) as [[|l]|]; [done| |done].
    destruct (scan l _ false); [apply IH; lia|by rewrite !free_loop_false].
Qed.

Lemma n_orders_le_loop_fuel : (n_orders ≤ loop_fuel)%nat.
Proof. unfold n_orders, loop_fuel, MIN_ORDER, MAX_ORDER. lia. Qed.

Lemma buddy_alloc_finished s st : finished (buddy_alloc s st).
Proof.
  unfold buddy_alloc, buddy_alloc_fuel.
  destruct (s <=? 0); [done|].
  destruct (block_order s >? MAX_ORDER) eqn:E; [done|].
  pose proof (block_order_nonneg s).
  apply alloc_scan_finished; unfold loop_fuel, MAX_ORDER in *; lia.
Qed.

Lemma buddy_alloc_bounded s st :
  shape st → finished (buddy_alloc_fuel n_orders s st).
Proof.
  intros Hs. unfold buddy_alloc_fuel.
  destruct (s <=? 0); [done|].
  destruct (block_order s >? MAX_ORDER) eqn:E; [done|].
  pose proof (block_order_nonneg s).
  destruct (Z.lt_ge_cases (block_order s) MIN_ORDER) as [Hlt|Hge].
  - change n_orders with (S 8). rewrite alloc_scan_zeroed; [done|lia|].
    apply (shape_zeroed st Hs). lia.
  - apply alloc_scan_finished; unfold n_orders, MIN_ORDER, MAX_ORDER in *; lia.
Qed.

Lemma buddy_alloc_fuel_mono fuel fuel' s st :
  (fuel ≤ fuel')%nat → finished (buddy_alloc_fuel fuel s st) →
  buddy_alloc_fuel fuel' s st = buddy_alloc_fuel fuel s st.
Proof.
  intros Hle. unfold buddy_alloc_fuel.
  destruct (s <=? 0); [done|].
  destruct (block_order s >? MAX_ORDER); [done|].
  by apply alloc_scan_fuel_mono.
Qed.

Lemma buddy_free_finished a st : finished (buddy_free a st).
Proof.
  unfold buddy_free, buddy_free_fuel, insert_block.
  destruct (page_at st (ADDR_TO_PAGE a)) as [p|]; [|done].
  assert (Hf : finished (free_loop loop_fuel st (ADDR_TO_PAGE a) (blockOrder p) true)).
  { destruct (Z.lt_ge_cases (blockOrder p) 0) as [Hlt|Hge].
    - by apply (free_loop_negative 21).
    - apply free_loop_finished; [done|]. unfold loop_fuel, MAX_ORDER. lia. }
  destruct (free_loop _ _ _ _ _) as [[f' i'] st1| |]; [|done..].
  destruct (page_at st1 f'); [|done]. by destruct (list_add _ _ _).
Qed.

Lemma buddy_free_bounded a st p :
  page_at st (ADDR_TO_PAGE a) = Some p → MIN_ORDER ≤ blockOrder p →
  finished (buddy_free_fuel n_orders a st).
Proof.
  intros Hp Ho. unfold buddy_free_fuel, insert_block. rewrite Hp.
  assert (Hf : finished (free_loop n_orders st (ADDR_TO_PAGE a) (blockOrder p) true)).
  { apply free_loop_finished; unfold n_orders, MIN_ORDER, MAX_ORDER in *; lia. }
  destruct (free_loop _ _ _ _ _) as [[f' i'] st1| |]; [|done..].
  destruct (page_at st1 f'); [|done]. by destruct (list_add _ _ _).
Qed.

Lemma buddy_free_fuel_mono fuel fuel' a st :
  (fuel ≤ fuel')%nat → finished (buddy_free_fuel fuel a st) →
  buddy_free_fuel fuel' a st = buddy_free_fuel fuel a st.
Proof.
  intros Hle. unfold buddy_free_fuel, insert_block.
  destruct (page_at st (ADDR_TO_PAGE a)) as [p|]; [|done].
  destruct (free_loop fuel _ _ _ _) as [[f' i'] st1| |] eqn:E; [| |done].
  - intros _. rewrite (free_loop_fuel_mono fuel fuel') by (by rewrite ?E). by rewrite E.
  - intros _. rewrite (free_loop_fuel_mono fuel fuel') by (by rewrite ?E). by rewrite E.
Qed.

(** ** Progress: the operations return *)

Lemma alloc_scan_Done cap fuel st border i live :
  partition st live → MIN_ORDER ≤ border ≤ i →
  (Z.to_nat (MAX_ORDER - border) ≤ cap)%nat → (Z.to_nat (MAX_ORDER + 1 - i) ≤ fuel)%nat →
  ∃ r st', alloc_scan cap fuel st border i = Done r st'.
Proof.
  intros Hp. pose proof (part_shape _ _ Hp) as Hs.
  revert i. induction fuel as [|fuel IH]; intros i Hi Hc Hf; cbn [alloc_scan].
  - destruct (i <=? MAX_ORDER) eqn:E; [apply Z.leb_le in E; lia|by eexists _, _].
  - destruct (i <=? MAX_ORDER) eqn:E; [apply Z.leb_le in E|by eexists _, _].
    destruct (shape_linked st Hs i ltac:(lia)) as [l Hl]. rewrite Hl.
    destruct l as [|left_ l]; cbn [list_empty negb list_first]; [apply IH; lia|].
    assert (Hin : left_ ∈ free_at st i) by (unfold free_at; rewrite Hl; left).
    assert (Hp2 : partition (list_del left_ (set_blockOrder st left_ border))
                            ((PAGE_TO_ADDR left_, i) :: live)).
    { destruct (free_at_free_blocks _ _ _ Hs Hin) as [Hb _].
      apply partition_list_del; [|done]. apply partition_set_blockOrder; [done|].
      destruct Hp as [_ [HF _]]. rewrite Forall_forall in HF.
      apply (good_block_page_range left_ i), HF, elem_of_app. by left. }
    assert (Hg : good_block (PAGE_TO_ADDR left_, i))
      by (apply (partition_good _ _ _ Hp2); by left).
    destruct (shape_page_at st left_ Hs (good_block_page_range _ _ Hg)) as [p0 ->].
    destruct (split_Done cap _ left_ i border _ Hp2 Hi ltac:(lia)) as [st3 Hsplit].
    rewrite Hsplit.
    destruct (split_partition _ _ _ _ _ _ _ Hp2 Hi Hsplit) as [Hp3 _].
    destruct (shape_page_at st3 left_ (part_shape _ _ Hp3) (good_block_page_range _ _ Hg))
      as [lp ->].
    by eexists _, _.
Qed.

(** A request above half a page is served or refused, never faulted. *)
Lemma buddy_alloc_fuel_Done fuel s st live :
  Inv st live → MIN_ORDER ≤ block_order s → (n_orders ≤ fuel)%nat →
  ∃ r st', buddy_alloc_fuel fuel s st = Done r st'.
Proof.
  intros [Hp _] Ho Hf. unfold buddy_alloc_fuel.
  destruct (s <=? 0) eqn:E0.
  { apply Z.leb_le in E0. unfold block_order in Ho.
    rewrite Z.log2_up_nonpos in Ho by done. unfold MIN_ORDER in Ho. lia. }
  destruct (block_order s >? MAX_ORDER) eqn:E; [by eexists _, _|].
  apply (alloc_scan_Done _ _ _ _ _ live Hp); unfold n_orders, MIN_ORDER, MAX_ORDER in *; lia.
Qed.

(** Releasing an allocated block returns. *)
Lemma buddy_free_fuel_Done fuel a o st live :
  Inv st live → (a, o) ∈ live → (Z.to_nat (MAX_ORDER - o) ≤ fuel)%nat →
  ∃ f' i' st1 st',
    free_loop fuel st (ADDR_TO_PAGE a) o true = Done (f', i') st1
    ∧ list_add f' i' (set_blockOrder st1 f' i') = Some st'
    ∧ buddy_free_fuel fuel a st = Done tt st'.
Proof.
  intros [Hp Hr] Hin Hf. unfold buddy_free_fuel, insert_block.
  destruct (Hr a o Hin) as (p & Hpa & Hpo). rewrite Hpa, Hpo.
  assert (Hga : good_block (a, o)) by (by apply (partition_good st live)).
  assert (Hpg : PAGE_TO_ADDR (ADDR_TO_PAGE a) = a).
  { apply PAGE_TO_ADDR_TO_PAGE, (divide_page a o); apply Hga. }
  apply elem_of_Permutation in Hin as [live' Hlive].
  apply (partition_Permutation _ _ _ Hlive) in Hp. rewrite <- Hpg in Hp.
  destruct (free_loop_Done fuel _ _ _ _ Hp Hf) as (f' & i' & st1 & Hloop).
  destruct (free_loop_partition _ _ _ _ _ _ _ _ _ Hp Hloop) as (Hp1 & _ & _).
  assert (Hg : good_block (PAGE_TO_ADDR f', i'))
    by (apply (partition_good _ _ _ Hp1); by left).
  pose proof (good_block_page_range _ _ Hg) as Hrange.
  destruct (shape_page_at st1 f' (part_shape _ _ Hp1) Hrange) as [fp Hfp].
  assert (Hs2 : shape (set_blockOrder st1 f' i'))
    by (apply shape_set_blockOrder; [apply Hp1|lia]).
  destruct (shape_linked _ Hs2 i' ltac:(apply Hg)) as [l Hl].
  assert (Hadd : list_add f' i' (set_blockOrder st1 f' i')
                 = Some (set_head (set_blockOrder st1 f' i') i' (Linked (f' :: l))))
    by (unfold list_add; by rewrite Hl).
  exists f', i', st1. eexists. split; [exact Hloop|]. split; [exact Hadd|].
  by rewrite Hloop, Hfp, Hadd.
Qed.

Lemma dump_from_Some n st o :
  (∀ i, o ≤ i < o + Z.of_nat n → ∃ l, head_at st i = Some (Linked l)) →
  ∃ out, dump_from n st o = Some out ∧ length out = n.
Proof.
  revert o. induction n as [|n IH]; intros o Hh; cbn [dump_from]; [by exists []|].
  destruct (Hh o ltac:(lia)) as [l ->].
  destruct (IH (o + 1)) as (out & -> & Hlen); [intros i Hi; apply Hh; lia|].
  eexists. split; [done|]. simpl. by rewrite Hlen.
Qed.

Lemma buddy_dump_Some st : shape st → ∃ out, buddy_dump st = Some out ∧ length out = n_orders.
Proof.
  intros Hs. apply dump_from_Some. intros i Hi. apply (shape_linked st Hs).
  unfold n_orders, MIN_ORDER, MAX_ORDER in *. lia.
Qed.

Lemma step_Inv c c' : step c c' → Inv c.1 c.2 → Inv c'.1 c'.2.
Proof.
  intros [st live s a st' Ha|st live s st' Ha|st live1 live2 a o st' Hf]; simpl; intros HI.
  - by apply (buddy_alloc_fuel_Inv loop_fuel s st live a st').
  - unfold buddy_alloc, buddy_alloc_fuel in Ha.
    destruct (s <=? 0); [done|].
    destruct (block_order s >? MAX_ORDER); [by injection Ha as <-|].
    by apply alloc_scan_null in Ha as [-> _].
  - apply (buddy_free_fuel_Inv loop_fuel a o st (live1 ++ (a, o) :: live2) _ st'); [done| |done].
    by rewrite <- Permutation_middle.
Qed.

Lemma reachable_Inv st live : reachable (st, live) → Inv st live.
Proof.
  intros Hr. change (Inv (st, live).1 (st, live).2).
  revert Hr. generalize (st, live). apply (rtc_ind_r (λ c, Inv c.1 c.2)).
  - apply Inv_init.
  - intros c c' _ Hstep HI. by apply (step_Inv c c').
Qed.

Lemma reachable_one_block :
  reachable (after_alloc (2 ^ MIN_ORDER) init_state, [(0, MIN_ORDER)]).
Proof.
  apply rtc_once.
  change MIN_ORDER with (block_order (2 ^ MIN_ORDER)) at 2.
  apply (step_alloc init_state [] (2 ^ MIN_ORDER) 0). exact alloc_min_block.
Qed.

(** ** The invariants of the allocator *)

(** C8: in every state reached from [buddy_init] by completed
    [buddy_alloc] calls and [buddy_free] calls on allocated addresses,
    a page descriptor is on at most one free list and at most once on
    it; every free block has an order between [MIN_ORDER] and
    [MAX_ORDER] and a base aligned to [2^order]; all blocks, free and
    allocated, lie inside the region and every byte of the region is in
    exactly one of them; an allocated block is on no free list; and an
    address that [buddy_alloc] returns is not the address of a block
    that is still allocated. *)
Theorem reachable_invariants st live :
  reachable (st, live) →
  (∀ k o1 o2, k ∈ free_at st o1 → k ∈ free_at st o2 → o1 = o2)
  ∧ (∀ o, NoDup (free_at st o))
  ∧ (∀ k o, k ∈ free_at st o → MIN_ORDER ≤ o ≤ MAX_ORDER ∧ (2 ^ o | PAGE_TO_ADDR k))
  ∧ Forall good_block (free_blocks st ++ live)
  ∧ (∀ x, 0 ≤ x < 2 ^ MAX_ORDER → count x (free_blocks st ++ live) = 1%nat)
  ∧ (∀ a o o', (a, o) ∈ live → ADDR_TO_PAGE a ∉ free_at st o')
  ∧ (∀ s a st', buddy_alloc s st = Done (Some a) st' → a ∉ live.*1).
Proof.
  intros Hreach. pose proof (reachable_Inv st live Hreach) as [Hp Hr].
  split_and!.
  - intros k o1 o2. by apply (partition_linked_once st live).
  - intros o. by apply (partition_NoDup_free_at st live).
  - intros k o Hk. destruct (free_at_free_blocks st k o (part_shape _ _ Hp) Hk) as [Hb Ho].
    split; [done|]. destruct Hp as [_ [HF _]]. rewrite Forall_forall in HF.
    apply (HF (PAGE_TO_ADDR k, o)), elem_of_app. by left.
  - apply Hp.
  - apply Hp.
  - intros a o o' Hin. by apply (partition_held_unlinked st live a o).
  - intros s a st' Ha.
    destruct (buddy_alloc_fuel_Inv loop_fuel s st live a st' (conj Hp Hr) Ha) as [[Hp' _] _].
    by apply (partition_fresh st' a (block_order s)).
Qed.

Lemma reachable_invariants_witness :
  reachable (after_alloc (2 ^ MIN_ORDER) init_state, [(0, MIN_ORDER)])
  ∧ ∀ x, 0 ≤ x < 2 ^ MAX_ORDER →
         count x (free_blocks (after_alloc (2 ^ MIN_ORDER) init_state) ++ [(0, MIN_ORDER)])
         = 1%nat.
Proof.
  split; [exact reachable_one_block|].
  apply (reachable_invariants _ _ reachable_one_block).
Defined.

(** ** What does hold for the returned address *)

(** In a state reached from [buddy_init], a successful [buddy_alloc]
    has computed an order of at least [MIN_ORDER] and returns an address
    inside the region, aligned to [2^block_order]. *)
Lemma buddy_alloc_aligned st live s a st' :
  reachable (st, live) → buddy_alloc s st = Done (Some a) st' →
  MIN_ORDER ≤ block_order s ≤ MAX_ORDER
  ∧ 0 ≤ a ∧ a + 2 ^ block_order s ≤ 2 ^ MAX_ORDER
  ∧ (2 ^ block_order s | a).
Proof.
  intros Hreach Ha. pose proof (reachable_Inv st live Hreach) as HI.
  destruct (buddy_alloc_fuel_Inv loop_fuel s st live a st' HI Ha) as [[Hp _] _].
  apply (partition_good st' _ (a, block_order s) Hp). left.
Qed.

(** ** Termination and iteration bounds *)

(** C9: [buddy_alloc] and [buddy_free] end on every input: no loop of
    theirs takes more iterations than the fuel of [buddy_alloc] and
    [buddy_free] allows.  In a state reached from [buddy_init], an
    allowance of [MAX_ORDER - MIN_ORDER + 1] iterations per loop is
    enough for every request and for the release of every allocated
    block, and gives the same result; that release returns.
    [buddy_init] and [buddy_dump] are structurally recursive, and
    [buddy_dump] prints one entry per order. *)
Theorem loops_bounded st live :
  reachable (st, live) →
  (∀ s st0, finished (buddy_alloc s st0))
  ∧ (∀ a st0, finished (buddy_free a st0))
  ∧ (∀ s, finished (buddy_alloc_fuel n_orders s st)
          ∧ buddy_alloc s st = buddy_alloc_fuel n_orders s st)
  ∧ (∀ a o, (a, o) ∈ live →
            finished (buddy_free_fuel n_orders a st)
            ∧ buddy_free a st = buddy_free_fuel n_orders a st
            ∧ ∃ st', buddy_free a st = Done tt st')
  ∧ (∃ out, buddy_dump st = Some out ∧ length out = n_orders).
Proof.
  intros Hreach. pose proof (reachable_Inv st live Hreach) as [Hp Hr].
  pose proof (part_shape _ _ Hp) as Hs.
  split_and!.
  - apply buddy_alloc_finished.
  - apply buddy_free_finished.
  - intros s. pose proof (buddy_alloc_bounded s st Hs) as Hf. split; [done|].
    apply buddy_alloc_fuel_mono; [apply n_orders_le_loop_fuel|done].
  - intros a o Hin. destruct (Hr a o Hin) as (p & Hpa & Hpo).
    assert (Hg : good_block (a, o)) by (by apply (partition_good st live)).
    assert (Hf : finished (buddy_free_fuel n_orders a st)).
    { apply (buddy_free_bounded a st p Hpa). rewrite Hpo. apply Hg. }
    assert (Heq : buddy_free a st = buddy_free_fuel n_orders a st).
    { apply buddy_free_fuel_mono; [apply n_orders_le_loop_fuel|done]. }
    split_and!; [done|done|].
    destruct (buddy_free_fuel_Done loop_fuel a o st live (conj Hp Hr) Hin)
      as (_ & _ & _ & st' & _ & _ & Hfree).
    + destruct Hg as (Ho & _); simpl in Ho. unfold loop_fuel, MIN_ORDER, MAX_ORDER in *. lia.
    + by exists st'.
  - by apply buddy_dump_Some.
Qed.

Lemma loops_bounded_witness :
  reachable (after_alloc (2 ^ MIN_ORDER) init_state, [(0, MIN_ORDER)])
  ∧ ∀ s, finished (buddy_alloc_fuel n_orders s (after_alloc (2 ^ MIN_ORDER) init_state))
         ∧ buddy_alloc s (after_alloc (2 ^ MIN_ORDER) init_state)
           = buddy_alloc_fuel n_orders s (after_alloc (2 ^ MIN_ORDER) init_state).
Proof.
  split; [exact reachable_one_block|].
  apply (loops_bounded _ _ reachable_one_block).
Defined.

(** ** The order recorded in the head descriptor *)

(** C10: in a state reached from [buddy_init], a successful
    [buddy_alloc] leaves the order of the request in the [blockOrder]
    field of the head descriptor of the returned block; for every block
    that is still allocated that field holds the order it was allocated
    with and the descriptor is on no free list; and [buddy_free] of its
    address runs the merge loop from exactly that order. *)
Theorem blockOrder_tracks_allocation st live :
  reachable (st, live) →
  (∀ s a st', buddy_alloc s st = Done (Some a) st' →
      ∃ p, page_at st' (ADDR_TO_PAGE a) = Some p ∧ blockOrder p = block_order s)
  ∧ (∀ a o, (a, o) ∈ live →
      (∃ p, page_at st (ADDR_TO_PAGE a) = Some p ∧ blockOrder p = o)
      ∧ (∀ o', ADDR_TO_PAGE a ∉ free_at st o')
      ∧ buddy_free a st
        = insert_block (free_loop loop_fuel st (ADDR_TO_PAGE a) o true)
      ∧ ∃ f' i' st1 st',
          free_loop loop_fuel st (ADDR_TO_PAGE a) o true = Done (f', i') st1
          ∧ list_add f' i' (set_blockOrder st1 f' i') = Some st'
          ∧ buddy_free a st = Done tt st').
Proof.
  intros Hreach. pose proof (reachable_Inv st live Hreach) as [Hp Hr].
  split.
  - intros s a st' Ha.
    destruct (buddy_alloc_fuel_Inv loop_fuel s st live a st' (conj Hp Hr) Ha) as [[_ Hr'] _].
    apply Hr'. left.
  - intros a o Hin. split_and!.
    + by apply Hr.
    + intros o'. by apply (partition_held_unlinked st live a o).
    + destruct (Hr a o Hin) as (p & Hpa & Hpo).
      unfold buddy_free, buddy_free_fuel. by rewrite Hpa, Hpo.
    + apply (buddy_free_fuel_Done loop_fuel a o st live (conj Hp Hr) Hin).
      assert (Hg : good_block (a, o)) by (by apply (partition_good st live)).
      destruct Hg as (Ho & _); simpl in Ho. unfold loop_fuel, MIN_ORDER, MAX_ORDER in *. lia.
Qed.

Lemma blockOrder_tracks_allocation_witness :
  reachable (after_alloc (2 ^ MIN_ORDER) init_state, [(0, MIN_ORDER)])
  ∧ ∀ a o, (a, o) ∈ [(0, MIN_ORDER)] →
      ∃ p, page_at (after_alloc (2 ^ MIN_ORDER) init_state) (ADDR_TO_PAGE a) = Some p
           ∧ blockOrder p = o.
Proof.
  split; [exact reachable_one_block|].
  intros a o Hin.
  apply (proj2 (blockOrder_tracks_allocation _ _ reachable_one_block) a o Hin).
Defined.

(** ** Releasing two siblings *)

Lemma set_blockOrder_id st k p : page_at st k = Some p → set_blockOrder st k (blockOrder p) = st.
Proof.
  destruct st as [fa gp]. unfold page_at, set_blockOrder; simpl.
  destruct (k <? 0); [done|]. intros H. f_equal.
  apply list_eq. intros n. destruct (decide (Z.to_nat k = n)) as [<-|Hne].
  - rewrite list_lookup_alter_eq, H. by destruct p.
  - by rewrite list_lookup_alter_ne.
Qed.

Lemma filter_all {A} (P : A → Prop) `{∀ x, Decision (P x)} (l : list A) :
  (∀ x, x ∈ l → P x) → filter P l = l.
Proof.
  induction l as [|x l IH]; intros HP; [done|].
  rewrite filter_cons_True by (apply HP; left). f_equal. apply IH.
  intros y Hy. apply HP. by right.
Qed.

(** Unlinking a descriptor right after linking it restores the lists. *)
Lemma list_del_list_add st st' k i :
  (∀ o', k ∉ free_at st o') → list_add k i st = Some st' → list_del k st' = st.
Proof.
  intros Hout (l & Hl & ->)%list_add_Some.
  destruct (head_at_Some _ _ _ Hl) as [Hi Hlen].
  destruct st as [fa gp]. unfold list_del, set_head; simpl in *. f_equal.
  apply list_eq. intros n. rewrite list_lookup_fmap.
  assert (Hfilter : ∀ o' l', head_at (mk_state fa gp) o' = Some (Linked l') →
                             filter (λ x, x ≠ k) l' = l').
  { intros o' l' Hh. apply filter_all. intros x Hx ->.
    apply (Hout o'). unfold free_at. by rewrite Hh. }
  destruct (decide (n = Z.to_nat i)) as [->|Hne].
  - rewrite list_lookup_insert_eq by done. simpl.
    rewrite filter_cons_False by (by intros []). rewrite (Hfilter i l Hl).
    unfold head_at in Hl; simpl in Hl. destruct (i <? 0); [done|]. by rewrite Hl.
  - rewrite list_lookup_insert_ne by done.
    destruct (fa !! n) as [[|l']|] eqn:E; [done| |done]. simpl. f_equal. f_equal.
    apply (Hfilter (Z.of_nat n)). unfold head_at; simpl.
    destruct (Z.of_nat n <? 0) eqn:E0; [lia|]. by rewrite Nat2Z.id.
Qed.

Lemma covers_merge x a i :
  0 ≤ i → (2 ^ i | a) → covers x (a, i) → covers x (Z.min a (BUDDY_ADDR a i), i + 1).
Proof.
  intros Hi Hdiv. unfold covers; simpl. intros Hx.
  pose proof (pow2_pos i Hi) as Hp.
  assert (Hd : 2 ^ (i + 1) = 2 * 2 ^ i)
    by (rewrite (pow2_double (i + 1)) by lia; do 2 f_equal; lia).
  destruct (BUDDY_ADDR_cases a i Hi Hdiv) as [[_ ->]|[_ ->]];
    [rewrite Z.min_l by lia | rewrite Z.min_r by lia]; lia.
Qed.

Lemma free_loop_covers fuel st f i isFree held f' i' st' x :
  partition st ((PAGE_TO_ADDR f, i) :: held) →
  free_loop fuel st f i isFree = Done (f', i') st' →
  covers x (PAGE_TO_ADDR f, i) → covers x (PAGE_TO_ADDR f', i').
Proof.
  revert st f i isFree. induction fuel as [|fuel IH]; intros st f i isFree Hp.
  - cbn [free_loop]. destruct ((i <? MAX_ORDER) && isFree); [done|]. by intros [= <- <- <-].
  - destruct isFree; [|rewrite free_loop_false; by intros [= <- <- <-]].
    destruct (Z.lt_ge_cases i MAX_ORDER) as [Hi|Hi].
    + destruct (free_loop_step st f i held Hp Hi) as (l & Hl & Hstep & Hmerge).
      rewrite Hstep. destruct (scan l _ false) eqn:Hscan; [|by intros [= <- <- <-]].
      apply scan_true in Hscan. intros Hloop Hx.
      apply (IH _ _ _ _ (Hmerge Hscan) Hloop).
      assert (Hg : good_block (PAGE_TO_ADDR f, i)) by (apply (partition_good _ _ _ Hp); by left).
      rewrite lower_page, buddy_page by done.
      apply covers_merge; [|apply Hg|done].
      destruct Hg as (Ho & _); simpl in Ho. unfold MIN_ORDER in Ho. lia.
    + cbn [free_loop]. destruct (i <? MAX_ORDER) eqn:E; [apply Z.ltb_lt in E; lia|].
      by intros [= <- <- <-].
Qed.

Lemma tiles_cover_unique bs b1 b2 x :
  tiles bs → 0 ≤ x < 2 ^ MAX_ORDER → b1 ∈ bs → b2 ∈ bs → covers x b1 → covers x b2 → b1 = b2.
Proof.
  intros [_ Hc] Hx H1 H2 Hc1 Hc2. specialize (Hc x Hx). unfold count in Hc.
  assert (Hin1 : b1 ∈ filter (covers x) bs) by (by apply list_elem_of_filter).
  assert (Hin2 : b2 ∈ filter (covers x) bs) by (by apply list_elem_of_filter).
  destruct (filter (covers x) bs) as [|c [|c' t]]; [done| |done].
  apply list_elem_of_singleton in Hin1, Hin2. congruence.
Qed.

(** Releasing a block whose buddy is not free links it as it is. *)
Lemma free_unmerged fuel st live a o :
  Inv st live → (a, o) ∈ live → o < MAX_ORDER →
  ADDR_TO_PAGE (BUDDY_ADDR a o) ∉ free_at st o →
  ∃ st', list_add (ADDR_TO_PAGE a) o st = Some st'
         ∧ buddy_free_fuel (S fuel) a st = Done tt st'.
Proof.
  intros [Hp Hr] Hin Ho Hnot.
  destruct (Hr a o Hin) as (p & Hpa & Hpo).
  assert (Hga : good_block (a, o)) by (by apply (partition_good st live)).
  assert (Hpg : PAGE_TO_ADDR (ADDR_TO_PAGE a) = a).
  { apply PAGE_TO_ADDR_TO_PAGE, (divide_page a o); apply Hga. }
  pose proof Hin as Hin'. apply elem_of_Permutation in Hin' as [live' Hlive].
  apply (partition_Permutation _ _ _ Hlive) in Hp. rewrite <- Hpg in Hp.
  destruct (free_loop_step st _ o live' Hp Ho) as (l & Hl & Hstep & _).
  rewrite Hpg in Hstep.
  assert (Hscan : scan l (ADDR_TO_PAGE (BUDDY_ADDR a o)) false = false).
  { destruct (scan l _ false) eqn:E; [|done]. apply scan_true in E.
    exfalso. apply Hnot. unfold free_at. by rewrite Hl. }
  unfold buddy_free_fuel. rewrite Hpa, Hpo, Hstep, Hscan. unfold insert_block.
  rewrite Hpa. rewrite <- Hpo, (set_blockOrder_id st _ p Hpa), Hpo.
  unfold list_add. rewrite Hl. by eexists.
Qed.

(** Releasing a block whose buddy is free starts with their merge. *)
Lemma free_merge_first fuel st live a o :
  Inv st live → (a, o) ∈ live → o < MAX_ORDER →
  ADDR_TO_PAGE (BUDDY_ADDR a o) ∈ free_at st o →
  buddy_free_fuel (S fuel) a st
  = insert_block
      (free_loop fuel (list_del (ADDR_TO_PAGE (BUDDY_ADDR a o)) st)
                 (if ADDR_TO_PAGE a >? ADDR_TO_PAGE (BUDDY_ADDR a o)
                  then ADDR_TO_PAGE (BUDDY_ADDR a o) else ADDR_TO_PAGE a)
                 (o + 1) true).
Proof.
  intros [Hp Hr] Hin Ho Hfree.
  destruct (Hr a o Hin) as (p & Hpa & Hpo).
  assert (Hga : good_block (a, o)) by (by apply (partition_good st live)).
  assert (Hpg : PAGE_TO_ADDR (ADDR_TO_PAGE a) = a).
  { apply PAGE_TO_ADDR_TO_PAGE, (divide_page a o); apply Hga. }
  pose proof Hin as Hin'. apply elem_of_Permutation in Hin' as [live' Hlive].
  apply (partition_Permutation _ _ _ Hlive) in Hp. rewrite <- Hpg in Hp.
  destruct (free_loop_step st _ o live' Hp Ho) as (l & Hl & Hstep & _).
  rewrite Hpg in Hstep.
  assert (Hscan : scan l (ADDR_TO_PAGE (BUDDY_ADDR a o)) false = true).
  { apply scan_true. unfold free_at in Hfree. by rewrite Hl in Hfree. }
  unfold buddy_free_fuel. by rewrite Hpa, Hpo, Hstep, Hscan.
Qed.

Lemma loop_fuel_S : loop_fuel = S 21.
Proof. reflexivity. Qed.

Lemma free_loop_top fuel st f i isFree :
  MAX_ORDER ≤ i → free_loop fuel st f i isFree = Done (f, i) st.
Proof.
  intros Hi. destruct fuel; cbn [free_loop];
    (destruct (i <? MAX_ORDER) eqn:E; [apply Z.ltb_lt in E; lia|done]).
Qed.

Lemma siblings_apart a b o :
  good_block (a, o) → good_block (b, o) → b = BUDDY_ADDR a o →
  o < MAX_ORDER ∧ a ≠ b ∧ BUDDY_ADDR b o = a.
Proof.
  intros Hga Hgb Hb. pose proof (good_block_pos _ Hga) as Hpos; simpl in Hpos.
  destruct Hga as (Hoa & H0a & Hlea & Hdiva); destruct Hgb as (_ & H0b & Hleb & _);
    simpl in *.
  assert (Hi0 : 0 ≤ o) by (unfold MIN_ORDER in Hoa; lia).
  split_and!.
  - destruct (BUDDY_ADDR_cases a o Hi0 Hdiva) as [[_ E]|[_ E]]; rewrite E in Hb.
    + destruct (Z.eq_dec o MAX_ORDER) as [->|]; lia.
    + destruct (Z.eq_dec o MAX_ORDER) as [->|]; lia.
  - destruct (BUDDY_ADDR_cases a o Hi0 Hdiva) as [[_ E]|[_ E]]; rewrite E in Hb; lia.
  - rewrite Hb. apply BUDDY_ADDR_involutive.
Qed.

(** C6 (amended): when two siblings of order [o] are both allocated,
    freeing them in either order gives the same state, in which both
    lie in one free block of order at least [o+1]: the block is the
    head of its free list with its order recorded, no other free block
    lies inside it, and its order is exactly [o+1] when [o+1] is
    [MAX_ORDER] or the buddy of the parent is not free, and higher when
    that buddy is free. *)
Theorem free_siblings_either_order st live a b o :
  Inv st live → (a, o) ∈ live → (b, o) ∈ live → b = BUDDY_ADDR a o →
  ∃ st_a st_b st2 m f,
    buddy_free a st = Done tt st_a ∧ buddy_free b st_a = Done tt st2
    ∧ buddy_free b st = Done tt st_b ∧ buddy_free a st_b = Done tt st2
    ∧ o + 1 ≤ f ≤ MAX_ORDER
    ∧ (∃ rest, head_at st2 f = Some (Linked (m :: rest)))
    ∧ (∃ p, page_at st2 m = Some p ∧ blockOrder p = f)
    ∧ (2 ^ f | PAGE_TO_ADDR m)
    ∧ covers a (PAGE_TO_ADDR m, f) ∧ covers b (PAGE_TO_ADDR m, f)
    ∧ (∀ k o', k ∈ free_at st2 o' → covers (PAGE_TO_ADDR k) (PAGE_TO_ADDR m, f) →
               k = m ∧ o' = f)
    ∧ (o + 1 = MAX_ORDER
       ∨ ADDR_TO_PAGE (BUDDY_ADDR (Z.min a b) (o + 1)) ∉ free_at st (o + 1) →
       f = o + 1 ∧ PAGE_TO_ADDR m = Z.min a b)
    ∧ (o + 1 < MAX_ORDER →
       ADDR_TO_PAGE (BUDDY_ADDR (Z.min a b) (o + 1)) ∈ free_at st (o + 1) →
       o + 2 ≤ f).
Proof.
  intros HI Ha Hb Hbud. pose proof HI as [Hp Hr].
  assert (Hga : good_block (a, o)) by (by apply (partition_good st live)).
  assert (Hgb : good_block (b, o)) by (by apply (partition_good st live)).
  destruct (siblings_apart a b o Hga Hgb Hbud) as (Ho & Hab & Hbud').
  assert (Ho0 : 0 ≤ o) by (destruct Hga as (H & _); simpl in H; unfold MIN_ORDER in H; lia).
  assert (Hpa : PAGE_TO_ADDR (ADDR_TO_PAGE a) = a).
  { apply PAGE_TO_ADDR_TO_PAGE, (divide_page a o); apply Hga. }
  assert (Hpb : PAGE_TO_ADDR (ADDR_TO_PAGE b) = b).
  { apply PAGE_TO_ADDR_TO_PAGE, (divide_page b o); apply Hgb. }
  set (ka := ADDR_TO_PAGE a) in *. set (kb := ADDR_TO_PAGE b) in *.
  assert (Hka : ∀ o', ka ∉ free_at st o')
    by (intros o'; by apply (partition_held_unlinked st live a o)).
  assert (Hkb : ∀ o', kb ∉ free_at st o')
    by (intros o'; by apply (partition_held_unlinked st live b o)).
  set (m0 := if ka >? kb then kb else ka).
  assert (Hm0 : (if kb >? ka then ka else kb) = m0).
  { unfold m0. assert (ka ≠ kb) by (intros E; apply Hab; by rewrite <- Hpa, <- Hpb, E).
    destruct (ka >? kb) eqn:E1, (kb >? ka) eqn:E2; lia. }
  (* [a] first *)
  destruct (free_unmerged 21 st live a o HI Ha Ho) as (st_a & Hadd_a & Hfree_a);
    [rewrite <- Hbud; apply Hkb|].
  rewrite <- loop_fuel_S in Hfree_a.
  pose proof Ha as Ha'. apply elem_of_Permutation in Ha' as [live_a Hlive_a].
  assert (HIa : Inv st_a live_a) by (by apply (buddy_free_fuel_Inv loop_fuel a o st live live_a)).
  assert (Hb_a : (b, o) ∈ live_a).
  { rewrite Hlive_a in Hb. apply elem_of_cons in Hb as [[= E]|]; [by symmetry in E|done]. }
  assert (Hba : buddy_free b st_a = insert_block (free_loop 21 st m0 (o + 1) true)).
  { unfold buddy_free. rewrite loop_fuel_S.
    rewrite (free_merge_first 21 st_a live_a b o HIa Hb_a Ho).
    - rewrite Hbud'. fold ka kb. by rewrite (list_del_list_add st st_a ka o Hka Hadd_a), Hm0.
    - rewrite Hbud'. fold ka. rewrite (free_at_list_add _ _ _ _ o Hadd_a), decide_True by done.
      left. }
  (* [b] first *)
  destruct (free_unmerged 21 st live b o HI Hb Ho) as (st_b & Hadd_b & Hfree_b);
    [rewrite Hbud'; apply Hka|].
  rewrite <- loop_fuel_S in Hfree_b.
  pose proof Hb as Hb'. apply elem_of_Permutation in Hb' as [live_b Hlive_b].
  assert (HIb : Inv st_b live_b) by (by apply (buddy_free_fuel_Inv loop_fuel b o st live live_b)).
  assert (Ha_b : (a, o) ∈ live_b).
  { rewrite Hlive_b in Ha. apply elem_of_cons in Ha as [[= E]|]; done. }
  assert (Hab' : buddy_free a st_b = insert_block (free_loop 21 st m0 (o + 1) true)).
  { unfold buddy_free. rewrite loop_fuel_S.
    rewrite (free_merge_first 21 st_b live_b a o HIb Ha_b Ho).
    - rewrite <- Hbud. fold ka kb. by rewrite (list_del_list_add st st_b kb o Hkb Hadd_b).
    - rewrite <- Hbud. fold kb. rewrite (free_at_list_add _ _ _ _ o Hadd_b), decide_True by done.
      left. }
  (* the common result *)
  destruct (buddy_free_fuel_Done loop_fuel b o st_a live_a HIa Hb_a)
    as (f' & i' & st1 & st2 & Hloop & Hadd2 & Hfree2).
  { unfold loop_fuel, MAX_ORDER. lia. }
  apply elem_of_Permutation in Hb_a as [live2 Hlive2].
  assert (HI2 : Inv st2 live2) by (by apply (buddy_free_fuel_Inv loop_fuel b o st_a live_a live2)).
  assert (Hp_a : partition st_a ((PAGE_TO_ADDR kb, o) :: live2)).
  { rewrite Hpb. apply (partition_Permutation _ _ _ Hlive2). apply HIa. }
  destruct (free_loop_step st_a kb o live2 Hp_a Ho) as (l & Hl & Hstep & Hmerge).
  rewrite Hpb, Hbud' in Hstep, Hmerge. fold ka in Hstep, Hmerge.
  assert (Hka_in : ka ∈ l).
  { pose proof (free_at_list_add _ _ _ _ o Hadd_a) as E. rewrite decide_True in E by done.
    unfold free_at in E at 1. rewrite Hl in E. rewrite E. left. }
  rewrite (list_del_list_add st st_a ka o Hka Hadd_a), Hm0 in Hmerge.
  specialize (Hmerge Hka_in).
  rewrite loop_fuel_S in Hloop.
  rewrite Hstep, (proj2 (scan_true l ka) Hka_in),
    (list_del_list_add st st_a ka o Hka Hadd_a), Hm0 in Hloop.
  destruct (free_loop_partition _ _ _ _ _ _ _ _ _ Hmerge Hloop) as (Hp1 & _ & Hle).
  assert (Hgf : good_block (PAGE_TO_ADDR f', i'))
    by (apply (partition_good _ _ _ Hp1); by left).
  assert (Hm0addr : PAGE_TO_ADDR m0 = Z.min a b).
  { unfold m0. by rewrite lower_page, Hpa, Hpb. }
  destruct (list_add_Some _ _ _ _ Hadd2) as (rest & Hrest & Hst2).
  destruct (head_at_Some _ _ _ Hrest) as [Hi'0 Hi'len].
  destruct (shape_page_at st1 f' (part_shape _ _ Hp1) (good_block_page_range _ _ Hgf))
    as [fp Hfp].
  exists st_a, st_b, st2, f', i'. split_and!.
  - exact Hfree_a.
  - exact Hfree2.
  - exact Hfree_b.
  - rewrite Hab'. rewrite <- Hba. exact Hfree2.
  - lia.
  - apply Hgf.
  - exists rest. rewrite Hst2, head_at_set_head, decide_True; done.
  - exists (mk_page i' (blockAddress fp)). split; [|done].
    rewrite (page_at_list_add _ _ _ _ _ Hadd2), page_at_set_blockOrder, decide_True, Hfp;
      [done|done|destruct (page_at_Some _ _ _ Hfp); lia].
  - apply Hgf.
  - apply (free_loop_covers _ _ _ _ _ _ _ _ _ a Hmerge Hloop).
    rewrite Hm0addr, Hbud. apply covers_merge; [done|apply Hga|].
    apply (good_block_covers_base _ Hga).
  - apply (free_loop_covers _ _ _ _ _ _ _ _ _ b Hmerge Hloop).
    rewrite Hm0addr, Z.min_comm, <- Hbud'. apply covers_merge; [done|apply Hgb|].
    apply (good_block_covers_base _ Hgb).
  - intros k o' Hk Hcov. destruct HI2 as [[Hs2 Ht2] _].
    destruct (free_at_free_blocks _ _ _ Hs2 Hk) as [Hkb2 _].
    assert (Hf2 : (PAGE_TO_ADDR f', i') ∈ free_blocks st2).
    { apply (free_at_free_blocks st2 f' i' Hs2).
      rewrite (free_at_list_add _ _ _ _ i' Hadd2), decide_True by done. left. }
    assert (Hgk : good_block (PAGE_TO_ADDR k, o')).
    { destruct Ht2 as [HF _]. rewrite Forall_forall in HF. apply HF, elem_of_app. by left. }
    destruct (good_block_covers_base _ Hgk) as [Hown Hreg]; simpl in Hown, Hreg.
    assert (E : (PAGE_TO_ADDR k, o') = (PAGE_TO_ADDR f', i')).
    { apply (tiles_cover_unique _ _ _ (PAGE_TO_ADDR k) Ht2 Hreg);
        [apply elem_of_app; by left|apply elem_of_app; by left|done|done]. }
    injection E as E1 E2. split; [by apply (inj PAGE_TO_ADDR)|done].
  - intros Hstop.
    assert (E : free_loop 21 st m0 (o + 1) true = Done (m0, o + 1) st).
    { destruct (Z.lt_ge_cases (o + 1) MAX_ORDER) as [Hlt|Hge].
      - destruct (free_loop_step st m0 (o + 1) _ Hmerge Hlt) as (l1 & Hl1 & Hstep1 & _).
        rewrite Hstep1. clear Hstep1. rewrite Hm0addr.
        destruct (scan l1 _ false) eqn:Hscan; [|done]. apply scan_true in Hscan.
        destruct Hstop as [Hstop|Hstop]; [lia|]. exfalso. apply Hstop.
        unfold free_at. by rewrite Hl1.
      - by apply free_loop_top. }
    rewrite E in Hloop. injection Hloop as <- <- _. by split.
  - intros Hlt Hfree.
    destruct (free_loop_step st m0 (o + 1) _ Hmerge Hlt) as (l1 & Hl1 & Hstep1 & Hmerge1).
    rewrite Hm0addr in Hstep1, Hmerge1.
    assert (Hin1 : ADDR_TO_PAGE (BUDDY_ADDR (Z.min a b) (o + 1)) ∈ l1)
      by (unfold free_at in Hfree; by rewrite Hl1 in Hfree).
    rewrite Hstep1, (proj2 (scan_true l1 _) Hin1) in Hloop.
    destruct (free_loop_partition _ _ _ _ _ _ _ _ _ (Hmerge1 Hin1) Hloop) as (_ & _ & Hle2).
    lia.
Qed.

(** ** The sibling claim as stated, and where it fails *)

Lemma reachable_two_blocks :
  reachable (after_alloc (2 ^ MIN_ORDER) (after_alloc (2 ^ MIN_ORDER) init_state),
             [(2 ^ MIN_ORDER, MIN_ORDER); (0, MIN_ORDER)]).
Proof.
  apply (rtc_r _ _ _ reachable_one_block).
  change MIN_ORDER with (block_order (2 ^ MIN_ORDER)) at 3.
  apply (step_alloc _ [(0, MIN_ORDER)] (2 ^ MIN_ORDER) (2 ^ MIN_ORDER)).
  vm_compute; reflexivity.
Qed.

(** C6 (as stated, refuted): after [buddy_init] and two minimum-size
    allocations the blocks at 0 and 4096 are allocated siblings of order
    [MIN_ORDER]; once both are freed, in either order, no block at all
    is on the free list of order [MIN_ORDER + 1]: the merge has gone on
    up to [MAX_ORDER]. *)
Lemma siblings_merge_past_next_order :
  reachable (after_alloc (2 ^ MIN_ORDER) (after_alloc (2 ^ MIN_ORDER) init_state),
             [(2 ^ MIN_ORDER, MIN_ORDER); (0, MIN_ORDER)])
  ∧ 2 ^ MIN_ORDER = BUDDY_ADDR 0 MIN_ORDER
  ∧ ∃ st_a st_b st2,
      buddy_free 0 (after_alloc (2 ^ MIN_ORDER) (after_alloc (2 ^ MIN_ORDER) init_state))
      = Done tt st_a
      ∧ buddy_free (2 ^ MIN_ORDER) st_a = Done tt st2
      ∧ buddy_free (2 ^ MIN_ORDER)
                   (after_alloc (2 ^ MIN_ORDER) (after_alloc (2 ^ MIN_ORDER) init_state))
        = Done tt st_b
      ∧ buddy_free 0 st_b = Done tt st2
      ∧ ¬ merged_at_next_order st2 0 (2 ^ MIN_ORDER) MIN_ORDER
      ∧ free_at st2 (MIN_ORDER + 1) = []
      ∧ free_at st2 MAX_ORDER = [0].
Proof.
  split; [exact reachable_two_blocks|]. split; [reflexivity|].
  set (st := after_alloc (2 ^ MIN_ORDER) (after_alloc (2 ^ MIN_ORDER) init_state)).
  exists (after_free 0 st), (after_free (2 ^ MIN_ORDER) st),
         (after_free (2 ^ MIN_ORDER) (after_free 0 st)).
  assert (H13 : free_at (after_free (2 ^ MIN_ORDER) (after_free 0 st)) (MIN_ORDER + 1) = [])
    by (vm_compute; reflexivity).
  split_and!.
  - vm_compute; reflexivity.
  - vm_compute; reflexivity.
  - vm_compute; reflexivity.
  - vm_compute; reflexivity.
  - intros (k & Hk & _). rewrite H13 in Hk. by apply elem_of_nil in Hk.
  - exact H13.
  - vm_compute; reflexivity.
Qed.

Lemma free_siblings_either_order_witness :
  ∃ st_a st_b st2,
    buddy_free 0 (after_alloc (2 ^ MIN_ORDER) (after_alloc (2 ^ MIN_ORDER) init_state))
    = Done tt st_a
    ∧ buddy_free (2 ^ MIN_ORDER) st_a = Done tt st2
    ∧ buddy_free (2 ^ MIN_ORDER)
                 (after_alloc (2 ^ MIN_ORDER) (after_alloc (2 ^ MIN_ORDER) init_state))
      = Done tt st_b
    ∧ buddy_free 0 st_b = Done tt st2.
Proof.
  destruct (free_siblings_either_order
              (after_alloc (2 ^ MIN_ORDER) (after_alloc (2 ^ MIN_ORDER) init_state))
              [(2 ^ MIN_ORDER, MIN_ORDER); (0, MIN_ORDER)] 0 (2 ^ MIN_ORDER) MIN_ORDER)
    as (st_a & st_b & st2 & m & f & H1 & H2 & H3 & H4 & _).
  - apply reachable_Inv, reachable_two_blocks.
  - right. left.
  - left.
  - reflexivity.
  - exists st_a, st_b, st2. split_and!; assumption.
Defined.

(** ** Release refines its specification *)

Lemma free_blocks_take_out st held k i :
  partition st held → k ∈ free_at st i →
  free_blocks st ≡ₚ (PAGE_TO_ADDR k, i) :: free_blocks (list_del k st).
Proof.
  intros [Hs Ht] Hk. destruct (free_at_free_blocks _ _ _ Hs Hk) as [Hb _].
  rewrite free_blocks_list_del.
  apply (tiles_take_out (free_blocks st) held (PAGE_TO_ADDR k, i) Ht Hb).
Qed.

Lemma partition_free_descriptor st held k i :
  partition st held → k ∈ free_at st i → descriptor_at st k (PAGE_TO_ADDR k).
Proof.
  intros Hp Hk. pose proof (part_shape _ _ Hp) as Hs.
  destruct (free_at_free_blocks _ _ _ Hs Hk) as [Hb _].
  assert (Hg : good_block (PAGE_TO_ADDR k, i)).
  { destruct Hp as [_ [HF _]]. rewrite Forall_forall in HF. apply HF, elem_of_app. by left. }
  destruct (shape_page_at st k Hs (good_block_page_range _ _ Hg)) as [d Hd].
  exists d. split; [done|]. by apply (shape_addr st Hs).
Qed.

Lemma descriptor_at_page st k addr : shape st → descriptor_at st k addr → k = ADDR_TO_PAGE addr.
Proof.
  intros Hs (d & Hd & <-). rewrite (shape_addr st Hs k d Hd). by rewrite ADDR_TO_PAGE_TO_ADDR.
Qed.

Lemma free_loop_spec_merge fuel st f i held f' i' st1 :
  partition st ((PAGE_TO_ADDR f, i) :: held) →
  free_loop fuel st f i true = Done (f', i') st1 →
  ∃ n, spec_merge n st (PAGE_TO_ADDR f) i st1 (PAGE_TO_ADDR f') i'
       ∧ (length (free_blocks st1) + n = length (free_blocks st))%nat.
Proof.
  revert st f i. induction fuel as [|fuel IH]; intros st f i Hp.
  - cbn [free_loop]. destruct (i <? MAX_ORDER) eqn:E; [done|]. apply Z.ltb_ge in E.
    intros [= <- <- <-]. exists 0%nat. split; [by apply spec_merge_top|lia].
  - destruct (Z.lt_ge_cases i MAX_ORDER) as [Hi|Hi].
    + destruct (free_loop_step st f i held Hp Hi) as (l & Hl & Hstep & Hmerge).
      pose proof (part_shape _ _ Hp) as Hs.
      assert (Hg : good_block (PAGE_TO_ADDR f, i)) by (apply (partition_good _ _ _ Hp); by left).
      pose proof (buddy_page _ _ Hg) as Hbp. rewrite BUDDY_ADDR_pow in Hbp.
      rewrite Hstep. clear Hstep. rewrite BUDDY_ADDR_pow in *.
      set (buddy := ADDR_TO_PAGE (Z.lxor (PAGE_TO_ADDR f) (2 ^ i))) in *.
      destruct (scan l buddy false) eqn:Hscan.
      * apply scan_true in Hscan. intros Hloop.
        destruct (IH _ _ _ (Hmerge Hscan) Hloop) as (n & Hn & Hlen).
        assert (Hin : buddy ∈ free_at st i) by (unfold free_at; by rewrite Hl).
        exists (S n). split.
        -- apply (spec_merge_step n st _ i buddy); [done|done| |].
           ++ rewrite <- Hbp. by apply (partition_free_descriptor st _ buddy i Hp).
           ++ rewrite lower_page, Hbp in Hn. exact Hn.
        -- rewrite (free_blocks_take_out st _ buddy i Hp Hin). simpl. lia.
      * intros [= <- <- <-]. exists 0%nat. split; [|lia].
        apply spec_merge_stop; [done|]. intros k Hk Hd.
        apply (descriptor_at_page st k _ Hs) in Hd. fold buddy in Hd. subst k.
        assert (Hin : scan l buddy false = true)
          by (apply scan_true; unfold free_at in Hk; by rewrite Hl in Hk).
        congruence.
    + rewrite free_loop_top by done. intros [= <- <- <-].
      exists 0%nat. split; [by apply spec_merge_top|lia].
Qed.

Lemma spec_merge_free_loop n st base i st1 base' i' :
  spec_merge n st base i st1 base' i' →
  ∀ f held fuel,
    base = PAGE_TO_ADDR f → partition st ((PAGE_TO_ADDR f, i) :: held) →
    (Z.to_nat (MAX_ORDER - i) ≤ fuel)%nat →
    ∃ f', free_loop fuel st f i true = Done (f', i') st1 ∧ PAGE_TO_ADDR f' = base'.
Proof.
  induction 1 as [st base i Hi|st base i Hi Hnone|n st base i k st' base' i' Hi Hk Hd Hm IH];
    intros f held fuel -> Hp Hf.
  - exists f. split; [by apply free_loop_top|done].
  - destruct fuel as [|fuel]; [lia|].
    destruct (free_loop_step st f i held Hp Hi) as (l & Hl & Hstep & _).
    rewrite Hstep. clear Hstep. exists f. split; [|done].
    assert (Hg : good_block (PAGE_TO_ADDR f, i)) by (apply (partition_good _ _ _ Hp); by left).
    destruct (scan l _ false) eqn:Hscan; [|done]. apply scan_true in Hscan.
    exfalso. assert (Hin : ADDR_TO_PAGE (BUDDY_ADDR (PAGE_TO_ADDR f) i) ∈ free_at st i)
      by (unfold free_at; by rewrite Hl).
    apply (Hnone _ Hin). rewrite <- BUDDY_ADDR_pow.
    pose proof (partition_free_descriptor st _ _ i Hp Hin) as Hd.
    by rewrite (buddy_page _ _ Hg) in Hd.
  - destruct fuel as [|fuel]; [lia|].
    destruct (free_loop_step st f i held Hp Hi) as (l & Hl & Hstep & Hmerge).
    rewrite Hstep. clear Hstep.
    apply (descriptor_at_page st k _ (part_shape _ _ Hp)) in Hd.
    rewrite <- BUDDY_ADDR_pow in Hd, Hm, IH. subst k.
    assert (Hin : ADDR_TO_PAGE (BUDDY_ADDR (PAGE_TO_ADDR f) i) ∈ l)
      by (unfold free_at in Hk; by rewrite Hl in Hk).
    rewrite (proj2 (scan_true l _) Hin).
    assert (Hg : good_block (PAGE_TO_ADDR f, i)) by (apply (partition_good _ _ _ Hp); by left).
    apply (IH _ held fuel); [|by apply Hmerge|lia].
    by rewrite lower_page, buddy_page.
Qed.

Lemma buddy_free_fuel_inv fuel st live a o st' :
  Inv st live → (a, o) ∈ live → buddy_free_fuel fuel a st = Done tt st' →
  ∃ live' f' i' st1 d,
    partition st ((PAGE_TO_ADDR (ADDR_TO_PAGE a), o) :: live')
    ∧ PAGE_TO_ADDR (ADDR_TO_PAGE a) = a
    ∧ free_loop fuel st (ADDR_TO_PAGE a) o true = Done (f', i') st1
    ∧ page_at st1 f' = Some d
    ∧ list_add f' i' (set_blockOrder st1 f' i') = Some st'.
Proof.
  intros [Hp Hr] Hin. unfold buddy_free_fuel, insert_block.
  destruct (Hr a o Hin) as (p & Hpa & Hpo). rewrite Hpa, Hpo.
  assert (Hga : good_block (a, o)) by (by apply (partition_good st live)).
  assert (Hpg : PAGE_TO_ADDR (ADDR_TO_PAGE a) = a).
  { apply PAGE_TO_ADDR_TO_PAGE, (divide_page a o); apply Hga. }
  apply elem_of_Permutation in Hin as [live' Hlive].
  apply (partition_Permutation _ _ _ Hlive) in Hp. rewrite <- Hpg in Hp.
  destruct (free_loop fuel st (ADDR_TO_PAGE a) o true) as [[f' i'] st1| |] eqn:Hloop; [|done..].
  destruct (page_at st1 f') as [d|] eqn:Hd; [|done].
  destruct (list_add f' i' (set_blockOrder st1 f' i')) as [st2|] eqn:Hadd; [|done].
  intros [= <-]. by exists live', f', i', st1, d.
Qed.

(** C7: for an allocated block of order [i0], [buddy_free] does what
    the specification of the release says: it returns the state [st']
    exactly when [spec_free] relates the two states.  The descriptors
    linked before, minus one per merge, plus the one inserted at the
    end, are the descriptors linked after: the resulting block is the
    new head of the free list of its final order, with that order
    recorded, and no other free list is touched by the insertion. *)
Theorem buddy_free_refines_spec st live a i0 st' :
  Inv st live → (a, i0) ∈ live →
  (buddy_free a st = Done tt st' ↔ spec_free a i0 st st')
  ∧ (buddy_free a st = Done tt st' →
     ∃ n st1 base i,
       spec_merge n st a i0 st1 base i
       ∧ (length (free_blocks st1) + n = length (free_blocks st))%nat
       ∧ length (free_blocks st') = S (length (free_blocks st1))
       ∧ free_at st' i = ADDR_TO_PAGE base :: free_at st1 i
       ∧ (∀ o', o' ≠ i → free_at st' o' = free_at st1 o')
       ∧ ∃ p, page_at st' (ADDR_TO_PAGE base) = Some p ∧ blockOrder p = i).
Proof.
  intros HI Hin. split; [split|].
  - intros Hfree.
    destruct (buddy_free_fuel_inv _ _ _ _ _ _ HI Hin Hfree)
      as (live' & f' & i' & st1 & d & Hp & Hpg & Hloop & Hd & Hadd).
    destruct (free_loop_spec_merge _ _ _ _ _ _ _ _ Hp Hloop) as (n & Hn & _).
    destruct (free_loop_partition _ _ _ _ _ _ _ _ _ Hp Hloop) as (Hp1 & _ & _).
    rewrite Hpg in Hn. exists n, st1, (PAGE_TO_ADDR f'), i', f'. split_and!; [done| |done].
    exists d. split; [done|]. by apply (shape_addr st1 (part_shape _ _ Hp1)).
  - intros (n & st1 & base & i & k & Hn & Hk & Hadd).
    pose proof HI as [Hp Hr].
    destruct (Hr a i0 Hin) as (p & Hpa & Hpo).
    assert (Hga : good_block (a, i0)) by (by apply (partition_good st live)).
    assert (Hpg : PAGE_TO_ADDR (ADDR_TO_PAGE a) = a).
    { apply PAGE_TO_ADDR_TO_PAGE, (divide_page a i0); apply Hga. }
    pose proof Hin as Hin'. apply elem_of_Permutation in Hin' as [live' Hlive].
    apply (partition_Permutation _ _ _ Hlive) in Hp. rewrite <- Hpg in Hp.
    destruct (spec_merge_free_loop _ _ _ _ _ _ _ Hn (ADDR_TO_PAGE a) live' loop_fuel
                (eq_sym Hpg) Hp) as (f' & Hloop & Hf').
    { destruct Hga as (Ho & _); simpl in Ho. unfold loop_fuel, MIN_ORDER, MAX_ORDER in *. lia. }
    destruct (free_loop_partition _ _ _ _ _ _ _ _ _ Hp Hloop) as (Hp1 & _ & _).
    pose proof (descriptor_at_page st1 k base (part_shape _ _ Hp1) Hk) as Hkb.
    rewrite <- Hf', ADDR_TO_PAGE_TO_ADDR in Hkb. subst k.
    destruct Hk as (d & Hd & _).
    unfold buddy_free, buddy_free_fuel. rewrite Hpa, Hpo, Hloop. unfold insert_block.
    by rewrite Hd, Hadd.
  - intros Hfree.
    destruct (buddy_free_fuel_inv _ _ _ _ _ _ HI Hin Hfree)
      as (live' & f' & i' & st1 & d & Hp & Hpg & Hloop & Hd & Hadd).
    destruct (free_loop_spec_merge _ _ _ _ _ _ _ _ Hp Hloop) as (n & Hn & Hlen).
    destruct (free_loop_partition _ _ _ _ _ _ _ _ _ Hp Hloop) as (Hp1 & _ & _).
    assert (Hg : good_block (PAGE_TO_ADDR f', i'))
      by (apply (partition_good _ _ _ Hp1); by left).
    destruct (page_at_Some _ _ _ Hd) as [Hf0 _].
    rewrite Hpg in Hn. exists n, st1, (PAGE_TO_ADDR f'), i'.
    rewrite ADDR_TO_PAGE_TO_ADDR. split_and!; [done|done| | | |].
    + rewrite (free_blocks_list_add f' i' _ st' Hadd) by apply Hg. simpl.
      by rewrite (free_blocks_ext (set_blockOrder st1 f' i') st1).
    + by rewrite (free_at_list_add _ _ _ _ i' Hadd), decide_True.
    + intros o' Ho'. by rewrite (free_at_list_add _ _ _ _ o' Hadd), decide_False.
    + exists (mk_page i' (blockAddress d)). split; [|done].
      by rewrite (page_at_list_add _ _ _ _ _ Hadd), page_at_set_blockOrder, decide_True, Hd.
Qed.

Lemma buddy_free_refines_spec_witness :
  buddy_free 0 (after_alloc (2 ^ MIN_ORDER) init_state)
  = Done tt (after_free 0 (after_alloc (2 ^ MIN_ORDER) init_state))
  ↔ spec_free 0 MIN_ORDER (after_alloc (2 ^ MIN_ORDER) init_state)
              (after_free 0 (after_alloc (2 ^ MIN_ORDER) init_state)).
Proof.
  apply (buddy_free_refines_spec _ [(0, MIN_ORDER)]).
  - apply reachable_Inv, reachable_one_block.
  - left.
Defined.

(** ** When allocation fails, and when it faults instead *)

(** One request for the whole region after [buddy_init]. *)
Lemma alloc_whole_region :
  buddy_alloc (2 ^ MAX_ORDER) init_state
  = Done (Some 0) (after_alloc (2 ^ MAX_ORDER) init_state).
Proof. vm_compute; reflexivity. Qed.

Lemma reachable_whole_region :
  reachable (after_alloc (2 ^ MAX_ORDER) init_state, [(0, MAX_ORDER)]).
Proof.
  apply rtc_once.
  change MAX_ORDER with (block_order (2 ^ MAX_ORDER)) at 2.
  apply (step_alloc init_state [] (2 ^ MAX_ORDER) 0). exact alloc_whole_region.
Qed.

(** Nothing is free once the whole region is allocated. *)
Lemma whole_region_no_free_block o :
  free_at (after_alloc (2 ^ MAX_ORDER) init_state) o = [].
Proof.
  pose proof (reachable_Inv _ _ reachable_whole_region) as [[Hs _] _].
  unfold free_at.
  destruct (head_at (after_alloc (2 ^ MAX_ORDER) init_state) o) as [[|l]|] eqn:E; [done| |done].
  pose proof (shape_head_range _ _ _ Hs E) as Ho.
  assert (H : free_at (after_alloc (2 ^ MAX_ORDER) init_state) o = []).
  { apply (forall_seqZ (λ o, free_at (after_alloc (2 ^ MAX_ORDER) init_state) o = []) 12 9);
      [|unfold MIN_ORDER, MAX_ORDER in Ho; lia].
    apply (bool_decide_unpack _). vm_compute. exact I. }
  unfold free_at in H. by rewrite E in H.
Qed.

(** A request of at most half a page starts the walk at a head that
    [buddy_init] never initialised, whatever the free lists hold. *)
Lemma buddy_alloc_sub_page_faults st s :
  shape st → 1 ≤ s ≤ 2 ^ (MIN_ORDER - 1) →
  block_order s < MIN_ORDER ∧ buddy_alloc s st = Fault.
Proof.
  intros Hsh Hs.
  assert (Hr : block_order s ≤ MIN_ORDER - 1).
  { unfold block_order. apply Z.log2_up_le_pow2; lia. }
  split; [lia|].
  unfold buddy_alloc, buddy_alloc_fuel.
  destruct (s <=? 0) eqn:E0; [lia|].
  destruct (block_order s >? MAX_ORDER) eqn:E1; [unfold MIN_ORDER, MAX_ORDER in *; lia|].
  rewrite loop_fuel_S.
  apply alloc_scan_zeroed; [unfold MIN_ORDER, MAX_ORDER in *; lia|].
  apply (shape_zeroed st Hsh). pose proof (block_order_nonneg s). lia.
Qed.

(** On the heads that [buddy_init] initialises, a list holds no block
    exactly when [list_empty] says so. *)
Lemma free_at_nil_list_empty st o :
  shape st → MIN_ORDER ≤ o ≤ MAX_ORDER →
  free_at st o = [] ↔ option_map list_empty (head_at st o) = Some true.
Proof.
  intros Hs Ho. destruct (shape_linked st Hs o Ho) as [l Hl].
  unfold free_at. rewrite Hl. simpl. by destruct l.
Qed.

(** For a request above half a page: NULL exactly when the order is
    above [MAX_ORDER] or no list from that order up holds a block. *)
Lemma buddy_alloc_null_free_at st live s :
  Inv st live → 2 ^ (MIN_ORDER - 1) < s →
  ((∃ st', buddy_alloc s st = Done None st')
   ↔ (MAX_ORDER < block_order s
      ∨ ∀ o, block_order s ≤ o ≤ MAX_ORDER → free_at st o = []))
  ∧ (∀ st', buddy_alloc s st = Done None st' → st' = st).
Proof.
  intros HI Hs. pose proof HI as [[Hsh _] _].
  assert (Hs1 : 1 ≤ s).
  { assert (0 < 2 ^ (MIN_ORDER - 1)) by (by apply pow2_pos). lia. }
  assert (Hmin : MIN_ORDER ≤ block_order s).
  { unfold block_order. pose proof (Z.log2_up_lt_pow2 s (MIN_ORDER - 1) ltac:(lia)). lia. }
  unfold buddy_alloc, buddy_alloc_fuel.
  destruct (s <=? 0) eqn:E0; [lia|].
  destruct (block_order s >? MAX_ORDER) eqn:E1.
  - split; [|by intros st' [= <-]].
    split; [intros _; left; lia|intros _; by eexists].
  - split; [|intros st' H; by apply alloc_scan_null in H as [-> _]].
    split.
    + intros [st' H]. right. apply alloc_scan_null in H as [_ H].
      intros o Ho. apply (free_at_nil_list_empty st o Hsh); [lia|]. by apply H.
    + intros [H|H]; [lia|]. exists st. apply alloc_scan_all_empty.
      * unfold MIN_ORDER in *. lia.
      * unfold loop_fuel, MIN_ORDER, MAX_ORDER in *. lia.
      * intros o Ho. apply (free_at_nil_list_empty st o Hsh); [lia|]. by apply H.
Qed.

Lemma buddy_alloc_too_large st s : 2 ^ MAX_ORDER < s → buddy_alloc s st = Done None st.
Proof.
  intros Hbig. assert (Hs : 1 ≤ s) by (unfold MAX_ORDER in Hbig; lia).
  assert (Hr : MAX_ORDER < block_order s).
  { unfold block_order. by apply Z.log2_up_lt_pow2; [lia|]. }
  unfold buddy_alloc, buddy_alloc_fuel.
  destruct (s <=? 0) eqn:E0; [lia|].
  destruct (block_order s >? MAX_ORDER) eqn:E1; [done|lia].
Qed.

(** C2 (the code at the failing input): after [buddy_init] and one
    request for the whole region no free list holds a block, so a
    request of one byte, whose order 0 is not above [MAX_ORDER], is to
    be refused with the null pointer; [buddy_alloc] faults instead, on
    the head [free_area[0]] that was never initialised.  The same
    happens in every state reached from [buddy_init] for every request
    of at most half a page: it never returns the null pointer, whatever
    the free lists hold.  For a request above half a page the code does
    what is claimed: it returns the null pointer exactly when the least
    order [r] with [2^r >= size] is above [MAX_ORDER] or every free
    list of the orders [r] to [MAX_ORDER] is empty, and the state is
    then unchanged; every request above [2^MAX_ORDER] fails. *)
Theorem buddy_alloc_null_not_below_page :
  reachable (after_alloc (2 ^ MAX_ORDER) init_state, [(0, MAX_ORDER)])
  ∧ (∀ o, free_at (after_alloc (2 ^ MAX_ORDER) init_state) o = [])
  ∧ block_order 1 = 0
  ∧ buddy_alloc 1 (after_alloc (2 ^ MAX_ORDER) init_state) = Fault
  ∧ (∀ st live s, reachable (st, live) → 1 ≤ s ≤ 2 ^ (MIN_ORDER - 1) →
       block_order s < MIN_ORDER
       ∧ buddy_alloc s st = Fault
       ∧ ¬ ∃ st', buddy_alloc s st = Done None st')
  ∧ (∀ st live s, reachable (st, live) → 2 ^ (MIN_ORDER - 1) < s →
       (s ≤ 2 ^ block_order s ∧ ∀ r, 0 ≤ r < block_order s → 2 ^ r < s)
       ∧ ((∃ st', buddy_alloc s st = Done None st')
          ↔ (MAX_ORDER < block_order s
             ∨ ∀ o, block_order s ≤ o ≤ MAX_ORDER → free_at st o = []))
       ∧ (∀ o, MIN_ORDER ≤ o ≤ MAX_ORDER →
               free_at st o = [] ↔ option_map list_empty (head_at st o) = Some true)
       ∧ (∀ st', buddy_alloc s st = Done None st' → st' = st))
  ∧ (∀ st s, 2 ^ MAX_ORDER < s → buddy_alloc s st = Done None st).
Proof.
  split; [exact reachable_whole_region|].
  split; [exact whole_region_no_free_block|].
  split; [reflexivity|].
  split.
  { apply buddy_alloc_sub_page_faults; [|unfold MIN_ORDER; simpl; lia].
    apply (reachable_Inv _ _ reachable_whole_region). }
  split.
  { intros st live s Hr Hs. pose proof (reachable_Inv _ _ Hr) as [[Hsh _] _].
    destruct (buddy_alloc_sub_page_faults st s Hsh Hs) as [Hlt Hf].
    split; [done|]. split; [done|]. intros [st' H]. congruence. }
  split; [|exact buddy_alloc_too_large].
  intros st live s Hr Hs. pose proof (reachable_Inv _ _ Hr) as HI.
  assert (Hs1 : 1 ≤ s).
  { assert (0 < 2 ^ (MIN_ORDER - 1)) by (by apply pow2_pos). lia. }
  destruct (buddy_alloc_null_free_at st live s HI Hs) as [Hiff Hsame].
  split; [by apply block_order_least|]. split; [exact Hiff|]. split; [|exact Hsame].
  intros o Ho. apply free_at_nil_list_empty; [apply HI|done].
Qed.

(** * Further properties of the code *)

(** ** The address macros, again *)

Lemma BUDDY_ADDR_neq a o : 0 ≤ o → BUDDY_ADDR a o ≠ a.
Proof.
  intros Ho H. rewrite BUDDY_ADDR_pow in H.
  assert (H2 : Z.lxor a (Z.lxor a (2 ^ o)) = 0) by (rewrite H; apply Z.lxor_nilpotent).
  rewrite <- Z.lxor_assoc, Z.lxor_nilpotent, Z.lxor_0_l in H2.
  pose proof (pow2_pos o Ho). lia.
Qed.

(** A block below the top order and its buddy are the two halves of
    an aligned block of the next order inside the region. *)
Lemma buddy_parent a o :
  good_block (a, o) → o < MAX_ORDER →
  ∃ p, good_block (p, o + 1)
       ∧ ((a = p ∧ BUDDY_ADDR a o = p + 2 ^ o) ∨ (a = p + 2 ^ o ∧ BUDDY_ADDR a o = p)).
Proof.
  intros (Ho & H0 & Hle & Hdiv) Hmax; simpl in *.
  assert (Ho0 : 0 ≤ o) by (unfold MIN_ORDER in Ho; lia).
  pose proof (pow2_pos o Ho0) as Hpos.
  pose proof (pow2_double (o + 1) ltac:(lia)) as Hd. replace (o + 1 - 1) with o in Hd by lia.
  assert (Htop : (2 ^ (o + 1) | 2 ^ MAX_ORDER)).
  { exists (2 ^ (MAX_ORDER - (o + 1))). rewrite <- Z.pow_add_r by lia. f_equal. lia. }
  assert (Hin : ∀ p, (2 ^ (o + 1) | p) → 0 ≤ p + 2 ^ o → p < 2 ^ MAX_ORDER →
                     good_block (p, o + 1)).
  { intros p Hp Hp0 Hp1. unfold good_block; simpl. split; [lia|].
    assert (0 ≤ p ∧ p + 2 ^ (o + 1) ≤ 2 ^ MAX_ORDER); [|by split_and!; try lia].
    destruct Hp as [m ->]. destruct Htop as [t Ht]. rewrite Ht in Hp1 |- *.
    rewrite Hd in *. clear Hle Hd Ht. set (s := 2 ^ o) in *.
    assert (0 ≤ m) by nia. assert (m < t) by nia. nia. }
  destruct (BUDDY_ADDR_cases a o Ho0 Hdiv) as [[Hp ->]|[Hp ->]].
  - exists a. split; [apply (Hin a Hp); lia|]. by left.
  - exists (a - 2 ^ o). split; [apply (Hin _ Hp); lia|]. right. split; lia.
Qed.

(** X1: page index and address translate back and forth: every byte
    of the region has a descriptor in [g_pages], that of the one page it
    lies in, and [ADDR_TO_PAGE] gives back the index [PAGE_TO_ADDR] was
    given. *)
Theorem page_of_address x :
  0 ≤ x < 2 ^ MAX_ORDER →
  0 ≤ ADDR_TO_PAGE x < n_pages
  ∧ PAGE_TO_ADDR (ADDR_TO_PAGE x) ≤ x < PAGE_TO_ADDR (ADDR_TO_PAGE x) + PAGE_SIZE
  ∧ (∀ k, PAGE_TO_ADDR k ≤ x < PAGE_TO_ADDR k + PAGE_SIZE → k = ADDR_TO_PAGE x)
  ∧ (∀ k, 0 ≤ k < n_pages → ADDR_TO_PAGE (PAGE_TO_ADDR k) = k).
Proof.
  intros Hx. unfold ADDR_TO_PAGE, PAGE_TO_ADDR, n_pages.
  change PAGE_SIZE with 4096. change (Z.shiftl 1 MAX_ORDER / 4096) with 256.
  change (2 ^ MAX_ORDER) with 1048576 in Hx.
  pose proof (Z.div_mod x 4096 ltac:(lia)) as Hdm.
  pose proof (Z.mod_pos_bound x 4096 ltac:(lia)) as Hmod.
  split; [lia|]. split; [lia|]. split; [intros k Hk; lia|].
  intros k _. by rewrite Z.div_mul.
Qed.

Lemma page_of_address_witness : 0 ≤ ADDR_TO_PAGE 5000 < n_pages.
Proof. apply (page_of_address 5000). unfold MAX_ORDER. simpl. lia. Defined.

(** X2: a block inside the region and its buddy are the two halves of
    an aligned block of the next order inside the region: flipping bit
    [o] of the address stays in the region, gives a different aligned
    address, is undone by flipping again, and the lower of the two
    addresses is aligned to [2^(o+1)]. *)
Theorem buddy_is_sibling a o :
  good_block (a, o) → o < MAX_ORDER →
  good_block (BUDDY_ADDR a o, o)
  ∧ BUDDY_ADDR a o ≠ a
  ∧ BUDDY_ADDR (BUDDY_ADDR a o) o = a
  ∧ Z.abs (BUDDY_ADDR a o - a) = 2 ^ o
  ∧ good_block (Z.min a (BUDDY_ADDR a o), o + 1)
  ∧ (∀ x, covers x (Z.min a (BUDDY_ADDR a o), o + 1)
          ↔ covers x (a, o) ∨ covers x (BUDDY_ADDR a o, o)).
Proof.
  intros Hg Ho. pose proof Hg as (Hor & H0 & Hle & Hdiv); simpl in Hor, H0, Hle, Hdiv.
  assert (Ho0 : 0 ≤ o) by (unfold MIN_ORDER in *; lia).
  pose proof (pow2_pos o Ho0) as Hpos.
  pose proof (pow2_double (o + 1) ltac:(lia)) as Hd. replace (o + 1 - 1) with o in Hd by lia.
  destruct (buddy_parent a o Hg Ho) as (p & Hgp & Hcases).
  pose proof Hgp as (_ & Hp0 & Hple & Hp); simpl in Hp0, Hple, Hp.
  assert (Hdivp : (2 ^ o | p)) by (apply (divide_pow2_le p (o + 1)); [lia|done]).
  assert (Hmin : Z.min a (BUDDY_ADDR a o) = p) by lia. rewrite Hmin.
  split.
  { unfold good_block; simpl. split; [done|]. split; [lia|]. split; [lia|].
    destruct Hcases as [[_ ->]|[_ ->]]; [|done].
    by apply Z.divide_add_r; [|apply Z.divide_refl]. }
  split; [by apply BUDDY_ADDR_neq|]. split; [apply BUDDY_ADDR_involutive|].
  split; [lia|]. split; [done|].
  intros x. unfold covers; simpl. lia.
Qed.

Lemma buddy_is_sibling_witness :
  good_block (BUDDY_ADDR (2 ^ MIN_ORDER) MIN_ORDER, MIN_ORDER)
  ∧ BUDDY_ADDR (2 ^ MIN_ORDER) MIN_ORDER ≠ 2 ^ MIN_ORDER.
Proof.
  split; apply (buddy_is_sibling (2 ^ MIN_ORDER) MIN_ORDER).
  - unfold good_block, MIN_ORDER, MAX_ORDER; simpl. split_and!; try lia. by exists 1.
  - reflexivity.
  - unfold good_block, MIN_ORDER, MAX_ORDER; simpl. split_and!; try lia. by exists 1.
  - reflexivity.
Defined.

(** ** Calling buddy_init again *)

Lemma imap_index_ext {A B} (f : nat → B) (l l' : list A) :
  length l = length l' → imap (λ i _, f i) l = imap (λ i _, f i) l'.
Proof.
  intros Hlen. apply list_eq. intros i. rewrite !list_lookup_imap.
  destruct (l !! i) as [x|] eqn:E, (l' !! i) as [x'|] eqn:E'; try done.
  - apply lookup_lt_Some in E. apply lookup_ge_None in E'. lia.
  - apply lookup_lt_Some in E'. apply lookup_ge_None in E. lia.
Qed.

(** X3: [buddy_init] called again, in whatever state the allocator has
    been brought to, gives the state after the first [buddy_init]: all
    the region one free block of order [MAX_ORDER], every descriptor
    with its address and the order -1. *)
Theorem buddy_init_resets st live :
  reachable (st, live) → buddy_init st = init_state.
Proof.
  intros Hr. pose proof (part_shape _ _ (proj1 (reachable_Inv _ _ Hr))) as Hs.
  unfold init_state, buddy_init.
  rewrite (imap_index_ext (λ i, mk_page (-1) (PAGE_TO_ADDR (Z.of_nat i)))
             (g_pages st) (g_pages static_storage))
    by (rewrite (shape_pages st Hs); reflexivity).
  assert (Hheads :
    imap (λ i h, if (MIN_ORDER <=? Z.of_nat i) && (Z.of_nat i <=? MAX_ORDER)
                 then INIT_LIST_HEAD else h) (free_area st)
    = imap (λ i h, if (MIN_ORDER <=? Z.of_nat i) && (Z.of_nat i <=? MAX_ORDER)
                   then INIT_LIST_HEAD else h) (free_area static_storage)).
  { apply list_eq. intros i. rewrite !list_lookup_imap.
    destruct (decide (i < Z.to_nat (MAX_ORDER + 1))%nat) as [Hi|Hi].
    - destruct (lookup_lt_is_Some_2 (free_area st) i) as [h Hh];
        [by rewrite (shape_heads st Hs)|].
      destruct (lookup_lt_is_Some_2 (free_area static_storage) i) as [h' Hh']; [done|].
      rewrite Hh, Hh'. simpl. f_equal.
      destruct ((MIN_ORDER <=? Z.of_nat i) && (Z.of_nat i <=? MAX_ORDER)) eqn:E; [done|].
      assert (Hlow : 0 ≤ Z.of_nat i < MIN_ORDER).
      { apply andb_false_iff in E as [E|E]; [apply Z.leb_gt in E; lia|].
        apply Z.leb_gt in E. unfold MAX_ORDER in *. lia. }
      pose proof (shape_zeroed st Hs _ Hlow) as Hz.
      unfold head_at in Hz. destruct (Z.of_nat i <? 0) eqn:E0; [done|].
      rewrite Nat2Z.id in Hz. rewrite Hh in Hz. injection Hz as ->.
      change (free_area static_storage) with (replicate (Z.to_nat (MAX_ORDER + 1)) Zeroed) in Hh'.
      apply lookup_replicate in Hh' as [-> _]. done.
    - rewrite !lookup_ge_None_2; [done| |rewrite (shape_heads st Hs); lia].
      change (length (free_area static_storage)) with (Z.to_nat (MAX_ORDER + 1)). lia. }
  by rewrite Hheads.
Qed.

Lemma buddy_init_resets_witness :
  buddy_init (after_alloc (2 ^ MIN_ORDER) init_state) = init_state.
Proof. exact (buddy_init_resets _ _ reachable_one_block). Defined.

(** ** What an allocation does to the free lists *)

(** The free lists after the split loop: one upper half more on every
    list from [border] to [j-1]. *)
Lemma split_free_at fuel st left_ j border held st' :
  partition st ((PAGE_TO_ADDR left_, j) :: held) →
  MIN_ORDER ≤ border ≤ j →
  split fuel st left_ j border = Done tt st' →
  ∀ o, free_at st' o
       = if decide (border ≤ o < j)
         then ADDR_TO_PAGE (PAGE_TO_ADDR left_ + 2 ^ o) :: free_at st o
         else free_at st o.
Proof.
  revert st j. induction fuel as [|fuel IH]; intros st j Hp Hb.
  - cbn [split]. destruct (j =? border) eqn:E; [|done]. apply Z.eqb_eq in E as ->.
    intros [= <-] o. rewrite decide_False; [done|lia].
  - destruct (decide (j = border)) as [->|Hne].
    { cbn [split]. rewrite Z.eqb_refl. intros [= <-] o. rewrite decide_False; [done|lia]. }
    destruct (split_step st left_ j border held Hp ltac:(lia))
      as (st2 & Hadd & Hstep & Hp2 & _).
    rewrite Hstep. intros Hsplit o.
    rewrite (IH st2 (j - 1) Hp2 ltac:(lia) Hsplit o).
    rewrite (free_at_list_add _ _ _ _ o Hadd), !free_at_set_blockOrder.
    destruct (decide (o = j - 1)) as [->|Ho].
    + rewrite decide_False, decide_True by lia. done.
    + destruct (decide (border ≤ o < j - 1)).
      * rewrite decide_True by lia. done.
      * rewrite decide_False by lia. done.
Qed.

(** What a successful allocation does to the free lists. *)
Lemma buddy_alloc_fuel_effect fuel s st live a st' :
  Inv st live → buddy_alloc_fuel fuel s st = Done (Some a) st' →
  ∃ i rest,
    block_order s ≤ i ≤ MAX_ORDER
    ∧ (∀ o, block_order s ≤ o < i → free_at st o = [])
    ∧ free_at st i = ADDR_TO_PAGE a :: rest
    ∧ (∀ o, free_at st' o
            = if decide (o = i) then rest
              else if decide (block_order s ≤ o < i) then [ADDR_TO_PAGE (a + 2 ^ o)]
              else free_at st o).
Proof.
  intros HI Ha.
  destruct (buddy_alloc_fuel_Inv _ _ _ _ _ _ HI Ha) as [_ Hbmin].
  destruct HI as [Hp Hr]. revert Ha. unfold buddy_alloc_fuel.
  destruct (s <=? 0); [done|].
  destruct (block_order s >? MAX_ORDER) eqn:Emax; [done|].
  intros (i' & left_ & l & lp & fuel' & Hi' & Hempty & Hhead & [p0 Hp0] & Hsplit & Hlp & ->)
    %alloc_scan_Some.
  destruct (page_at_Some _ _ _ Hp0) as [Hl0 _].
  assert (Hin : left_ ∈ free_at st i') by (unfold free_at; rewrite Hhead; left).
  assert (Hp2 : partition (list_del left_ (set_blockOrder st left_ (block_order s)))
                          ((PAGE_TO_ADDR left_, i') :: live)).
  { apply partition_list_del; [by apply partition_set_blockOrder|done]. }
  assert (Hbi : MIN_ORDER ≤ block_order s ≤ i') by lia.
  destruct (split_partition _ _ _ _ _ _ _ Hp2 Hbi Hsplit) as [Hp3 _].
  rewrite (shape_addr st' (part_shape _ _ Hp3) left_ lp Hlp), ADDR_TO_PAGE_TO_ADDR.
  exists i', l. split; [lia|]. split_and!.
  - intros o Ho. unfold free_at. by rewrite (Hempty o Ho).
  - unfold free_at. by rewrite Hhead.
  - intros o. rewrite (split_free_at _ _ _ _ _ _ _ Hp2 Hbi Hsplit o).
    rewrite free_at_list_del, free_at_set_blockOrder.
    pose proof (partition_NoDup_free_at st live i' Hp) as Hnd.
    destruct (decide (o = i')) as [->|Hne].
    + rewrite decide_False by lia. unfold free_at in Hnd |- *. rewrite Hhead in Hnd |- *.
      apply NoDup_cons in Hnd as [Hnin _].
      rewrite filter_cons_False by (intros H; by apply H).
      apply filter_all. intros x Hx ->. done.
    + rewrite (filter_all _ (free_at st o)).
      * destruct (decide (block_order s ≤ o < i')); [|done].
        unfold free_at at 1. by rewrite (Hempty o).
      * intros x Hx ->. apply Hne. by apply (partition_linked_once st live left_).
Qed.

Lemma block_order_range s :
  2 ^ (MIN_ORDER - 1) < s ≤ 2 ^ MAX_ORDER ↔ MIN_ORDER ≤ block_order s ≤ MAX_ORDER.
Proof.
  unfold block_order. destruct (Z.le_gt_cases s 0) as [Hs|Hs].
  - rewrite Z.log2_up_nonpos by done. unfold MIN_ORDER, MAX_ORDER. simpl. lia.
  - pose proof (Z.log2_up_lt_pow2 s (MIN_ORDER - 1) Hs).
    pose proof (Z.log2_up_le_pow2 s MAX_ORDER Hs). lia.
Qed.

Lemma alloc_second_block :
  buddy_alloc (2 ^ MIN_ORDER) (after_alloc (2 ^ MIN_ORDER) init_state)
  = Done (Some (2 ^ MIN_ORDER))
         (after_alloc (2 ^ MIN_ORDER) (after_alloc (2 ^ MIN_ORDER) init_state)).
Proof. vm_compute; reflexivity. Qed.

(** A request is served when a free block of its order or above is
    there. *)
Lemma buddy_alloc_fuel_serves fuel s st live o :
  Inv st live → MIN_ORDER ≤ block_order s → (n_orders ≤ fuel)%nat →
  block_order s ≤ o ≤ MAX_ORDER → free_at st o ≠ [] →
  ∃ a st', buddy_alloc_fuel fuel s st = Done (Some a) st'.
Proof.
  intros HI Hmin Hf Ho Hne.
  destruct (buddy_alloc_fuel_Done fuel s st live HI Hmin Hf) as ([a|] & st' & Ha);
    [by exists a, st'|exfalso].
  unfold buddy_alloc_fuel in Ha. destruct (s <=? 0); [done|].
  destruct (block_order s >? MAX_ORDER) eqn:E; [apply Z.gtb_lt in E; lia|].
  apply alloc_scan_null in Ha as [_ Hall]. specialize (Hall o Ho).
  apply Hne. unfold free_at. by destruct (head_at st o) as [[|[|]]|].
Qed.

(** The first iteration of the outer loop when the list of the order
    of the request has an entry: no split. *)
Lemma alloc_scan_head cap fuel st border k l p :
  border ≤ MAX_ORDER → head_at st border = Some (Linked (k :: l)) →
  page_at st k = Some p →
  alloc_scan cap (S fuel) st border border
  = Done (Some (blockAddress p)) (list_del k (set_blockOrder st k border)).
Proof.
  intros Hb Hh Hp. cbn [alloc_scan].
  destruct (border <=? MAX_ORDER) eqn:E; [|apply Z.leb_gt in E; lia].
  rewrite Hh. cbn [list_empty negb list_first]. rewrite Hp.
  assert (Hsplit : ∀ s, split cap s k border border = Done tt s).
  { intros s. destruct cap; cbn [split]; by rewrite Z.eqb_refl. }
  rewrite Hsplit.
  change (page_at (list_del ?x ?s) ?y) with (page_at s y).
  destruct (page_at_Some _ _ _ Hp) as [Hk0 _].
  rewrite page_at_set_blockOrder, decide_True, Hp by done. done.
Qed.

(** X4: in a state reached from [buddy_init] the block a successful
    [buddy_alloc(size)] returns has room for [size] bytes, lies inside
    the region, is aligned to its size [2^block_order], and shares no
    byte with a block that is still allocated. *)
Theorem buddy_alloc_block_sound st live s a st' :
  reachable (st, live) → buddy_alloc s st = Done (Some a) st' →
  0 < s ≤ 2 ^ block_order s
  ∧ 0 ≤ a ∧ a + 2 ^ block_order s ≤ 2 ^ MAX_ORDER
  ∧ (2 ^ block_order s | a)
  ∧ (∀ a' o' x, (a', o') ∈ live → covers x (a, block_order s) → ¬ covers x (a', o')).
Proof.
  intros Hr Ha. pose proof (reachable_Inv _ _ Hr) as HI.
  destruct (buddy_alloc_fuel_Inv loop_fuel s st live a st' HI Ha) as [[Hp _] Hmin].
  assert (Hg : good_block (a, block_order s)) by (apply (partition_good st' _ _ Hp); left).
  assert (Hs : 0 < s).
  { unfold buddy_alloc, buddy_alloc_fuel in Ha. destruct (s <=? 0) eqn:E; [done|].
    apply Z.leb_gt in E. lia. }
  destruct (block_order_least s ltac:(lia)) as [Hfit _].
  destruct Hg as (Ho & H0 & Hle & Hdiv); simpl in *.
  split_and!; try done.
  intros a' o' x Hin Hc Hc'.
  pose proof (partition_fresh st' a (block_order s) live Hp) as Hfresh.
  destruct Hp as [_ Ht].
  assert (Heq : (a, block_order s) = (a', o')).
  { apply (tiles_cover_unique _ _ _ x Ht); [unfold covers in Hc; simpl in Hc; lia| | |done..].
    - apply elem_of_app. right. left.
    - apply elem_of_app. right. by right. }
  apply Hfresh. apply list_elem_of_fmap. exists (a', o'). split; [by injection Heq|done].
Qed.

Lemma buddy_alloc_block_sound_witness :
  (2 ^ block_order (2 ^ MIN_ORDER) | 2 ^ MIN_ORDER)
  ∧ ∀ a' o' x, (a', o') ∈ [(0, MIN_ORDER)] →
               covers x (2 ^ MIN_ORDER, block_order (2 ^ MIN_ORDER)) → ¬ covers x (a', o').
Proof.
  split; apply (buddy_alloc_block_sound _ _ _ _ _ reachable_one_block alloc_second_block).
Defined.

(** X5: in a state reached from [buddy_init] a request of more than
    half a page and at most the region is never faulted: it returns,
    with an address exactly when some free list of the order of the
    request or above is not empty, and with NULL otherwise. *)
Theorem buddy_alloc_served_iff st live s :
  reachable (st, live) → 2 ^ (MIN_ORDER - 1) < s ≤ 2 ^ MAX_ORDER →
  (∃ r st', buddy_alloc s st = Done r st')
  ∧ ((∃ a st', buddy_alloc s st = Done (Some a) st')
     ↔ ∃ o, block_order s ≤ o ≤ MAX_ORDER ∧ free_at st o ≠ [])
  ∧ (buddy_alloc s st = Done None st
     ↔ ∀ o, block_order s ≤ o ≤ MAX_ORDER → free_at st o = []).
Proof.
  intros Hr Hs%block_order_range. pose proof (reachable_Inv _ _ Hr) as HI.
  assert (Hdone : ∃ r st', buddy_alloc s st = Done r st').
  { apply (buddy_alloc_fuel_Done _ _ _ live HI); [lia|apply n_orders_le_loop_fuel]. }
  assert (Hsome : (∃ a st', buddy_alloc s st = Done (Some a) st')
                  ↔ ∃ o, block_order s ≤ o ≤ MAX_ORDER ∧ free_at st o ≠ []).
  { split.
    - intros (a & st' & Ha).
      destruct (buddy_alloc_fuel_effect _ _ _ _ _ _ HI Ha) as (i & rest & Hi & _ & Hhead & _).
      exists i. split; [done|]. by rewrite Hhead.
    - intros (o & Ho & Hne).
      apply (buddy_alloc_fuel_serves _ _ _ live o HI); [lia|apply n_orders_le_loop_fuel|done..]. }
  split; [done|]. split; [done|]. split.
  - intros Hnull o Ho. destruct (free_at st o) as [|k l] eqn:E; [done|exfalso].
    destruct (proj2 Hsome) as (a & st' & Ha); [exists o; split; [done|by rewrite E]|].
    congruence.
  - intros Hall. destruct Hdone as ([a|] & st' & Ha).
    + exfalso. destruct (proj1 Hsome) as (o & Ho & Hne); [by exists a, st'|]. by apply Hne, Hall.
    + rewrite Ha. f_equal. unfold buddy_alloc, buddy_alloc_fuel in Ha.
      destruct (s <=? 0); [done|].
      destruct (block_order s >? MAX_ORDER); [by injection Ha|].
      by apply alloc_scan_null in Ha as [-> _].
Qed.

Lemma buddy_alloc_served_iff_witness :
  ∃ r st', buddy_alloc (2 ^ MIN_ORDER) (after_alloc (2 ^ MIN_ORDER) init_state) = Done r st'.
Proof.
  apply (buddy_alloc_served_iff _ _ (2 ^ MIN_ORDER) reachable_one_block).
  unfold MIN_ORDER, MAX_ORDER; simpl; lia.
Defined.

(** X6: a successful [buddy_alloc] takes the first descriptor of the
    first non-empty free list at the order [r] of the request or above,
    say at order [i]: the lists of orders [r] to [i-1] were empty and
    now hold one block each, the upper half split off at that order, at
    [address + 2^o]; the list of order [i] has lost its first entry and
    every other list is as it was.  No block is split when the list of
    order [r] has an entry. *)
Theorem buddy_alloc_first_fit st live s a st' :
  reachable (st, live) → buddy_alloc s st = Done (Some a) st' →
  ∃ i rest,
    block_order s ≤ i ≤ MAX_ORDER
    ∧ (∀ o, block_order s ≤ o < i → free_at st o = [])
    ∧ free_at st i = ADDR_TO_PAGE a :: rest
    ∧ PAGE_TO_ADDR (ADDR_TO_PAGE a) = a
    ∧ free_at st' i = rest
    ∧ (∀ o, block_order s ≤ o < i → free_at st' o = [ADDR_TO_PAGE (a + 2 ^ o)])
    ∧ (∀ o, o < block_order s ∨ i < o → free_at st' o = free_at st o).
Proof.
  intros Hr Ha. pose proof (reachable_Inv _ _ Hr) as HI.
  destruct (buddy_alloc_fuel_effect _ _ _ _ _ _ HI Ha) as (i & rest & Hi & Hempty & Hhead & Heff).
  destruct (buddy_alloc_fuel_Inv loop_fuel s st live a st' HI Ha) as [[Hp _] Hmin].
  assert (Hg : good_block (a, block_order s)) by (apply (partition_good st' _ _ Hp); left).
  exists i, rest. refine (conj Hi (conj Hempty (conj Hhead (conj _ (conj _ (conj _ _)))))).
  - apply PAGE_TO_ADDR_TO_PAGE, (divide_page a (block_order s)); [done|apply Hg].
  - by rewrite Heff, decide_True.
  - intros o Ho. by rewrite Heff, decide_False, decide_True by lia.
  - intros o Ho. by rewrite Heff, !decide_False by lia.
Qed.

Lemma buddy_alloc_first_fit_witness :
  ∃ i rest,
    free_at (after_alloc (2 ^ MIN_ORDER) init_state) i = ADDR_TO_PAGE (2 ^ MIN_ORDER) :: rest
    ∧ free_at (after_alloc (2 ^ MIN_ORDER) (after_alloc (2 ^ MIN_ORDER) init_state)) i = rest.
Proof.
  destruct (buddy_alloc_first_fit _ _ _ _ _ reachable_one_block alloc_second_block)
    as (i & rest & _ & _ & H1 & _ & H2 & _).
  exists i, rest. split; assumption.
Defined.

(** X7: a split leaves the buddy first in line.  In a state reached
    from [buddy_init], when [buddy_alloc] finds the list of the order
    [r] of the request empty and serves the request by splitting a
    larger block, the next request of the same size is served without
    a split and gets the buddy of the first address, [address XOR 2^r],
    which is [address + 2^r]. *)
Theorem buddy_alloc_twice_buddies st live s a st' :
  reachable (st, live) → buddy_alloc s st = Done (Some a) st' →
  free_at st (block_order s) = [] →
  ∃ st'', buddy_alloc s st' = Done (Some (BUDDY_ADDR a (block_order s))) st''
          ∧ BUDDY_ADDR a (block_order s) = a + 2 ^ block_order s
          ∧ free_at st'' (block_order s) = [].
Proof.
  intros Hr Ha Hnil. pose proof (reachable_Inv _ _ Hr) as HI. pose proof HI as [Hp _].
  destruct (buddy_alloc_fuel_effect _ _ _ _ _ _ HI Ha) as (i & rest & Hi & Hempty & Hhead & Heff).
  destruct (buddy_alloc_fuel_Inv loop_fuel s st live a st' HI Ha) as [[Hp' _] Hmin].
  set (r := block_order s) in *.
  assert (Hri : r < i).
  { destruct (decide (r = i)) as [Heq|]; [|lia]. rewrite <- Heq, Hnil in Hhead. done. }
  assert (Hg : good_block (a, r)) by (apply (partition_good st' _ _ Hp'); left).
  assert (Hk : PAGE_TO_ADDR (ADDR_TO_PAGE a) = a).
  { apply PAGE_TO_ADDR_TO_PAGE, (divide_page a r); [done|apply Hg]. }
  assert (Hgi : good_block (a, i)).
  { rewrite <- Hk. destruct Hp as [Hs [HF _]]. rewrite Forall_forall in HF.
    apply HF, elem_of_app. left. apply (free_at_free_blocks st _ i Hs). rewrite Hhead. left. }
  assert (Hr0 : 0 ≤ r) by (unfold MIN_ORDER in *; lia).
  assert (Hb : BUDDY_ADDR a r = a + 2 ^ r).
  { apply BUDDY_ADDR_low; [done|]. apply (divide_pow2_le a i); [lia|apply Hgi]. }
  pose proof (Heff r) as Hfr. rewrite decide_False, decide_True in Hfr by lia.
  set (right_ := ADDR_TO_PAGE (a + 2 ^ r)) in *.
  assert (Hright : PAGE_TO_ADDR right_ = a + 2 ^ r).
  { unfold right_. rewrite <- Hb. by apply buddy_page. }
  pose proof (part_shape _ _ Hp') as Hs'.
  destruct (shape_linked st' Hs' r ltac:(apply Hg)) as [l Hl].
  assert (l = [right_]) as -> by (unfold free_at in Hfr; by rewrite Hl in Hfr).
  assert (Hgr : good_block (PAGE_TO_ADDR right_, r)).
  { destruct Hp' as [_ [HF _]]. rewrite Forall_forall in HF. apply HF, elem_of_app. left.
    apply (free_at_free_blocks st' _ r Hs'). rewrite Hfr. left. }
  destruct (shape_page_at st' right_ Hs' (good_block_page_range _ _ Hgr)) as [p Hpr].
  eexists. split; [|split; [exact Hb|]].
  - unfold buddy_alloc, buddy_alloc_fuel in Ha |- *.
    destruct (s <=? 0); [done|]. fold r in Ha |- *.
    destruct (r >? MAX_ORDER); [done|]. rewrite loop_fuel_S.
    rewrite (alloc_scan_head _ _ _ r right_ [] p); [|apply Hg|done..].
    by rewrite (shape_addr st' Hs' _ p Hpr), Hright, Hb.
  - rewrite free_at_list_del, free_at_set_blockOrder, Hfr.
    by rewrite filter_cons_False, filter_nil by (by intros H).
Qed.

Lemma buddy_alloc_twice_buddies_witness :
  ∃ st'', buddy_alloc (2 ^ MIN_ORDER) (after_alloc (2 ^ MIN_ORDER) init_state)
          = Done (Some (BUDDY_ADDR 0 (block_order (2 ^ MIN_ORDER)))) st''.
Proof.
  destruct (buddy_alloc_twice_buddies init_state [] (2 ^ MIN_ORDER) 0 _
              (rtc_refl _ _) alloc_min_block) as (st'' & H & _).
  - vm_compute; reflexivity.
  - exists st''. exact H.
Defined.

(** ** Free blocks are never buddies *)

Lemma coalesced_subseteq bs bs' : bs' ⊆ bs → coalesced bs → coalesced bs'.
Proof. intros Hsub Hc a o Hin Hb. apply (Hc a o); by apply Hsub. Qed.

Global Instance coalesced_Permutation : Proper ((≡ₚ) ==> iff) coalesced.
Proof.
  intros bs bs' Hp. split; apply coalesced_subseteq; intros x; by rewrite Hp.
Qed.

Lemma coalesced_cons a o bs :
  0 ≤ o → coalesced bs → (BUDDY_ADDR a o, o) ∉ bs → coalesced ((a, o) :: bs).
Proof.
  intros Ho Hc Hb a' o' [[= -> ->]|Hin]%elem_of_cons.
  - intros [[= H]|H]%elem_of_cons; [by apply (BUDDY_ADDR_neq a o)|done].
  - intros [[= H ->]|H]%elem_of_cons; [|by apply (Hc a' o')].
    apply Hb. by rewrite <- H, BUDDY_ADDR_involutive.
Qed.

Lemma partition_held_base_not_free st a o held o' :
  partition st ((a, o) :: held) → (a, o') ∉ free_blocks st.
Proof.
  intros [_ Ht] Hin. pose proof (tiles_NoDup_bases _ Ht) as Hnd.
  rewrite fmap_app in Hnd. apply NoDup_app in Hnd as (_ & Hdisj & _).
  apply (Hdisj a).
  - apply list_elem_of_fmap. by exists (a, o').
  - csimpl. left.
Qed.

Lemma free_blocks_list_del_subseteq k st : free_blocks (list_del k st) ⊆ free_blocks st.
Proof. rewrite free_blocks_list_del. intros b Hb. by apply list_elem_of_filter in Hb as [_ ?]. Qed.

Lemma split_coalesced fuel st left_ j border held st' :
  partition st ((PAGE_TO_ADDR left_, j) :: held) →
  MIN_ORDER ≤ border ≤ j →
  coalesced (free_blocks st) →
  split fuel st left_ j border = Done tt st' →
  coalesced (free_blocks st').
Proof.
  revert st j. induction fuel as [|fuel IH]; intros st j Hp Hb Hc.
  - cbn [split]. destruct (j =? border) eqn:E; [|done]. by intros [= <-].
  - destruct (decide (j = border)) as [->|Hne].
    { cbn [split]. rewrite Z.eqb_refl. by intros [= <-]. }
    destruct (split_step st left_ j border held Hp ltac:(lia))
      as (st2 & Hadd & Hstep & Hp2 & _).
    rewrite Hstep. apply (IH st2 (j - 1) Hp2); [lia|].
    assert (Hg : good_block (PAGE_TO_ADDR left_, j)) by (apply (partition_good _ _ _ Hp); by left).
    destruct (good_block_split _ j Hg ltac:(lia)) as [Hg1 Hg2].
    assert (Hj0 : 0 ≤ j - 1) by (unfold MIN_ORDER in *; lia).
    rewrite (free_blocks_list_add _ _ _ _ Hadd) by apply Hg1.
    rewrite (free_blocks_ext (set_blockOrder st _ (j - 1)) st) by done.
    rewrite PAGE_TO_ADDR_TO_PAGE by (apply (divide_page _ (j - 1)); [lia|apply Hg2]).
    apply coalesced_cons; [done|done|].
    assert (Hbud : BUDDY_ADDR (PAGE_TO_ADDR left_) (j - 1) = PAGE_TO_ADDR left_ + 2 ^ (j - 1)).
    { apply BUDDY_ADDR_low; [done|]. replace (j - 1 + 1) with j by lia. apply Hg. }
    rewrite <- Hbud, BUDDY_ADDR_involutive.
    by apply (partition_held_base_not_free st _ j held).
Qed.

Lemma buddy_alloc_fuel_coalesced fuel s st live a st' :
  Inv st live → coalesced (free_blocks st) →
  buddy_alloc_fuel fuel s st = Done (Some a) st' → coalesced (free_blocks st').
Proof.
  intros HI Hc Ha.
  destruct (buddy_alloc_fuel_Inv _ _ _ _ _ _ HI Ha) as [_ Hbmin].
  destruct HI as [Hp Hr]. revert Ha. unfold buddy_alloc_fuel.
  destruct (s <=? 0); [done|].
  destruct (block_order s >? MAX_ORDER) eqn:Emax; [done|].
  intros (i' & left_ & l & lp & fuel' & Hi' & Hempty & Hhead & [p0 Hp0] & Hsplit & Hlp & ->)
    %alloc_scan_Some.
  destruct (page_at_Some _ _ _ Hp0) as [Hl0 _].
  assert (Hin : left_ ∈ free_at st i') by (unfold free_at; rewrite Hhead; left).
  assert (Hp2 : partition (list_del left_ (set_blockOrder st left_ (block_order s)))
                          ((PAGE_TO_ADDR left_, i') :: live)).
  { apply partition_list_del; [by apply partition_set_blockOrder|done]. }
  apply (split_coalesced fuel' _ left_ i' (block_order s) live st' Hp2); [lia| |done].
  apply (coalesced_subseteq (free_blocks st)); [|done].
  etrans; [apply free_blocks_list_del_subseteq|].
  by rewrite (free_blocks_ext (set_blockOrder st left_ (block_order s)) st).
Qed.

Lemma free_loop_exit fuel st f i held f' i' st' :
  partition st ((PAGE_TO_ADDR f, i) :: held) →
  free_loop fuel st f i true = Done (f', i') st' →
  free_blocks st' ⊆ free_blocks st
  ∧ (MAX_ORDER ≤ i' ∨ ADDR_TO_PAGE (BUDDY_ADDR (PAGE_TO_ADDR f') i') ∉ free_at st' i').
Proof.
  revert st f i. induction fuel as [|fuel IH]; intros st f i Hp.
  - cbn [free_loop]. destruct (i <? MAX_ORDER) eqn:E; [done|]. apply Z.ltb_ge in E.
    intros [= <- <- <-]. split; [done|by left].
  - destruct (Z.lt_ge_cases i MAX_ORDER) as [Hi|Hi].
    + destruct (free_loop_step st f i held Hp Hi) as (l & Hl & Hstep & Hmerge).
      rewrite Hstep. destruct (scan l _ false) eqn:Hscan.
      * apply scan_true in Hscan. intros Hloop.
        destruct (IH _ _ _ (Hmerge Hscan) Hloop) as [Hsub Hex].
        split; [|done]. etrans; [exact Hsub|apply free_blocks_list_del_subseteq].
      * intros [= <- <- <-]. split; [done|]. right. intros Hin.
        unfold free_at in Hin. rewrite Hl in Hin. apply scan_true in Hin. congruence.
    + rewrite free_loop_top by done. intros [= <- <- <-]. split; [done|by left].
Qed.

Lemma buddy_free_fuel_coalesced fuel a o st live st' :
  Inv st live → (a, o) ∈ live → coalesced (free_blocks st) →
  buddy_free_fuel fuel a st = Done tt st' → coalesced (free_blocks st').
Proof.
  intros HI Hin Hc Hfree.
  destruct (buddy_free_fuel_inv _ _ _ _ _ _ HI Hin Hfree)
    as (live' & f' & i' & st1 & d & Hp & Hpg & Hloop & Hd & Hadd).
  destruct (free_loop_partition _ _ _ _ _ _ _ _ _ Hp Hloop) as (Hp1 & _ & _).
  destruct (free_loop_exit _ _ _ _ _ _ _ _ Hp Hloop) as [Hsub Hex].
  assert (Hg : good_block (PAGE_TO_ADDR f', i'))
    by (apply (partition_good _ _ _ Hp1); by left).
  assert (Hi0 : 0 ≤ i') by (destruct Hg as [? _]; unfold MIN_ORDER in *; simpl in *; lia).
  rewrite (free_blocks_list_add f' i' _ st' Hadd) by apply Hg.
  rewrite (free_blocks_ext (set_blockOrder st1 f' i') st1) by done.
  apply coalesced_cons; [done|by apply (coalesced_subseteq (free_blocks st))|].
  intros Hb. destruct Hex as [Hmax|Hnot].
  - assert (i' = MAX_ORDER) as -> by (destruct Hg as [? _]; simpl in *; lia).
    assert (Hgb : good_block (BUDDY_ADDR (PAGE_TO_ADDR f') MAX_ORDER, MAX_ORDER)).
    { destruct Hp1 as [_ [HF _]]. rewrite Forall_forall in HF. apply HF, elem_of_app. by left. }
    apply (BUDDY_ADDR_neq (PAGE_TO_ADDR f') MAX_ORDER); [done|].
    destruct Hg as (_ & ? & ? & _), Hgb as (_ & ? & ? & _); simpl in *.
    pose proof (pow2_pos MAX_ORDER ltac:(done)). lia.
  - apply elem_of_free_blocks in Hb as (_ & k & Hk & Hkin).
    apply Hnot. by rewrite Hk, ADDR_TO_PAGE_TO_ADDR.
Qed.

Lemma coalesced_init : coalesced (free_blocks init_state).
Proof.
  change (free_blocks init_state) with [(0, MAX_ORDER)].
  intros a o [= -> ->]%list_elem_of_singleton [= H]%list_elem_of_singleton.
Qed.

Lemma step_coalesced c c' :
  Inv c.1 c.2 → step c c' → coalesced (free_blocks c.1) → coalesced (free_blocks c'.1).
Proof.
  intros HI Hstep. revert HI.
  destruct Hstep as [st live s a st' Ha|st live s st' Ha|st live1 live2 a o st' Hf];
    simpl; intros HI Hc.
  - by apply (buddy_alloc_fuel_coalesced loop_fuel s st live a st').
  - unfold buddy_alloc, buddy_alloc_fuel in Ha.
    destruct (s <=? 0); [done|].
    destruct (block_order s >? MAX_ORDER); [by injection Ha as <-|].
    by apply alloc_scan_null in Ha as [-> _].
  - apply (buddy_free_fuel_coalesced loop_fuel a o st (live1 ++ (a, o) :: live2) st');
      [done| |done..].
    apply elem_of_app. right. left.
Qed.

Lemma reachable_coalesced st live : reachable (st, live) → coalesced (free_blocks st).
Proof.
  intros Hr. change (coalesced (free_blocks (st, live).1)).
  revert Hr. generalize (st, live). apply (rtc_ind_r (λ c, coalesced (free_blocks c.1))).
  - apply coalesced_init.
  - intros [st1 l1] c' Hr Hstep Hc.
    apply (step_coalesced (st1, l1) c'); [by apply reachable_Inv|done..].
Qed.

(** X8: in a state reached from [buddy_init] no two free blocks are
    buddies: the buddy of a free block of an order below [MAX_ORDER] is
    on no free list of that order, so free memory is always merged as
    far as it can be. *)
Theorem free_blocks_coalesced st live k o :
  reachable (st, live) → k ∈ free_at st o → o < MAX_ORDER →
  (ADDR_TO_PAGE (BUDDY_ADDR (PAGE_TO_ADDR k) o) ∉ free_at st o)
  ∧ ((BUDDY_ADDR (PAGE_TO_ADDR k) o, o) ∉ free_blocks st).
Proof.
  intros Hr Hk Ho. pose proof (reachable_Inv _ _ Hr) as [Hp _].
  pose proof (reachable_coalesced _ _ Hr) as Hc.
  destruct (free_at_free_blocks st k o (part_shape _ _ Hp) Hk) as [Hb _].
  assert (Hg : good_block (PAGE_TO_ADDR k, o)).
  { destruct Hp as [_ [HF _]]. rewrite Forall_forall in HF. apply HF, elem_of_app. by left. }
  split; [|by apply Hc]. intros Hin. apply (Hc _ _ Hb).
  rewrite <- (buddy_page _ _ Hg). by apply (free_at_free_blocks st _ o (part_shape _ _ Hp)).
Qed.

Lemma free_blocks_coalesced_witness :
  1 ∈ free_at (after_alloc (2 ^ MIN_ORDER) init_state) MIN_ORDER
  ∧ ADDR_TO_PAGE (BUDDY_ADDR (PAGE_TO_ADDR 1) MIN_ORDER)
    ∉ free_at (after_alloc (2 ^ MIN_ORDER) init_state) MIN_ORDER.
Proof.
  assert (H : 1 ∈ free_at (after_alloc (2 ^ MIN_ORDER) init_state) MIN_ORDER)
    by (vm_compute; left).
  split; [exact H|].
  apply (free_blocks_coalesced _ _ 1 MIN_ORDER reachable_one_block H). reflexivity.
Defined.

(** ** When everything has been released *)

Lemma count_pos_elem x bs : (1 ≤ count x bs)%nat → ∃ b, b ∈ bs ∧ covers x b.
Proof.
  unfold count. destruct (filter (covers x) bs) as [|b l] eqn:E; simpl; [lia|]. intros _.
  assert (Hb : b ∈ filter (covers x) bs) by (rewrite E; left).
  apply list_elem_of_filter in Hb as [? ?]. by exists b.
Qed.

(** Two multiples of [s] less than [s] apart are equal. *)
Lemma aligned_base_eq s a b : 0 < s → (s | a) → (s | b) → a ≤ b < a + s → a = b.
Proof. intros Hs [m ->] [n ->] H. assert (m = n) by nia. by subst. Qed.

(** An aligned block that meets an aligned block of a smaller size
    contains it. *)
Lemma aligned_nest S T p c x y :
  0 < S → (S | p) → (S | T) → 0 < T → (T | c) →
  p ≤ x < p + S → p ≤ y < p + S → c ≤ x < c + T → c ≤ y < c + T.
Proof.
  intros HS [m ->] [t ->] HT [n ->] Hx Hy Hc.
  assert (Ht : 0 < t) by nia.
  assert (H1 : n * t ≤ m) by nia.
  assert (H2 : m + 1 ≤ (n + 1) * t) by nia.
  nia.
Qed.

Lemma tiles_coalesced_orders bs (n : nat) :
  tiles bs → coalesced bs → MIN_ORDER + Z.of_nat n ≤ MAX_ORDER →
  ∀ b, b ∈ bs → MIN_ORDER + Z.of_nat n ≤ b.2.
Proof.
  intros Ht Hc. induction n as [|n IH]; intros Hn [a o] Hb; simpl.
  - destruct Ht as [HF _]. rewrite Forall_forall in HF. destruct (HF _ Hb) as [? _]. simpl in *. lia.
  - specialize (IH ltac:(lia)). pose proof (IH _ Hb) as Ho; simpl in Ho.
    destruct (decide (o = MIN_ORDER + Z.of_nat n)) as [Heq|]; [exfalso|lia].
    assert (Hg : good_block (a, o)).
    { destruct Ht as [HF _]. rewrite Forall_forall in HF. by apply HF. }
    assert (Ho0 : 0 ≤ o) by (unfold MIN_ORDER in *; lia).
    pose proof (pow2_pos o Ho0) as Hpos.
    pose proof (pow2_double (o + 1) ltac:(lia)) as Hd. replace (o + 1 - 1) with o in Hd by lia.
    destruct (buddy_parent a o Hg ltac:(lia)) as (p & (_ & Hp0 & Hple & Hp) & Hcases).
    simpl in Hp0, Hple, Hp.
    assert (Hpa : p ≤ a < p + 2 ^ (o + 1)) by lia.
    assert (Hpb : p ≤ BUDDY_ADDR a o < p + 2 ^ (o + 1)) by lia.
    assert (Hreg : 0 ≤ BUDDY_ADDR a o < 2 ^ MAX_ORDER) by lia.
    assert (Hdivb : (2 ^ o | BUDDY_ADDR a o)).
    { destruct Hg as (_ & _ & _ & Hdiv); simpl in Hdiv.
      destruct (BUDDY_ADDR_cases a o Ho0 Hdiv) as [[_ ->]|[_ ->]].
      - by apply Z.divide_add_r; [|apply Z.divide_refl].
      - by apply Z.divide_sub_r; [|apply Z.divide_refl]. }
    pose proof (proj2 Ht _ Hreg) as Hcnt.
    destruct (count_pos_elem (BUDDY_ADDR a o) bs ltac:(lia)) as ([c oc] & Hcin & Hcov).
    assert (Hgc : good_block (c, oc)).
    { destruct Ht as [HF _]. rewrite Forall_forall in HF. by apply HF. }
    pose proof (IH _ Hcin) as Hoc; simpl in Hoc.
    destruct (decide (oc = o)) as [->|Hne].
    + assert (c = BUDDY_ADDR a o) as ->.
      { apply (aligned_base_eq (2 ^ o)); [by apply pow2_pos|apply Hgc|done|apply Hcov]. }
      by apply (Hc a o).
    + assert (Hcov' : covers a (c, oc)).
      { unfold covers in *; simpl in *.
        apply (aligned_nest (2 ^ (o + 1)) (2 ^ oc) p c (BUDDY_ADDR a o) a); try done.
        - apply pow2_pos. lia.
        - exists (2 ^ (oc - (o + 1))). rewrite <- Z.pow_add_r by lia. f_equal. lia.
        - apply pow2_pos. lia.
        - apply Hgc. }
      assert (Hreg_a : 0 ≤ a < 2 ^ MAX_ORDER) by apply (good_block_covers_base _ Hg).
      assert (Heq2 : (a, o) = (c, oc)).
      { apply (tiles_cover_unique bs _ _ a Ht Hreg_a Hb Hcin); [|done].
        apply (good_block_covers_base _ Hg). }
      congruence.
Qed.

(** A coalesced tiling of the region is the region itself. *)
Lemma tiles_coalesced_single bs : tiles bs → coalesced bs → bs = [(0, MAX_ORDER)].
Proof.
  intros Ht Hc.
  assert (Hall : ∀ b, b ∈ bs → b = (0, MAX_ORDER)).
  { intros [a o] Hb.
    pose proof (tiles_coalesced_orders bs (Z.to_nat (MAX_ORDER - MIN_ORDER)) Ht Hc
                  ltac:(unfold MIN_ORDER, MAX_ORDER; lia) _ Hb) as Ho; simpl in Ho.
    destruct Ht as [HF _]. rewrite Forall_forall in HF.
    destruct (HF _ Hb) as (Ho' & H0 & Hle & _); simpl in *.
    assert (o = MAX_ORDER) as -> by (unfold MIN_ORDER, MAX_ORDER in *; lia).
    f_equal. lia. }
  pose proof (proj2 Ht 0 ltac:(unfold MAX_ORDER; lia)) as Hcnt. unfold count in Hcnt.
  rewrite filter_all in Hcnt.
  - destruct bs as [|b [|b' bs]]; try done. by rewrite (Hall b ltac:(left)).
  - intros b Hb. rewrite (Hall b Hb). unfold covers, MAX_ORDER; simpl. lia.
Qed.

(** Two states laid out by [buddy_init] with the same free lists have
    the same array of heads. *)
Lemma shape_free_area_eq st st' :
  shape st → shape st' →
  (∀ o, MIN_ORDER ≤ o ≤ MAX_ORDER → free_at st o = free_at st' o) →
  free_area st = free_area st'.
Proof.
  intros Hs Hs' Heq. apply list_eq. intros n.
  destruct (decide (n < Z.to_nat (MAX_ORDER + 1))%nat) as [Hn|Hn].
  - assert (Hh : ∀ s, head_at s (Z.of_nat n) = free_area s !! n).
    { intros s. unfold head_at. destruct (Z.of_nat n <? 0) eqn:E; [apply Z.ltb_lt in E; lia|].
      by rewrite Nat2Z.id. }
    rewrite <- !Hh.
    destruct (decide (Z.of_nat n < MIN_ORDER)) as [Hlow|Hhigh].
    + by rewrite (shape_zeroed st Hs), (shape_zeroed st' Hs') by lia.
    + assert (Ho : MIN_ORDER ≤ Z.of_nat n ≤ MAX_ORDER) by (unfold MAX_ORDER in *; lia).
      specialize (Heq _ Ho). unfold free_at in Heq.
      destruct (shape_linked st Hs _ Ho) as [l Hl], (shape_linked st' Hs' _ Ho) as [l' Hl'].
      rewrite Hl, Hl' in Heq |- *. by rewrite Heq.
  - rewrite !lookup_ge_None_2; [done|rewrite (shape_heads st' Hs'); lia
                               |rewrite (shape_heads st Hs); lia].
Qed.

Lemma PAGE_TO_ADDR_0 k : PAGE_TO_ADDR k = 0 → k = 0.
Proof. unfold PAGE_TO_ADDR. change PAGE_SIZE with 4096. lia. Qed.

Lemma all_free_initial st :
  partition st [] → coalesced (free_blocks st) → free_area st = free_area init_state.
Proof.
  intros Hp Hc. pose proof Hp as [Hs Ht]. rewrite app_nil_r in Ht.
  pose proof (tiles_coalesced_single _ Ht Hc) as Hfb.
  assert (Hel : ∀ k o, k ∈ free_at st o → k = 0 ∧ o = MAX_ORDER).
  { intros k o Hk. destruct (free_at_free_blocks _ _ _ Hs Hk) as [Hb _].
    rewrite Hfb in Hb. apply list_elem_of_singleton in Hb. injection Hb as Hk0 ->.
    split; [by apply PAGE_TO_ADDR_0|done]. }
  apply shape_free_area_eq; [done|apply shape_init|]. intros o Ho.
  destruct (decide (o = MAX_ORDER)) as [->|Hne].
  - change (free_at init_state MAX_ORDER) with [0].
    pose proof (partition_NoDup_free_at st [] MAX_ORDER Hp) as Hnd.
    assert (Hin : (0, MAX_ORDER) ∈ free_blocks st) by (rewrite Hfb; left).
    apply elem_of_free_blocks in Hin as (_ & k & Hk & Hkin).
    symmetry in Hk. apply PAGE_TO_ADDR_0 in Hk as ->.
    destruct (free_at st MAX_ORDER) as [|k1 [|k2 l]] eqn:E.
    + by apply elem_of_nil in Hkin.
    + by apply list_elem_of_singleton in Hkin as ->.
    + destruct (Hel k1 MAX_ORDER) as [-> _]; [rewrite E; left|].
      destruct (Hel k2 MAX_ORDER) as [-> _]; [rewrite E; right; left|].
      apply NoDup_cons in Hnd as [Hnd _]. exfalso. apply Hnd. left.
  - rewrite init_lower_lists_empty by lia.
    destruct (free_at st o) as [|k l] eqn:E; [done|].
    destruct (Hel k o) as [_ ?]; [rewrite E; left|done].
Qed.

Lemma alloc_min_block_free :
  buddy_free 0 (after_alloc (2 ^ MIN_ORDER) init_state)
  = Done tt (after_free 0 (after_alloc (2 ^ MIN_ORDER) init_state)).
Proof. vm_compute. reflexivity. Qed.

Lemma reachable_all_released :
  reachable (after_free 0 (after_alloc (2 ^ MIN_ORDER) init_state), []).
Proof.
  eapply rtc_r; [exact reachable_one_block|].
  apply (step_free _ [] [] 0 MIN_ORDER). exact alloc_min_block_free.
Qed.

(** X9: when every allocated block has been released the free lists are
    those [buddy_init] leaves: the whole region is one free block of
    order [MAX_ORDER] again, whatever was allocated and released in
    between and in whatever order; [buddy_dump] prints what it prints
    after [buddy_init]. *)
Theorem all_released_restores_init st :
  reachable (st, []) →
  free_area st = free_area init_state
  ∧ free_at st MAX_ORDER = [0]
  ∧ (∀ o, o ≠ MAX_ORDER → free_at st o = [])
  ∧ buddy_dump st = buddy_dump init_state.
Proof.
  intros Hr. pose proof (reachable_Inv _ _ Hr) as [Hp _].
  pose proof (all_free_initial st Hp (reachable_coalesced _ _ Hr)) as Heq.
  split_and!; [done|by rewrite (free_at_ext st init_state)| |by apply buddy_dump_ext].
  intros o Ho. rewrite (free_at_ext st init_state) by done.
  destruct (decide (MIN_ORDER ≤ o < MAX_ORDER)); [by apply init_lower_lists_empty|].
  unfold free_at. destruct (head_at init_state o) as [[|l]|] eqn:E; [done| |done].
  pose proof (shape_head_range _ _ _ shape_init E). lia.
Qed.

Lemma all_released_restores_init_witness :
  free_area (after_free 0 (after_alloc (2 ^ MIN_ORDER) init_state)) = free_area init_state.
Proof. apply (all_released_restores_init _ reachable_all_released). Defined.

(** ** Allocation and release undo one another *)

(** The merge loop undoes the split loop: with the upper halves of
    orders [o] to [i-1] alone on their lists and the buddy at order [i]
    not free, the block in hand grows to order [i] and those lists are
    empty again. *)
Lemma free_loop_unsplit (n : nat) fuel st k o i held :
  partition st ((PAGE_TO_ADDR k, o) :: held) →
  i = o + Z.of_nat n → i ≤ MAX_ORDER → (2 ^ i | PAGE_TO_ADDR k) →
  (∀ o', o ≤ o' < i → free_at st o' = [ADDR_TO_PAGE (PAGE_TO_ADDR k + 2 ^ o')]) →
  (i < MAX_ORDER → ADDR_TO_PAGE (BUDDY_ADDR (PAGE_TO_ADDR k) i) ∉ free_at st i) →
  (n < fuel)%nat →
  ∃ st1, free_loop fuel st k o true = Done (k, i) st1
         ∧ ∀ o', free_at st1 o' = if decide (o ≤ o' < i) then [] else free_at st o'.
Proof.
  revert fuel st o. induction n as [|n IH]; intros fuel st o Hp Hi Hmax Hdiv Hup Hbud Hf.
  - assert (i = o) as -> by lia. exists st. split.
    + destruct (Z.lt_ge_cases o MAX_ORDER) as [Hlt|Hge]; [|by apply free_loop_top].
      destruct fuel as [|fuel]; [lia|].
      destruct (free_loop_step st k o held Hp Hlt) as (l & Hl & Hstep & _).
      rewrite Hstep. destruct (scan l _ false) eqn:Hscan; [|done].
      apply scan_true in Hscan. exfalso. apply (Hbud Hlt). unfold free_at. by rewrite Hl.
    + intros o'. rewrite decide_False; [done|lia].
  - assert (Hlt : o < MAX_ORDER) by lia.
    destruct fuel as [|fuel]; [lia|].
    assert (Hg : good_block (PAGE_TO_ADDR k, o)) by (apply (partition_good _ _ _ Hp); by left).
    assert (Ho0 : 0 ≤ o) by (destruct Hg as [? _]; unfold MIN_ORDER in *; simpl in *; lia).
    assert (Hb : BUDDY_ADDR (PAGE_TO_ADDR k) o = PAGE_TO_ADDR k + 2 ^ o).
    { apply BUDDY_ADDR_low; [done|]. apply (divide_pow2_le _ i); [lia|done]. }
    destruct (free_loop_step st k o held Hp Hlt) as (l & Hl & Hstep & Hmerge).
    rewrite Hb in Hstep, Hmerge.
    set (right_ := ADDR_TO_PAGE (PAGE_TO_ADDR k + 2 ^ o)) in *.
    assert (Hfo : free_at st o = [right_]) by (apply Hup; lia).
    assert (Hl' : l = [right_]) by (unfold free_at in Hfo; by rewrite Hl in Hfo).
    assert (Hin : right_ ∈ l) by (rewrite Hl'; left).
    assert (Hright : PAGE_TO_ADDR right_ = PAGE_TO_ADDR k + 2 ^ o).
    { unfold right_. rewrite <- Hb. by apply buddy_page. }
    assert (Hlow : (k >? right_) = false).
    { rewrite Z.gtb_ltb. apply Z.ltb_ge. pose proof (pow2_pos o Ho0).
      unfold PAGE_TO_ADDR in Hright. change PAGE_SIZE with 4096 in Hright. lia. }
    rewrite Hlow in Hstep, Hmerge. specialize (Hmerge Hin).
    assert (Hother : ∀ o', o' ≠ o → free_at (list_del right_ st) o' = free_at st o').
    { intros o' Hne. rewrite free_at_list_del. apply filter_all. intros x Hx ->.
      apply Hne. apply (partition_linked_once st _ right_ _ _ Hp Hx). by rewrite Hfo; left. }
    destruct (IH fuel (list_del right_ st) (o + 1) Hmerge) as (st1 & Hloop & Hlists);
      [lia|done|done| | |lia|].
    + intros o' Ho'. rewrite Hother by lia. apply Hup. lia.
    + intros Hi' Hin'. apply (Hbud Hi'). by rewrite Hother in Hin' by lia.
    + exists st1. split.
      * rewrite Hstep. apply scan_true in Hin. by rewrite Hin.
      * intros o'. rewrite Hlists. destruct (decide (o' = o)) as [->|Hne].
        -- rewrite decide_False, decide_True by lia.
           rewrite free_at_list_del, Hfo. by rewrite filter_cons_False, filter_nil by (by intros H).
        -- rewrite Hother by done.
           destruct (decide (o + 1 ≤ o' < i)); [by rewrite decide_True by lia
                                               |by rewrite decide_False by lia].
Qed.

(** Allocation followed by the release of the block restores the free
    lists. *)
Lemma alloc_free_lists fuel s st live a st' :
  Inv st live → coalesced (free_blocks st) → (n_orders ≤ fuel)%nat →
  buddy_alloc_fuel fuel s st = Done (Some a) st' →
  ∃ st'', buddy_free_fuel fuel a st' = Done tt st'' ∧ free_area st'' = free_area st.
Proof.
  intros HI Hc Hf Ha.
  destruct (buddy_alloc_fuel_effect _ _ _ _ _ _ HI Ha) as (i & rest & Hi & Hempty & Hhead & Heff).
  destruct (buddy_alloc_fuel_Inv _ _ _ _ _ _ HI Ha) as [HI' Hmin].
  pose proof HI as [Hp _]. pose proof HI' as [Hp' Hr'].
  set (r := block_order s) in *. set (k := ADDR_TO_PAGE a) in *.
  assert (Hg : good_block (a, r)) by (apply (partition_good st' _ _ Hp'); left).
  assert (Hk : PAGE_TO_ADDR k = a).
  { apply PAGE_TO_ADDR_TO_PAGE, (divide_page a r); [done|apply Hg]. }
  assert (Hkin : k ∈ free_at st i) by (rewrite Hhead; left).
  destruct (free_at_free_blocks st k i (part_shape _ _ Hp) Hkin) as [Hfb _].
  assert (Hgi : good_block (a, i)).
  { rewrite <- Hk. destruct Hp as [_ [HF _]]. rewrite Forall_forall in HF.
    apply HF, elem_of_app. by left. }
  assert (Hfuel : (Z.to_nat (MAX_ORDER - r) ≤ fuel)%nat)
    by (unfold n_orders, MIN_ORDER, MAX_ORDER in *; lia).
  destruct (buddy_free_fuel_Done fuel a r st' _ HI' ltac:(left) Hfuel)
    as (f' & i' & st1 & st'' & Hloop & Hadd & Hfree).
  exists st''. split; [done|].
  rewrite <- Hk in Hp'.
  destruct (free_loop_unsplit (Z.to_nat (i - r)) fuel st' k r i live Hp') as (st1' & Hloop' & Hlists).
  { lia. }
  { lia. }
  { rewrite Hk. apply Hgi. }
  { intros o' Ho'. by rewrite Heff, decide_False, decide_True, Hk by lia. }
  { intros Hlt Hin. rewrite Heff, decide_True in Hin by done.
    apply (Hc (PAGE_TO_ADDR k) i Hfb).
    rewrite Hk. rewrite <- (buddy_page a i Hgi).
    apply (free_at_free_blocks st _ i (part_shape _ _ Hp)). rewrite Hhead. right.
    by rewrite Hk in Hin. }
  { unfold n_orders, MIN_ORDER, MAX_ORDER in *. lia. }
  fold k in Hloop. rewrite Hloop' in Hloop. injection Hloop as <- <- <-.
  destruct (free_loop_partition _ _ _ _ _ _ _ _ _ Hp' Hloop') as (Hp1 & _ & _).
  assert (Hk0 : 0 ≤ k) by (apply (good_block_page_range k i); by rewrite Hk).
  assert (Hs'' : shape st'').
  { apply (shape_list_add (set_blockOrder st1' k i) st'' k i); [|done].
    apply shape_set_blockOrder; [apply Hp1|done]. }
  apply shape_free_area_eq; [done|apply Hp|]. intros o Ho.
  rewrite (free_at_list_add _ _ _ _ o Hadd), !free_at_set_blockOrder, !Hlists, !Heff.
  destruct (decide (o = i)) as [->|Hne].
  - rewrite decide_False, decide_True by lia. by rewrite Hhead.
  - destruct (decide (r ≤ o < i)); [by rewrite Hempty|done].
Qed.

(** X10: in a state reached from [buddy_init], releasing the block that
    [buddy_alloc] has just returned undoes the allocation: every split
    is merged back, every free list holds the descriptors it held, in
    the order it held them, and [buddy_dump] prints what it printed
    before. *)
Theorem alloc_free_restores st live s a st' :
  reachable (st, live) → buddy_alloc s st = Done (Some a) st' →
  ∃ st'', buddy_free a st' = Done tt st''
          ∧ free_area st'' = free_area st
          ∧ (∀ o, free_at st'' o = free_at st o)
          ∧ buddy_dump st'' = buddy_dump st.
Proof.
  intros Hr Ha.
  destruct (alloc_free_lists loop_fuel s st live a st' (reachable_Inv _ _ Hr)
              (reachable_coalesced _ _ Hr) n_orders_le_loop_fuel Ha) as (st'' & Hfree & Heq).
  exists st''. split_and!; [done|done| |by apply buddy_dump_ext].
  intros o. by apply free_at_ext.
Qed.

Lemma alloc_free_restores_witness :
  ∃ st'', buddy_free (2 ^ MIN_ORDER)
                     (after_alloc (2 ^ MIN_ORDER) (after_alloc (2 ^ MIN_ORDER) init_state))
          = Done tt st''
          ∧ free_area st'' = free_area (after_alloc (2 ^ MIN_ORDER) init_state).
Proof.
  destruct (alloc_free_restores _ _ _ _ _ reachable_one_block alloc_second_block)
    as (st'' & H1 & H2 & _).
  exists st''. split; assumption.
Defined.

(** X11: the free lists are last in, first out.  In a state reached
    from [buddy_init], when the buddy of an allocated block is not free,
    [buddy_free] puts the block at the head of the list of its order
    without merging, and a following request of that order gets the same
    address back and leaves the allocator in exactly the state before
    the release. *)
Theorem free_alloc_same_block st live a o s :
  reachable (st, live) → (a, o) ∈ live → o < MAX_ORDER →
  ADDR_TO_PAGE (BUDDY_ADDR a o) ∉ free_at st o → block_order s = o →
  ∃ st1, buddy_free a st = Done tt st1
         ∧ free_at st1 o = ADDR_TO_PAGE a :: free_at st o
         ∧ buddy_alloc s st1 = Done (Some a) st.
Proof.
  intros Hr Hin Ho Hbud Hs. pose proof (reachable_Inv _ _ Hr) as HI.
  pose proof HI as [Hp Hrec].
  assert (Hg : good_block (a, o)) by (by apply (partition_good st live)).
  destruct (free_unmerged 21 st live a o HI Hin Ho Hbud) as (st1 & Hadd & Hfree).
  exists st1. unfold buddy_free. rewrite loop_fuel_S. split; [done|].
  split; [by rewrite (free_at_list_add _ _ _ _ o Hadd), decide_True|].
  destruct (Hrec a o Hin) as (p & Hpa & Hpo).
  destruct (list_add_Some _ _ _ _ Hadd) as (l & Hl & ->).
  destruct (head_at_Some _ _ _ Hl) as [Ho0 Hlen].
  unfold buddy_alloc, buddy_alloc_fuel.
  destruct (s <=? 0) eqn:E0.
  { apply Z.leb_le in E0. unfold block_order in Hs. rewrite Z.log2_up_nonpos in Hs by done.
    destruct Hg as [Ho' _]; simpl in Ho'. unfold MIN_ORDER in *. lia. }
  rewrite Hs. destruct (o >? MAX_ORDER) eqn:E; [apply Z.gtb_lt in E; lia|].
  rewrite loop_fuel_S.
  rewrite (alloc_scan_head _ _ _ o (ADDR_TO_PAGE a) l p); [|lia| |done].
  - rewrite (shape_addr st (part_shape _ _ Hp) _ p Hpa).
    rewrite PAGE_TO_ADDR_TO_PAGE by (apply (divide_page a o); apply Hg).
    f_equal.
    assert (Hid : set_blockOrder (set_head st o (Linked (ADDR_TO_PAGE a :: l))) (ADDR_TO_PAGE a) o
                  = set_head st o (Linked (ADDR_TO_PAGE a :: l))).
    { rewrite <- Hpo at 2. by apply set_blockOrder_id. }
    rewrite Hid. apply (list_del_list_add st _ (ADDR_TO_PAGE a) o); [|done].
    intros o'. by apply (partition_held_unlinked st live a o).
  - by rewrite head_at_set_head, decide_True.
Qed.

Lemma free_alloc_same_block_witness :
  ∃ st1, buddy_free (2 ^ MIN_ORDER)
           (after_alloc (2 ^ MIN_ORDER) (after_alloc (2 ^ MIN_ORDER) init_state))
         = Done tt st1
         ∧ buddy_alloc (2 ^ MIN_ORDER) st1
           = Done (Some (2 ^ MIN_ORDER))
                  (after_alloc (2 ^ MIN_ORDER) (after_alloc (2 ^ MIN_ORDER) init_state)).
Proof.
  destruct (free_alloc_same_block _ _ (2 ^ MIN_ORDER) MIN_ORDER (2 ^ MIN_ORDER)
              reachable_two_blocks) as (st1 & H1 & _ & H2).
  - left.
  - reflexivity.
  - assert (E : free_at (after_alloc (2 ^ MIN_ORDER) (after_alloc (2 ^ MIN_ORDER) init_state))
                        MIN_ORDER = []) by (vm_compute; reflexivity).
    rewrite E. apply not_elem_of_nil.
  - reflexivity.
  - exists st1. split; assumption.
Defined.

(** X12: memory that has been released can be allocated again: after
    [buddy_free] of an allocated block of order [o], a request of an
    order between [MIN_ORDER] and [o] is served. *)
Theorem free_then_alloc_served st live a o s :
  reachable (st, live) → (a, o) ∈ live → MIN_ORDER ≤ block_order s ≤ o →
  ∃ st1 a' st2, buddy_free a st = Done tt st1 ∧ buddy_alloc s st1 = Done (Some a') st2.
Proof.
  intros Hr Hin Hs. pose proof (reachable_Inv _ _ Hr) as HI.
  assert (Hg : good_block (a, o)) by (apply (partition_good st live _ (proj1 HI) Hin)).
  destruct (buddy_free_fuel_Done loop_fuel a o st live HI Hin) as (f' & i' & st0 & st1 & Hloop & Hadd & Hfree).
  { destruct Hg as [Ho _]; simpl in Ho. unfold loop_fuel, MIN_ORDER, MAX_ORDER in *. lia. }
  pose proof Hin as Hin'. apply elem_of_Permutation in Hin' as [live' Hlive].
  pose proof (buddy_free_fuel_Inv _ _ _ _ _ _ _ HI Hlive Hfree) as HI1.
  destruct (buddy_free_fuel_inv _ _ _ _ _ _ HI Hin Hfree)
    as (live0 & f0 & i0 & st0' & d & Hp & Hpg & Hloop0 & _).
  rewrite Hloop in Hloop0. injection Hloop0 as <- <- <-.
  destruct (free_loop_partition _ _ _ _ _ _ _ _ _ Hp Hloop) as (Hp1 & _ & Hle).
  assert (Hg' : good_block (PAGE_TO_ADDR f', i')) by (apply (partition_good _ _ _ Hp1); by left).
  destruct (buddy_alloc_fuel_serves loop_fuel s st1 live' i' HI1) as (a' & st2 & Ha).
  - lia.
  - apply n_orders_le_loop_fuel.
  - destruct Hg' as [Ho' _]; simpl in Ho'. lia.
  - by rewrite (free_at_list_add _ _ _ _ i' Hadd), decide_True.
  - exists st1, a', st2. split; assumption.
Qed.

Lemma free_then_alloc_served_witness :
  ∃ st1 a' st2,
    buddy_free 0 (after_alloc (2 ^ MIN_ORDER) init_state) = Done tt st1
    ∧ buddy_alloc (2 ^ MIN_ORDER) st1 = Done (Some a') st2.
Proof.
  apply (free_then_alloc_served _ _ 0 MIN_ORDER (2 ^ MIN_ORDER) reachable_one_block).
  - left.
  - vm_compute. split; discriminate.
Defined.

(** X13: [buddy_free] of an allocated block makes its bytes free: the
    call returns, and afterwards the block lies inside the free block
    that heads a free list of the same order or above; no other free
    block contains any of its bytes, and what else is allocated stays
    allocated and keeps its recorded order. *)
Theorem buddy_free_releases st live1 live2 a o :
  reachable (st, live1 ++ (a, o) :: live2) →
  ∃ st1 m f rest,
    buddy_free a st = Done tt st1
    ∧ reachable (st1, live1 ++ live2)
    ∧ o ≤ f ≤ MAX_ORDER
    ∧ free_at st1 f = m :: rest
    ∧ (∀ x, covers x (a, o) → covers x (PAGE_TO_ADDR m, f))
    ∧ (∀ x k o', covers x (a, o) → k ∈ free_at st1 o' → covers x (PAGE_TO_ADDR k, o') →
                 k = m ∧ o' = f)
    ∧ (∀ a' o', (a', o') ∈ live1 ++ live2 →
                ∃ p, page_at st1 (ADDR_TO_PAGE a') = Some p ∧ blockOrder p = o').
Proof.
  intros Hr. pose proof (reachable_Inv _ _ Hr) as HI.
  assert (Hin : (a, o) ∈ live1 ++ (a, o) :: live2) by (apply elem_of_app; right; left).
  assert (Hg : good_block (a, o)) by (apply (partition_good st _ _ (proj1 HI) Hin)).
  destruct (buddy_free_fuel_Done loop_fuel a o st _ HI Hin)
    as (f' & i' & st0 & st1 & Hloop & Hadd & Hfree).
  { destruct Hg as [Ho _]; simpl in Ho. unfold loop_fuel, MIN_ORDER, MAX_ORDER in *. lia. }
  assert (Hr1 : reachable (st1, live1 ++ live2)).
  { eapply rtc_r; [exact Hr|]. by apply step_free. }
  pose proof (reachable_Inv _ _ Hr1) as [Hp1 Hrec1].
  destruct (buddy_free_fuel_inv _ _ _ _ _ _ HI Hin Hfree)
    as (live0 & f0 & i0 & st0' & d & Hp & Hpg & Hloop0 & _).
  rewrite Hloop in Hloop0. injection Hloop0 as <- <- <-.
  destruct (free_loop_partition _ _ _ _ _ _ _ _ _ Hp Hloop) as (Hp0 & _ & Hle).
  assert (Hg' : good_block (PAGE_TO_ADDR f', i')) by (apply (partition_good _ _ _ Hp0); by left).
  assert (Hhead : free_at st1 i' = f' :: free_at st0 i').
  { by rewrite (free_at_list_add _ _ _ _ i' Hadd), decide_True, free_at_set_blockOrder. }
  assert (Hcov : ∀ x, covers x (a, o) → covers x (PAGE_TO_ADDR f', i')).
  { intros x Hx. apply (free_loop_covers _ _ _ _ _ _ _ _ _ x Hp Hloop). by rewrite Hpg. }
  exists st1, f', i', (free_at st0 i').
  split; [exact Hfree|]. split; [exact Hr1|].
  split; [destruct Hg' as [Ho' _]; simpl in Ho'; lia|].
  split; [exact Hhead|]. split; [exact Hcov|]. split; [|exact Hrec1].
  intros x k o' Hx Hk Hc.
  pose proof (part_shape _ _ Hp1) as Hs1.
  destruct (free_at_free_blocks st1 k o' Hs1 Hk) as [Hb _].
  destruct (free_at_free_blocks st1 f' i' Hs1 ltac:(rewrite Hhead; left)) as [Hb' _].
  assert (Hreg : 0 ≤ x < 2 ^ MAX_ORDER).
  { destruct Hg as (_ & H0 & Hle' & _); simpl in H0, Hle'.
    unfold covers in Hx; simpl in Hx. lia. }
  assert (Heq : (PAGE_TO_ADDR k, o') = (PAGE_TO_ADDR f', i')).
  { apply (tiles_cover_unique _ _ _ x (part_tiles _ _ Hp1) Hreg);
      [apply elem_of_app; by left|apply elem_of_app; by left|done|by apply Hcov]. }
  injection Heq as Hk' ->. split; [by apply (inj PAGE_TO_ADDR)|done].
Qed.

Lemma buddy_free_releases_witness :
  ∃ st1 m f rest,
    buddy_free 0 (after_alloc (2 ^ MIN_ORDER) init_state) = Done tt st1
    ∧ free_at st1 f = m :: rest
    ∧ ∀ x, covers x (0, MIN_ORDER) → covers x (PAGE_TO_ADDR m, f).
Proof.
  destruct (buddy_free_releases (after_alloc (2 ^ MIN_ORDER) init_state) [] [] 0 MIN_ORDER
              reachable_one_block) as (st1 & m & f & rest & H1 & _ & _ & H2 & H3 & _).
  exists st1, m, f, rest. split; [exact H1|]. split; [exact H2|exact H3].
Defined.

(** ** Accounting for every byte *)

Lemma block_bytes_app l1 l2 : block_bytes (l1 ++ l2) = block_bytes l1 + block_bytes l2.
Proof. induction l1 as [|b l1 IH]; simpl; [done|]. rewrite IH. lia. Qed.

Global Instance block_bytes_Permutation : Proper ((≡ₚ) ==> (=)) block_bytes.
Proof. induction 1; simpl; lia. Qed.

Lemma covered_cons n b bs : covered n (b :: bs) = (covered n [b] + covered n bs)%nat.
Proof.
  induction n as [|n IH]; cbn [covered]; [done|].
  rewrite IH, (count_cons _ b bs), (count_cons _ b []). unfold count at 2. simpl. lia.
Qed.

Lemma covered_block n a o :
  0 ≤ a → 0 ≤ o →
  Z.of_nat (covered n [(a, o)]) = Z.max 0 (Z.min (Z.of_nat n) (a + 2 ^ o) - a).
Proof.
  intros Ha Ho. pose proof (pow2_pos o Ho) as Hpos.
  induction n as [|n IH]; cbn [covered]; [lia|].
  rewrite Nat2Z.inj_add, IH, count_cons. unfold count; simpl.
  destruct (decide (covers (Z.of_nat n) (a, o))) as [Hc|Hc]; unfold covers in Hc; simpl in Hc; lia.
Qed.

Lemma covered_tiles n bs :
  (∀ x, 0 ≤ x < Z.of_nat n → count x bs = 1%nat) → covered n bs = n.
Proof.
  induction n as [|n IH]; intros Hc; cbn [covered]; [done|].
  rewrite Hc, IH by (try intros x Hx; try apply Hc; lia). done.
Qed.

Lemma covered_bytes n bs :
  Z.of_nat n = 2 ^ MAX_ORDER → Forall good_block bs → Z.of_nat (covered n bs) = block_bytes bs.
Proof.
  intros Hn. induction 1 as [|[a o] bs Hg _ IH]; simpl.
  - clear Hn. induction n as [|n IHn]; [done|]. cbn [covered]. unfold count; simpl in *. lia.
  - rewrite covered_cons, Nat2Z.inj_add, IH.
    destruct Hg as (Ho & H0 & Hle & _); simpl in *.
    rewrite covered_block by (unfold MIN_ORDER in *; lia).
    pose proof (pow2_pos o ltac:(unfold MIN_ORDER in *; lia)). lia.
Qed.

(** The blocks of a tiling add up to the region. *)
Lemma tiles_bytes bs : tiles bs → block_bytes bs = 2 ^ MAX_ORDER.
Proof.
  intros [HF Hc].
  assert (Hn : Z.of_nat (Z.to_nat (2 ^ MAX_ORDER)) = 2 ^ MAX_ORDER).
  { apply Z2Nat.id. apply Z.pow_nonneg. lia. }
  rewrite <- (covered_bytes _ bs Hn HF), covered_tiles; [done|].
  intros x Hx. apply Hc. lia.
Qed.

Lemma count_nodes_length l : count_nodes l = Z.of_nat (length l).
Proof.
  unfold count_nodes.
  assert (H : ∀ c, fold_left (λ cnt (_ : Z), cnt + 1) l c = c + Z.of_nat (length l)).
  { induction l as [|k l IH]; intros c; simpl; [lia|]. rewrite IH. lia. }
  by rewrite H.
Qed.

Lemma dump_unit o : 10 ≤ o → Z.shiftl 1 o / 1024 * 1024 = 2 ^ o.
Proof.
  intros Ho. rewrite Z.shiftl_1_l.
  replace (2 ^ o) with (2 ^ (o - 10) * 1024) by (change 1024 with (2 ^ 10);
    rewrite <- Z.pow_add_r by lia; f_equal; lia).
  by rewrite Z.div_mul.
Qed.

Lemma block_bytes_blocks_at st o :
  block_bytes (blocks_at st o) = Z.of_nat (length (free_at st o)) * 2 ^ o.
Proof.
  unfold blocks_at. induction (free_at st o) as [|k l IH]; [done|].
  csimpl. rewrite IH. lia.
Qed.

Lemma dump_from_bytes n st o out :
  10 ≤ o → dump_from n st o = Some out →
  dump_bytes out = block_bytes (seqZ o (Z.of_nat n) ≫= blocks_at st).
Proof.
  revert o out. induction n as [|n IH]; intros o out Ho; cbn [dump_from].
  - by intros [= <-].
  - destruct (head_at st o) as [[|l]|] eqn:Hh; try done.
    destruct (dump_from n st (o + 1)) as [rest|] eqn:Hd; [|done].
    intros [= <-]. rewrite seqZ_cons by lia.
    replace (Z.pred (Z.of_nat (S n))) with (Z.of_nat n) by lia.
    rewrite bind_cons, block_bytes_app, block_bytes_blocks_at.
    change (dump_bytes (?e :: ?r)) with (e.1 * (e.2 * 1024) + dump_bytes r). cbn [fst snd].
    rewrite (IH (o + 1) rest) by (done || lia).
    unfold free_at. rewrite Hh, count_nodes_length.
    rewrite <- (dump_unit o Ho). unfold Z.succ. lia.
Qed.

Lemma free_blocks_dumped st :
  shape st → free_blocks st = seqZ MIN_ORDER (Z.of_nat n_orders) ≫= blocks_at st.
Proof.
  intros Hs. unfold free_blocks, orders.
  change (MAX_ORDER + 1) with (MIN_ORDER + Z.of_nat n_orders).
  rewrite seqZ_app by done. rewrite bind_app.
  rewrite (bind_ext_in (blocks_at st) (λ _, [])).
  - change (0 + MIN_ORDER) with MIN_ORDER.
    by induction (seqZ 0 MIN_ORDER) as [|x l IH].
  - intros o Ho%elem_of_seqZ. unfold blocks_at, free_at.
    by rewrite (shape_zeroed st Hs) by lia.
Qed.

Lemma block_bytes_min bs :
  Forall good_block bs → Z.of_nat (length bs) * PAGE_SIZE ≤ block_bytes bs.
Proof.
  induction 1 as [|[a o] bs Hg _ IH]; simpl; [done|].
  destruct Hg as ([Ho _] & _); simpl in Ho.
  assert (2 ^ MIN_ORDER ≤ 2 ^ o) by (apply Z.pow_le_mono_r; unfold MIN_ORDER in *; lia).
  rewrite PAGE_SIZE_eq in *. lia.
Qed.

(** X14: the free blocks and the allocated blocks add up to the region:
    the bytes [buddy_dump] reports free (count times size, per order)
    plus the bytes of the allocated blocks are [2^MAX_ORDER], so no byte
    is lost or counted twice, and there are never more allocated blocks
    than pages. *)
Theorem bytes_conserved st live :
  reachable (st, live) →
  block_bytes (free_blocks st) + block_bytes live = 2 ^ MAX_ORDER
  ∧ (∃ out, buddy_dump st = Some out
            ∧ dump_bytes out + block_bytes live = 2 ^ MAX_ORDER)
  ∧ Z.of_nat (length live) ≤ n_pages.
Proof.
  intros Hr. pose proof (reachable_Inv _ _ Hr) as [[Hs Ht] _].
  pose proof (tiles_bytes _ Ht) as Hb. rewrite block_bytes_app in Hb.
  split; [done|]. split.
  - destruct (buddy_dump_Some st Hs) as (out & Hout & _). exists out. split; [done|].
    unfold buddy_dump in Hout. fold n_orders in Hout.
    rewrite (dump_from_bytes n_orders st MIN_ORDER out ltac:(done) Hout).
    by rewrite <- free_blocks_dumped.
  - destruct Ht as [HF _]. apply Forall_app in HF as [HFf HFl].
    pose proof (block_bytes_min _ HFl) as Hmin.
    assert (0 ≤ block_bytes (free_blocks st)).
    { clear Hb. induction HFf as [|b bs Hg _ IH]; simpl; [done|].
      pose proof (good_block_pos _ Hg). lia. }
    change n_pages with 256. change PAGE_SIZE with 4096 in Hmin.
    change (2 ^ MAX_ORDER) with 1048576 in Hb. lia.
Qed.

Lemma bytes_conserved_witness :
  block_bytes (free_blocks (after_alloc (2 ^ MIN_ORDER) init_state))
  + block_bytes [(0, MIN_ORDER)] = 2 ^ MAX_ORDER.
Proof. apply (bytes_conserved _ _ reachable_one_block). Defined.

(** ** Release without validation *)

(** The merge loop entered with an order below [MIN_ORDER]. *)
Lemma free_loop_low_order fuel st f i p :
  shape st → page_at st f = Some p → i < MIN_ORDER →
  free_loop (S fuel) st f i true = Fault.
Proof.
  intros Hs Hp Hi. cbn [free_loop].
  destruct (i <? MAX_ORDER) eqn:E;
    [|apply Z.ltb_ge in E; unfold MIN_ORDER, MAX_ORDER in *; lia].
  cbn [andb]. rewrite Hp.
  destruct (decide (i < 0)) as [Hneg|Hpos].
  - unfold head_at. destruct (i <? 0) eqn:E0; [done|apply Z.ltb_ge in E0; lia].
  - by rewrite (shape_zeroed st Hs) by lia.
Qed.

(** X15: [buddy_free] validates nothing.  Given an address outside the
    region it indexes [g_pages] out of bounds; given an address whose
    descriptor holds an order below [MIN_ORDER] (such as the -1 that
    [buddy_init] stores and that stays until the page heads a block) it
    reads [free_area] below index 0 or walks a list head that was never
    initialised.  Either way the call faults and there is no state
    after it. *)
Theorem buddy_free_unchecked st a :
  shape st →
  (¬ 0 ≤ a < 2 ^ MAX_ORDER → buddy_free a st = Fault)
  ∧ (∀ p, page_at st (ADDR_TO_PAGE a) = Some p → blockOrder p < MIN_ORDER →
          buddy_free a st = Fault).
Proof.
  intros Hs. split.
  - intros Ha. unfold buddy_free, buddy_free_fuel.
    destruct (page_at st (ADDR_TO_PAGE a)) as [p|] eqn:E; [exfalso|done].
    apply (shape_page_range st _ _ Hs) in E. apply Ha.
    unfold ADDR_TO_PAGE, n_pages in E. change PAGE_SIZE with 4096 in E.
    change (Z.shiftl 1 MAX_ORDER / 4096) with 256 in E. change (2 ^ MAX_ORDER) with 1048576.
    pose proof (Z.div_mod a 4096 ltac:(lia)). pose proof (Z.mod_pos_bound a 4096 ltac:(lia)).
    lia.
  - intros p Hp Ho. unfold buddy_free, buddy_free_fuel. rewrite Hp, loop_fuel_S.
    by rewrite (free_loop_low_order _ st _ _ p).
Qed.

Lemma buddy_free_unchecked_witness : buddy_free (2 ^ MIN_ORDER) init_state = Fault.
Proof.
  apply (proj2 (buddy_free_unchecked init_state (2 ^ MIN_ORDER) shape_init)
           (mk_page (-1) (2 ^ MIN_ORDER))).
  - vm_compute; reflexivity.
  - reflexivity.
Defined.
